(** * Threshold-signature coordinator of the key-management service

    A shallow embedding of [src/services/mpc/tss-coordinator.service.ts]
    (classes [TSSParty], [FeldmanVSS], [TSSCoordinatorService]) together with
    the earlier coordinator that still lives in the repository, and the
    properties of the natural-language specification stated against it.

    Conventions of the embedding:
    - a JavaScript [bigint] is a [Z]; the operators [%] and [/] on bigints
      truncate towards zero, so they are [Z.rem] and [Z.quot];
    - a [Buffer] is a [list byte]; hexadecimal text is a [string];
    - a [Map] whose iteration order the code relies on is an association
      list, any other [Map] and the secret store are [gmap]s;
    - code that throws or mutates is written in a state-and-error monad;
    - the two external primitives, Node's SHA-256 and the [elliptic]
      secp256k1 curve, are interfaces ([Sha256], [Curve]). *)

From Stdlib Require Import ZArith Lia List String Ascii.
From Stdlib.Strings Require Import Byte.
From Stdlib.Zmod Require Import ZmodDef ZmodBase.
From stdpp Require Import base option list gmap strings pretty.

#[local] Open Scope Z_scope.

(* ================================================================== *)
(** ** Buffers and hexadecimal text *)

Module Hex.

(** One lower-case hexadecimal digit, for a value below 16. *)
Definition digit (d : N) : ascii :=
  if (d <? 10)%N then ascii_of_N (48 + d) else ascii_of_N (87 + d).

(** The value of a hexadecimal digit, either case. *)
Definition value (c : ascii) : option N :=
  let k := N_of_ascii c in
  if ((48 <=? k) && (k <=? 57))%N then Some (k - 48)%N
  else if ((97 <=? k) && (k <=? 102))%N then Some (k - 87)%N
  else if ((65 <=? k) && (k <=? 70))%N then Some (k - 55)%N
  else None.

(** [buf.toString('hex')]. *)
Fixpoint ofBuffer (buf : list byte) : string :=
  match buf with
  | [] => EmptyString
  | b :: rest =>
      String (digit (Byte.to_N b / 16)) (String (digit (Byte.to_N b mod 16)) (ofBuffer rest))
  end.

(** [Buffer.from(s, 'hex')]: pairs of digits are decoded until the text
    ends or a pair is not hexadecimal; a trailing single digit is dropped. *)
Fixpoint toBuffer (s : string) : list byte :=
  match s with
  | String a (String b rest) =>
      match value a, value b with
      | Some h, Some l =>
          match Byte.of_N (16 * h + l) with
          | Some x => x :: toBuffer rest
          | None => []
          end
      | _, _ => []
      end
  | _ => []
  end.

(** Digits of a positive number, most significant first, in front of [acc]. *)
Fixpoint ofPositive (fuel : nat) (v : N) (acc : string) : string :=
  match fuel with
  | O => acc
  | S fuel' =>
      let acc' := String (digit (v mod 16)) acc in
      if (v / 16 =? 0)%N then acc' else ofPositive fuel' (v / 16)%N acc'
  end.

(** [x.toString(16)] on a bigint. *)
Definition ofBigInt (x : Z) : string :=
  match x with
  | Z0 => "0"
  | Zpos p => ofPositive (Pos.size_nat p) (Npos p) ""
  | Zneg p => String "-" (ofPositive (Pos.size_nat p) (Npos p) "")
  end.

(** [s.padStart(width, '0')]. *)
Definition padStart (width : nat) (s : string) : string :=
  String.concat "" (repeat "0"%string (width - String.length s)) +:+ s.

(** Left-to-right accumulation of hexadecimal digits; [None] at the first
    character that is not one. *)
Fixpoint parseFrom (s : string) (acc : N) : option N :=
  match s with
  | EmptyString => Some acc
  | String c rest =>
      match value c with
      | Some d => parseFrom rest (16 * acc + d)%N
      | None => None
      end
  end.

(** The white space that [BigInt] skips around a literal: tab, line feed,
    vertical tab, form feed, carriage return, space and no-break space (a
    character is the code unit of its number). *)
Definition isWhiteSpace (c : ascii) : bool :=
  let k := N_of_ascii c in
  (((9 <=? k) && (k <=? 13)) || (k =? 32) || (k =? 160))%N.

(** [s] without the white space at its end. *)
Fixpoint trimEnd (s : string) : string :=
  match s with
  | EmptyString => EmptyString
  | String c rest =>
      match trimEnd rest with
      | EmptyString => if isWhiteSpace c then EmptyString else String c EmptyString
      | kept => String c kept
      end
  end.

(** [BigInt('0x' + s)]: white space at the end of [s] is skipped; a
    [SyntaxError] ([None]) when no character is left before it or one of
    them is not a hexadecimal digit. *)
Definition toBigInt (s : string) : option Z :=
  match trimEnd s with
  | EmptyString => None
  | digits => Z.of_N <$> parseFrom digits 0
  end.

(** The unsigned big-endian value of a buffer. *)
Fixpoint beValue (acc : N) (buf : list byte) : N :=
  match buf with
  | [] => acc
  | b :: rest => beValue (256 * acc + Byte.to_N b)%N rest
  end.

(** The [len] low bytes of [v], most significant first. *)
Fixpoint beBytes (len : nat) (v : N) : list byte :=
  match len with
  | O => []
  | S len' =>
      beBytes len' (v / 256)%N
        ++ [match Byte.of_N (v mod 256) with Some b => b | None => x00 end]
  end.

End Hex.

(** [BigInt('0x' + buf.toString('hex'))]. *)
Definition bufferToBigInt (buf : list byte) : option Z :=
  Hex.toBigInt (Hex.ofBuffer buf).

(* ================================================================== *)
(** ** Numbers in text

    A party id is a JavaScript number, and a template literal prints a
    number with [Number::toString]: the shortest decimal digits that read
    back as the same double, followed by zeros or, from [10^21] on, in
    exponent form. The integers among the numbers are the [Z] that a double
    holds exactly; any other [Z] is read as the double nearest to it. *)

Module JsNumber.

(** The double nearest to a positive integer: 53 significant bits are
    kept, and a tie goes to the even neighbour. *)
Definition nearest (y : Z) : Z :=
  let shift := Z.log2 y + 1 - 53 in
  if shift <=? 0 then y
  else
    let q := Z.shiftr y shift in
    let r := Z.land y (Z.ones shift) in
    let half := Z.shiftl 1 (shift - 1) in
    let q' := if (half <? r) || ((r =? half) && Z.odd q) then q + 1 else q in
    Z.shiftl q' shift.

(** Whether the decimal [s * 10^m] reads back as the double [x]. *)
Definition readsBack (x s m : Z) : bool := nearest (s * 10 ^ m) =? x.

(** The digits [s] and the exponent [m] that print the double [x]: as few
    digits as read back as [x], tried from one digit on ([m] counts down);
    of two candidates of the same length the one nearer to [x]. *)
Fixpoint shortest (fuel : nat) (x m : Z) : Z * Z :=
  match fuel with
  | O => (x, 0)
  | S fuel' =>
      let lo := x / 10 ^ m in
      let hi := lo + 1 in
      let found :=
        match readsBack x lo m, readsBack x hi m with
        | true, true => Some (if x - lo * 10 ^ m <=? hi * 10 ^ m - x then lo else hi)
        | true, false => Some lo
        | false, true => Some hi
        | false, false => None
        end in
      match found with
      | Some s => if s mod 10 =? 0 then (s / 10, m + 1) else (s, m)
      | None => shortest fuel' x (m - 1)
      end
  end.

(** The text of a positive double that is an integer: with [n] the number
    of digits before the decimal point, the digits and [n - k] zeros when
    [n <= 21], else the first digit, the others after a point, and the
    exponent [n - 1]. *)
Definition ofDouble (x : Z) : string :=
  if 2 ^ 1024 <=? x then "Infinity"
  else
    let d := Z.of_nat (String.length (pretty x)) in
    let '(s, m) := shortest (Z.to_nat d) x (d - 1) in
    let digits := pretty s in
    let n := Z.of_nat (String.length digits) + m in
    if n <=? 21 then digits +:+ String.concat "" (repeat "0"%string (Z.to_nat m))
    else
      match digits with
      | EmptyString => EmptyString
      | String c EmptyString => String c ("e+" +:+ pretty (n - 1))
      | String c rest => String c ("." +:+ rest +:+ "e+" +:+ pretty (n - 1))
      end.

(** [`${z}`], which is [String(z)]. *)
Definition toString (z : Z) : string :=
  match z with
  | Z0 => "0"
  | Zpos _ => ofDouble (nearest z)
  | Zneg _ => "-" +:+ ofDouble (nearest (- z))
  end.

End JsNumber.

(* ================================================================== *)
(** ** Scalars *)

(** The order of the secp256k1 group, the constant [n] of the module. *)
Definition n : Z :=
  0xFFFFFFFFFFFFFFFFFFFFFFFFFFFFFFFEBAAEDCE6AF48A03BBFD25E8CD0364141.

(** The loop of [FeldmanVSS.modPow], by recursion on the binary digits of
    the exponent: [exp / 2] of [p~0] and [p~1] is [p], of [1] it is [0]. *)
Fixpoint modPow_loop (exp : positive) (result base modulus : Z) : Z :=
  let result' :=
    if Z.rem (Zpos exp) 2 =? 1 then Z.rem (result * base) modulus else result in
  let base' := Z.rem (base * base) modulus in
  match exp with
  | xH => result'
  | xO half | xI half => modPow_loop half result' base' modulus
  end.

(** [FeldmanVSS.modPow]. *)
Definition modPow (base exp modulus : Z) : Z :=
  match exp with
  | Z0 => 1
  | Zpos p => modPow_loop p 1 (Z.rem base modulus) modulus
  | Zneg _ => 1
  end.

(** The loop of [FeldmanVSS.evaluatePolynomial], from index [i]. *)
Fixpoint evaluatePolynomial_from
    (i : Z) (coefficients : list Z) (x result : Z) : Z :=
  match coefficients with
  | [] => result
  | c :: rest =>
      let term := Z.rem (c * modPow x i n) n in
      evaluatePolynomial_from (i + 1) rest x (Z.rem (result + term) n)
  end.

(** [FeldmanVSS.evaluatePolynomial]. *)
Definition evaluatePolynomial (coefficients : list Z) (x : Z) : Z :=
  evaluatePolynomial_from 0 coefficients x 0.

(* ================================================================== *)
(** ** Exceptions, and the state-and-error monad *)

(** What the code can throw. The two AWS exceptions carry the name of the
    secret; [ServiceUnavailable] stands for every other failure of the
    Secrets Manager client. *)
Inductive error : Type :=
| Error (message : string)
| TypeError
| SyntaxError
| ResourceExistsException (name : string)
| ResourceNotFoundException (name : string)
| ServiceUnavailable.

(** [error.message.includes('already exists')]: of the failures of the
    client, only "The operation failed because the secret ... already
    exists." carries that text. *)
Definition message_includes_already_exists (e : error) : bool :=
  match e with
  | ResourceExistsException _ => true
  | _ => false
  end.

Inductive result (A : Type) : Type :=
| Ok (value : A)
| Throw (e : error).
Arguments Ok {A} value.
Arguments Throw {A} e.

(** A computation over a mutable state [S]: the state survives a throw. *)
Definition M (S A : Type) : Type := S -> result A * S.

Definition ret {S A} (a : A) : M S A := fun s => (Ok a, s).

Definition throw {S A} (e : error) : M S A := fun s => (Throw e, s).

Definition bind {S A B} (m : M S A) (k : A -> M S B) : M S B :=
  fun s =>
    match m s with
    | (Ok a, s') => k a s'
    | (Throw e, s') => (Throw e, s')
    end.

(** [try { m } catch (e) { handler(e) }]. *)
Definition try_catch {S A} (m : M S A) (handler : error -> M S A) : M S A :=
  fun s =>
    match m s with
    | (Ok a, s') => (Ok a, s')
    | (Throw e, s') => handler e s'
    end.

Definition get {S} : M S S := fun s => (Ok s, s).

Definition modify {S} (f : S -> S) : M S unit := fun s => (Ok tt, f s).

(** The value of an expression that throws [e] when it has none. *)
Definition orThrow {S A} (e : error) (o : option A) : M S A :=
  match o with
  | Some a => ret a
  | None => throw e
  end.

Notation "'let*' x ':=' m 'in' k" := (bind m (fun x => k))
  (at level 10, x pattern, m at level 100, k at level 200).
Notation "m ';;' k" := (bind m (fun _ => k))
  (at level 100, k at level 200, right associativity).

(** [for (const x of xs) { body(x) }]. *)
Fixpoint forEach {S A} (xs : list A) (body : A -> M S unit) : M S unit :=
  match xs with
  | [] => ret tt
  | x :: rest => body x ;; forEach rest body
  end.

(** A loop that carries a local variable [acc]. *)
Fixpoint foldEach {S A B} (xs : list A) (acc : B) (body : B -> A -> M S B)
    : M S B :=
  match xs with
  | [] => ret acc
  | x :: rest => let* acc' := body acc x in foldEach rest acc' body
  end.

(** [map.set(key, value)] on a [Map] kept in insertion order: a key already
    present keeps its place. *)
Fixpoint mapSet {V} (entries : list (Z * V)) (key : Z) (v : V) : list (Z * V) :=
  match entries with
  | [] => [(key, v)]
  | (k, w) :: rest =>
      if k =? key then (k, v) :: rest else (k, w) :: mapSet rest key v
  end.

(* ================================================================== *)
(** ** The external primitives *)

(** [crypto.createHash('sha256').update(data).digest()]. *)
Class Sha256 : Type := {
  sha256 : list byte -> list byte;
  sha256_length : forall data, length (sha256 data) = 32%nat
}.

(** The [elliptic] secp256k1 object [ec]: its points form a commutative
    group written additively, [ec.g] generates a subgroup of order [n].
    A scalar reaches [mul] as the hexadecimal text of a non-negative
    bigint, which [elliptic] reads back as the same number. *)
Class Curve : Type := {
  point : Type;
  ec_infinity : point;                        (* ec.curve.point(null, null) *)
  ec_g : point;                               (* ec.g *)
  pt_add : point -> point -> point;           (* P.add(Q) *)
  pt_mul : point -> Z -> point;               (* P.mul(k.toString(16)) *)
  pt_eq : point -> point -> bool;             (* P.eq(Q) *)
  pt_getX : point -> option Z;                (* P.getX(); it throws on infinity *)
  pt_encode : bool -> point -> option (list byte);
                                              (* P.encode('hex', compact), as bytes *)
  ec_decodePoint : list byte -> option point; (* ec.curve.decodePoint(hex, 'hex') *)
  ec_verify : list byte -> string -> string -> point -> bool;
                                              (* ec.verify(msgHash, {r, s}, key) *)
  pt_add_comm : forall P Q, pt_add P Q = pt_add Q P;
  pt_add_assoc : forall P Q R, pt_add P (pt_add Q R) = pt_add (pt_add P Q) R;
  pt_add_infinity_l : forall P, pt_add ec_infinity P = P;
  pt_mul_0 : forall P, pt_mul P 0 = ec_infinity;
  pt_mul_succ : forall P k, 0 <= k -> pt_mul P (k + 1) = pt_add (pt_mul P k) P;
  pt_order : forall P, pt_mul P n = ec_infinity;
  ec_g_order_min : forall k, 0 < k < n -> pt_mul ec_g k <> ec_infinity;
  pt_eq_spec : forall P Q, pt_eq P Q = true <-> P = Q;
  pt_getX_None : forall P, pt_getX P = None <-> P = ec_infinity;
  pt_getX_range : forall P x, pt_getX P = Some x -> 0 <= x;
  pt_encode_None : forall c P, pt_encode c P = None <-> P = ec_infinity;
  ec_decode_encode : forall c P b, pt_encode c P = Some b -> ec_decodePoint b = Some P
}.

Section Service.

Context `{!Sha256} `{!Curve}.

(** [P.encode('hex', compact)]; the point at infinity has no coordinates
    to encode and the call throws. *)
Definition encodeHex {S} (compact : bool) (P : point) : M S string :=
  orThrow TypeError (Hex.ofBuffer <$> pt_encode compact P).

(* ================================================================== *)
(** ** [class TSSParty] *)

Record TSSParty : Type := mkParty {
  partyId : Z;
  keyShare : Z;
  ephemeralKey : option Z;
  ephemeralCommitment : option string
}.

(** [new TSSParty(partyId, keyShare)]. *)
Definition newParty (id share : Z) : TSSParty := mkParty id share None None.

Definition set_ephemeralKey (k : Z) (p : TSSParty) : TSSParty :=
  mkParty (partyId p) (keyShare p) (Some k) (ephemeralCommitment p).

Definition set_ephemeralCommitment (c : string) (p : TSSParty) : TSSParty :=
  mkParty (partyId p) (keyShare p) (ephemeralKey p) (Some c).

(** The [keyBytes] of [generateDeterministicNonce]. *)
Definition keyBytes (share : Z) : list byte :=
  Hex.toBuffer (Hex.padStart 64 (Hex.ofBigInt share)).

(** [TSSParty.generateDeterministicNonce]. *)
Definition generateDeterministicNonce (message : list byte) : M TSSParty Z :=
  let* self := get in
  let hash := sha256 (keyBytes (keyShare self) ++ message) in
  let* h := orThrow SyntaxError (bufferToBigInt hash) in
  let nonce := Z.rem h n in
  ret (if nonce =? 0 then 1 else nonce).

(** [TSSParty.generateCommitment]: the pair (commitment, publicEphemeral). *)
Definition generateCommitment (message : list byte) : M TSSParty (string * string) :=
  let* nonce := generateDeterministicNonce message in
  modify (set_ephemeralKey nonce) ;;
  let rPoint := pt_mul ec_g nonce in
  let* rHex := encodeHex true rPoint in
  let rEncoded := Hex.ofBuffer (Hex.toBuffer rHex) in
  let commitment := Hex.ofBuffer (sha256 (Hex.toBuffer rEncoded)) in
  modify (set_ephemeralCommitment commitment) ;;
  ret (commitment, rEncoded).

(** [!this.ephemeralKey]: [null] and [0n] are both falsy. *)
Definition ephemeralKey_falsy (p : TSSParty) : bool :=
  match ephemeralKey p with
  | None => true
  | Some k => k =? 0
  end.

(** [TSSParty.createPartialSignature]: the pair (partialS, rX). *)
Definition createPartialSignature (message : list byte) (aggregatedR : point)
    : M TSSParty (Z * string) :=
  let* self := get in
  match ephemeralKey self with
  | None => throw (Error "Ephemeral key not initialized. Call generateCommitment first.")
  | Some k =>
      if k =? 0
      then throw (Error "Ephemeral key not initialized. Call generateCommitment first.")
      else
        let msgHash := sha256 message in
        let* h := orThrow SyntaxError (bufferToBigInt msgHash) in
        let e := Z.rem h n in
        let* rXBN := orThrow TypeError (pt_getX aggregatedR) in
        let* rX := orThrow SyntaxError (Hex.toBigInt (Hex.ofBigInt rXBN)) in
        let partialS := Z.rem (k + e * keyShare self) n in
        ret (partialS, Hex.padStart 64 (Hex.ofBigInt rX))
  end.

(** [TSSParty.verifyCommitment]; the empty string is falsy as [null] is. *)
Definition verifyCommitment (self : TSSParty) (decommitment : string) : bool :=
  match ephemeralCommitment self with
  | None => false
  | Some stored =>
      if String.eqb stored "" then false
      else String.eqb (Hex.ofBuffer (sha256 (Hex.toBuffer decommitment))) stored
  end.

(* ================================================================== *)
(** ** The coordinator and what surrounds it *)

(** The fields of a [TSSCoordinatorService], the secrets held by AWS
    Secrets Manager, and the two sources of nondeterminism: whether the
    store answers its [k]-th request, and the bytes [crypto.randomBytes]
    will return. *)
Record World : Type := mkWorld {
  parties : gmap Z TSSParty;
  masterPublicKey : option point;
  commitments : list point;
  secrets : gmap string string;
  answers : nat -> bool;
  requests : nat;
  entropy : nat -> byte;
  drawn : nat
}.

Definition set_parties (f : gmap Z TSSParty -> gmap Z TSSParty) (w : World) : World :=
  mkWorld (f (parties w)) (masterPublicKey w) (commitments w) (secrets w)
          (answers w) (requests w) (entropy w) (drawn w).

Definition set_keys (pk : option point) (cs : list point) (w : World) : World :=
  mkWorld (parties w) pk cs (secrets w)
          (answers w) (requests w) (entropy w) (drawn w).

Definition set_secrets (f : gmap string string -> gmap string string) (w : World) : World :=
  mkWorld (parties w) (masterPublicKey w) (commitments w) (f (secrets w))
          (answers w) (requests w) (entropy w) (drawn w).

Definition count_request (w : World) : World :=
  mkWorld (parties w) (masterPublicKey w) (commitments w) (secrets w)
          (answers w) (S (requests w)) (entropy w) (drawn w).

Definition advance_entropy (k : nat) (w : World) : World :=
  mkWorld (parties w) (masterPublicKey w) (commitments w) (secrets w)
          (answers w) (requests w) (entropy w) (drawn w + k).

(** [crypto.randomBytes(size)]. *)
Definition randomBytes (size : nat) : M World (list byte) :=
  let* w := get in
  modify (advance_entropy size) ;;
  ret (map (entropy w) (seq (drawn w) size)).

(** [secretsClient.send(new CreateSecretCommand({Name, SecretString}))]:
    create-if-absent. *)
Definition createSecret (name value : string) : M World unit :=
  let* w := get in
  modify count_request ;;
  if answers w (requests w)
  then match secrets w !! name with
       | Some _ => throw (ResourceExistsException name)
       | None => modify (set_secrets <[name := value]>)
       end
  else throw ServiceUnavailable.

(** [secretsClient.send(new GetSecretValueCommand({SecretId}))], projected
    on [SecretString]. *)
Definition getSecretValue (name : string) : M World string :=
  let* w := get in
  modify count_request ;;
  if answers w (requests w)
  then orThrow (ResourceNotFoundException name) (secrets w !! name)
  else throw ServiceUnavailable.

(** A method call on the party object stored under [id]: the object is
    shared with the map, so its mutation is seen there. *)
Definition onParty {A} (id : Z) (party : TSSParty) (m : M TSSParty A) : M World A :=
  fun w =>
    let '(r, party') := m party in
    (r, set_parties <[id := party']> w).

(* ================================================================== *)
(** ** [class FeldmanVSS] *)

(** The first loop of [generateShares]: [threshold] draws of 32 random
    bytes, each reduced modulo [n]. *)
Fixpoint drawCoefficients (threshold : nat) : M World (list Z) :=
  match threshold with
  | O => ret []
  | S rest =>
      let* bytes := randomBytes 32 in
      let* r := orThrow SyntaxError (bufferToBigInt bytes) in
      let coeff := Z.rem r n in
      let* coefficients := drawCoefficients rest in
      ret (coeff :: coefficients)
  end.

(** What [generateShares] returns. *)
Record VSS : Type := mkVSS {
  vss_masterPublicKey : option point;
  vss_shares : list (Z * Z);
  vss_commitments : list point
}.

(** The part of [generateShares] after the coefficients are drawn. With no
    coefficient, [masterSecret] is [undefined] and wiping it throws. *)
Definition sharesOfCoefficients (coefficients : list Z) (totalParties : Z)
    : M World VSS :=
  let masterSecret := head coefficients in
  let commitments := map (fun coeff => pt_mul ec_g coeff) coefficients in
  let masterPublicKey := head commitments in
  let shares :=
    map (fun x => (x, evaluatePolynomial coefficients x)) (seqZ 1 totalParties) in
  match masterSecret with
  | None => throw TypeError
  | Some _ => ret (mkVSS masterPublicKey shares commitments)
  end.

(** [FeldmanVSS.generateShares]. *)
Definition generateShares (threshold totalParties : Z) : M World VSS :=
  let* coefficients := drawCoefficients (Z.to_nat threshold) in
  sharesOfCoefficients coefficients totalParties.

(** The loop of [FeldmanVSS.verifyShare], from index [j]. *)
Fixpoint verifyShare_rhs (partyId j : Z) (commitments : list point)
    (rightSide : point) : point :=
  match commitments with
  | [] => rightSide
  | C :: rest =>
      let exponent := modPow partyId j n in
      let term := pt_mul C exponent in
      verifyShare_rhs partyId (j + 1) rest (pt_add rightSide term)
  end.

(** [FeldmanVSS.verifyShare]. *)
Definition verifyShare (partyId share : Z) (commitments : list point) : bool :=
  let leftSide := pt_mul ec_g share in
  let rightSide := verifyShare_rhs partyId 0 commitments ec_infinity in
  pt_eq leftSide rightSide.

(* ================================================================== *)
(** ** [class TSSCoordinatorService] *)

(** The name of the secret that holds a share. [shareId] is a counter of
    the loops of [performDKG] and [initializeParties], which count up from
    1 by 1: a number that prints as its decimal digits. *)
Definition secretName (walletId : string) (shareId : Z) : string :=
  "hyperliquid/tss-shares/" +:+ walletId +:+ "/share-" +:+ pretty shareId.

(** [storeKeyShare]: a failure whose message says "already exists" is
    swallowed, any other is thrown again. *)
Definition storeKeyShare (walletId : string) (shareId share : Z) : M World unit :=
  let shareHex := Hex.padStart 64 (Hex.ofBigInt share) in
  try_catch (createSecret (secretName walletId shareId) shareHex)
    (fun e => if message_includes_already_exists e then ret tt else throw e).

(** [getKeyShare]: whatever goes wrong in the [try] block, the [catch]
    block answers with 32 random bytes reduced modulo [n]. *)
Definition getKeyShare (walletId : string) (partyId : Z) : M World Z :=
  try_catch
    (let* secretString := getSecretValue (secretName walletId partyId) in
     if String.eqb secretString ""
     then throw (Error ("Share " +:+ pretty partyId +:+ " not found"))
     else orThrow SyntaxError (Hex.toBigInt secretString))
    (fun _ =>
       let* bytes := randomBytes 32 in
       let* r := orThrow SyntaxError (bufferToBigInt bytes) in
       ret (Z.rem r n)).

(** The loop of [performDKG] over the shares: verify, then store. *)
Definition storeShares (walletId : string) (vss : VSS) : M World unit :=
  forEach (vss_shares vss) (fun '(partyId, share) =>
    let isValid := verifyShare partyId share (vss_commitments vss) in
    if isValid
    then storeKeyShare walletId partyId share
    else throw (Error ("Share verification failed for party " +:+ pretty partyId))).

(** [performDKG]: the pair (publicKey, shareIds). *)
Definition performDKG (walletId : string) (threshold totalParties : Z)
    : M World (string * list Z) :=
  let* vss := generateShares threshold totalParties in
  modify (set_keys (vss_masterPublicKey vss) (vss_commitments vss)) ;;
  storeShares walletId vss ;;
  let* master := orThrow TypeError (vss_masterPublicKey vss) in
  let* encoded := encodeHex true master in
  let publicKey := "0x" +:+ Hex.ofBuffer (Hex.toBuffer encoded) in
  ret (publicKey, map fst (vss_shares vss)).

(** The body of the loop of [initializeParties]. *)
Definition initializeParty (walletId : string) (i : Z) : M World unit :=
  let* share := getKeyShare walletId i in
  modify (set_parties <[i := newParty i share]>).

(** [initializeParties]. *)
Definition initializeParties (walletId : string) (threshold totalParties : Z)
    : M World unit :=
  forEach (seqZ 1 totalParties) (initializeParty walletId).

(** What [signWithTSS] returns. *)
Record Signature : Type := mkSignature {
  sig_r : string;
  sig_s : string;
  sig_method : string
}.

(** The body of the loop of Round 1, on the local map [commitments]. *)
Definition round1_step (message : list byte)
    (commitments : list (Z * (string * string))) (partyId : Z)
    : M World (list (Z * (string * string))) :=
  let* w := get in
  let* party :=
    orThrow (Error ("Party " +:+ JsNumber.toString partyId +:+ " not initialized"))
            (parties w !! partyId) in
  let* commit := onParty partyId party (generateCommitment message) in
  ret (mapSet commitments partyId commit).

(** Round 1 of [signWithTSS]. *)
Definition round1 (message : list byte) (signingParties : list Z)
    : M World (list (Z * (string * string))) :=
  foldEach signingParties [] (round1_step message).

(** The body of the loop of Round 2, on the local [aggregatedR]. *)
Definition round2_step (aggregatedR : point) (entry : Z * (string * string))
    : M World point :=
  let '(partyId, (_, publicEphemeral)) := entry in
  let* w := get in
  let* party := orThrow TypeError (parties w !! partyId) in
  if verifyCommitment party publicEphemeral
  then
    let* rPoint :=
      orThrow (Error "Unknown point format")
              (ec_decodePoint (Hex.toBuffer publicEphemeral)) in
    ret (pt_add aggregatedR rPoint)
  else throw (Error ("Commitment verification failed for party "
                     +:+ JsNumber.toString partyId)).

(** Round 2 of [signWithTSS]: the aggregated point; reading its
    x-coordinate for the log line throws on the point at infinity. *)
Definition round2 (commitments : list (Z * (string * string))) : M World point :=
  let* aggregatedR := foldEach commitments ec_infinity round2_step in
  let* _ := orThrow TypeError (pt_getX aggregatedR) in
  ret aggregatedR.

(** The body of the loop of Round 3, on the array [partialSignatures] of
    triples (partyId, s, r). *)
Definition round3_step (message : list byte) (aggregatedR : point)
    (partialSignatures : list (Z * Z * string)) (partyId : Z)
    : M World (list (Z * Z * string)) :=
  let* w := get in
  match parties w !! partyId with
  | None => ret partialSignatures
  | Some party =>
      let* (partialS, rX) :=
        onParty partyId party (createPartialSignature message aggregatedR) in
      ret (partialSignatures ++ [(partyId, partialS, rX)])
  end.

(** Round 3 of [signWithTSS]. *)
Definition round3 (message : list byte) (signingParties : list Z)
    (aggregatedR : point) : M World (list (Z * Z * string)) :=
  foldEach signingParties [] (round3_step message aggregatedR).

(** The aggregation loop of round 4. *)
Definition aggregateS (partialSignatures : list (Z * Z * string)) : Z :=
  fold_left (fun aggregatedS '(_, s, _) => Z.rem (aggregatedS + s) n)
            partialSignatures 0.

(** Round 4 of [signWithTSS], up to its [return]. *)
Definition round4 (partialSignatures : list (Z * Z * string)) : M World Signature :=
  let aggregatedS := aggregateS partialSignatures in
  let* (_, _, finalR) := orThrow TypeError (head partialSignatures) in
  let finalS := Hex.padStart 64 (Hex.ofBigInt aggregatedS) in
  ret (mkSignature finalR finalS
         "Threshold Signatures (Feldman VSS DKG + Multi-round Protocol)").

(** [verifySignature]; an exception of [ec.verify] is caught there and
    answered [false], which [ec_verify] already includes. *)
Definition verifySignature (message : list byte) (r s : string) : M World bool :=
  let* w := get in
  match masterPublicKey w with
  | None => throw (Error "Master public key not initialized")
  | Some key => ret (ec_verify (sha256 message) r s key)
  end.

(** [signWithTSS], as it executes: the [return] that closes round 4 comes
    before the block headed "VERIFICATION", which is therefore never
    reached. *)
Definition signWithTSS (walletId : string) (message : list byte)
    (signingParties : list Z) : M World Signature :=
  let* commitments := round1 message signingParties in
  let* aggregatedR := round2 commitments in
  let* partialSignatures := round3 message signingParties aggregatedR in
  round4 partialSignatures.

(** The statements of [signWithTSS] below that [return], for a signature
    (finalR, finalS): what the function would go on to do. *)
Definition verificationBlock (message : list byte) (finalR finalS : string)
    : M World Signature :=
  let* isValid := verifySignature message finalR finalS in
  if isValid
  then ret (mkSignature finalR finalS "Production TSS (Feldman VSS + RFC 6979 nonces)")
  else throw (Error "Signature verification failed!").

End Service.

(* ================================================================== *)
(** ** The earlier coordinator

    The repository also holds the previous [TSSCoordinatorService], whose
    parties keep their share as hexadecimal text and draw every ephemeral
    key at random. Its [signWithTSS] is the one that compares the number of
    signing parties with [mpcConfig.threshold]. *)

(** [mpcConfig] of [config/mpc.config.ts]: [MPC_NODES] and
    [MPC_THRESHOLD], 3 and 2 when the environment does not set them. *)
Record MpcConfig : Type := mkMpcConfig {
  nodes : Z;
  threshold : Z
}.

Definition defaultMpcConfig : MpcConfig := mkMpcConfig 3 2.

Section Legacy.

Context `{!Sha256} `{!Curve}.

Variable mpcConfig : MpcConfig.

Record LegacyParty : Type := mkLegacyParty {
  legacy_partyId : Z;
  legacy_keyShare : string
}.

(** The state the earlier [signWithTSS] reads and writes. *)
Record LegacyWorld : Type := mkLegacyWorld {
  legacy_parties : gmap Z LegacyParty;
  legacy_entropy : nat -> byte;
  legacy_drawn : nat
}.

Definition legacy_randomBytes (size : nat) : M LegacyWorld (list byte) :=
  let* w := get in
  modify (fun w => mkLegacyWorld (legacy_parties w) (legacy_entropy w)
                                 (legacy_drawn w + size)) ;;
  ret (map (legacy_entropy w) (seq (legacy_drawn w) size)).

(** The earlier [TSSParty.generateCommitment]: the pair
    (commitment, decommitment). *)
Definition legacy_generateCommitment (message : list byte)
    : M LegacyWorld (string * string) :=
  let* k := legacy_randomBytes 32 in
  let* kBN := orThrow SyntaxError (bufferToBigInt k) in
  let kPoint := pt_mul ec_g kBN in
  let* encoded := encodeHex false kPoint in
  let commitment := Hex.ofBuffer (sha256 (Hex.toBuffer encoded)) in
  ret (commitment, Hex.ofBuffer (Hex.toBuffer encoded)).

(** The earlier [TSSParty.createPartialSignature]: the pair
    (partialSig, partialR). *)
Definition legacy_createPartialSignature (self : LegacyParty)
    (message : list byte) (ephemeralKey : string) (aggregatedCommitment : point)
    : M LegacyWorld (string * string) :=
  let msgHash := sha256 message in
  let* e := orThrow SyntaxError (bufferToBigInt msgHash) in
  let* keyShareBN := orThrow SyntaxError (Hex.toBigInt (legacy_keyShare self)) in
  let* kBN := orThrow SyntaxError (Hex.toBigInt ephemeralKey) in
  let partialS := Z.rem (kBN + e * keyShareBN) n in
  let rPoint := pt_mul ec_g kBN in
  let* partialR := encodeHex true rPoint in
  ret (Hex.padStart 64 (Hex.ofBigInt partialS), Hex.ofBuffer (Hex.toBuffer partialR)).

(** The four rounds of the earlier [signWithTSS], after its guard. *)
Definition legacy_rounds (message : list byte) (signingParties : list Z)
    : M LegacyWorld Signature :=
  let* commitments :=
    foldEach signingParties [] (fun commitments partyId =>
      let* w := get in
      let* party :=
        orThrow (Error ("Party " +:+ JsNumber.toString partyId +:+ " not initialized"))
                (legacy_parties w !! partyId) in
      let* commit := legacy_generateCommitment message in
      ret (mapSet commitments partyId commit)) in
  let* aggregatedR :=
    foldEach commitments ec_infinity (fun aggregatedR '(partyId, (_, decommitment)) =>
      let* rPoint :=
        orThrow (Error "Unknown point format")
                (ec_decodePoint (Hex.toBuffer decommitment)) in
      ret (pt_add aggregatedR rPoint)) in
  let* x := orThrow TypeError (pt_getX aggregatedR) in
  let rX := Hex.padStart 64 (Hex.ofBigInt x) in
  let* partialSignatures :=
    foldEach signingParties [] (fun partialSignatures partyId =>
      let* w := get in
      match legacy_parties w !! partyId with
      | None => ret partialSignatures
      | Some party =>
          let* bytes := legacy_randomBytes 32 in
          let ephemeralKey := Hex.ofBuffer bytes in
          let* (partialSig, _) :=
            legacy_createPartialSignature party message ephemeralKey aggregatedR in
          ret (partialSignatures ++ [(partyId, partialSig)])
      end) in
  let* aggregatedS :=
    foldEach partialSignatures 0 (fun aggregatedS '(_, sig) =>
      let* sBN := orThrow SyntaxError (Hex.toBigInt sig) in
      ret (Z.rem (aggregatedS + sBN) n)) in
  let finalS := Hex.padStart 64 (Hex.ofBigInt aggregatedS) in
  ret (mkSignature rX finalS "TSS Multi-Party ECDSA (GG20-inspired)").

(** The earlier [signWithTSS]: the guard on the number of parties, then
    the rounds. *)
Definition legacy_signWithTSS (walletId : string) (message : list byte)
    (signingParties : list Z) : M LegacyWorld Signature :=
  if Z.of_nat (length signingParties) <? threshold mpcConfig
  then throw (Error ("Need " +:+ JsNumber.toString (threshold mpcConfig)
                     +:+ " parties, got "
                     +:+ JsNumber.toString (Z.of_nat (length signingParties))))
  else legacy_rounds message signingParties.

End Legacy.

(* ================================================================== *)
(** ** The wrapper [MPCCoordinatorService]

    [mpc-coordinator.service.ts]: the service the HTTP handlers call. It
    owns one [TSSCoordinatorService], whose state is the [World] above, and
    reads the threshold and the number of nodes from [mpcConfig]. *)

(** [isMPCEnabled] of [config/mpc.config.ts]. *)
Definition isMPCEnabled (mpcConfig : MpcConfig) : bool := 2 <=? nodes mpcConfig.

(** What [generateMPCWallet] returns. *)
Record MPCWallet : Type := mkMPCWallet {
  wallet_walletId : string;
  wallet_publicKey : string;
  wallet_shareIds : list Z
}.

(** What [signWithMPC] returns. *)
Record MPCSignature : Type := mkMPCSignature {
  mpc_signature : string;
  mpc_signingMethod : string
}.

Section Wrapper.

Context `{!Sha256} `{!Curve}.

Variable mpcConfig : MpcConfig.

(** [MPCCoordinatorService.generateMPCWallet]. *)
Definition generateMPCWallet (walletId : string) : M World MPCWallet :=
  let* result := performDKG walletId (threshold mpcConfig) (nodes mpcConfig) in
  initializeParties walletId (threshold mpcConfig) (nodes mpcConfig) ;;
  ret (mkMPCWallet walletId (fst result) (snd result)).

(** [MPCCoordinatorService.signWithMPC], on the fields of its request. *)
Definition signWithMPC (walletId : string) (message : list byte)
    : M World MPCSignature :=
  let signingParties := [1; 2] in
  let* result := signWithTSS walletId message signingParties in
  let signature := "0x" +:+ sig_r result +:+ sig_s result in
  ret (mkMPCSignature signature (sig_method result)).

End Wrapper.

(* ================================================================== *)
(** ** Facts about hexadecimal text *)

Module HexFacts.
Import Hex.

Lemma value_digit (d : N) : (d < 16)%N -> value (digit d) = Some d.
Proof.
  intros Hd.
  assert (Hcases : In d (map N.of_nat (seq 0 16))).
  { apply in_map_iff. exists (N.to_nat d). split; [lia|]. apply in_seq. lia. }
  simpl in Hcases.
  repeat (destruct Hcases as [<- | Hcases]; [reflexivity|]).
  destruct Hcases.
Qed.

Lemma byte_nibbles (b : byte) :
  (Byte.to_N b / 16 < 16 /\ Byte.to_N b mod 16 < 16
   /\ 16 * (Byte.to_N b / 16) + Byte.to_N b mod 16 = Byte.to_N b)%N.
Proof.
  pose proof (Byte.to_N_bounded b) as Hb.
  split; [|split].
  - apply N.Div0.div_lt_upper_bound. lia.
  - apply N.mod_upper_bound. lia.
  - symmetry. apply N.div_mod. lia.
Qed.

Lemma parseFrom_ofBuffer (buf : list byte) (acc : N) :
  parseFrom (ofBuffer buf) acc = Some (beValue acc buf).
Proof.
  revert acc. induction buf as [|b rest IH]; intros acc; [reflexivity|].
  destruct (byte_nibbles b) as (Hh & Hl & Hsum).
  cbn [ofBuffer parseFrom beValue].
  rewrite (value_digit _ Hh), (value_digit _ Hl), IH.
  do 2 f_equal. lia.
Qed.

Lemma toBuffer_ofBuffer (buf : list byte) : toBuffer (ofBuffer buf) = buf.
Proof.
  induction buf as [|b rest IH]; [reflexivity|].
  destruct (byte_nibbles b) as (Hh & Hl & Hsum).
  cbn [ofBuffer toBuffer].
  rewrite (value_digit _ Hh), (value_digit _ Hl), Hsum, Byte.of_to_N, IH.
  reflexivity.
Qed.

Lemma value_not_space (c : ascii) (d : N) : value c = Some d -> isWhiteSpace c = false.
Proof.
  destruct c as [[] [] [] [] [] [] [] []]; vm_compute; congruence.
Qed.

(** A text of hexadecimal digits has no white space to skip. *)
Lemma trimEnd_digits (s : string) :
  forall acc v, parseFrom s acc = Some v -> trimEnd s = s.
Proof.
  induction s as [|c rest IH]; intros acc v Hparse; [reflexivity|].
  cbn [parseFrom] in Hparse. destruct (value c) as [d|] eqn:Hc; [|discriminate].
  cbn [trimEnd]. rewrite (IH _ _ Hparse).
  destruct rest; [|reflexivity].
  rewrite (value_not_space c d Hc). reflexivity.
Qed.

Lemma toBigInt_digits (s : string) (v : N) :
  s <> EmptyString -> parseFrom s 0 = Some v -> toBigInt s = Some (Z.of_N v).
Proof.
  intros Hne Hparse. unfold toBigInt. rewrite (trimEnd_digits s 0%N v Hparse).
  destruct s; [congruence|]. rewrite Hparse. reflexivity.
Qed.

Lemma toBigInt_nonneg (s : string) (v : Z) : toBigInt s = Some v -> 0 <= v.
Proof.
  unfold toBigInt. destruct (trimEnd s); [discriminate|].
  destruct (parseFrom _ _); [|discriminate]. cbn. intros [= <-]. lia.
Qed.

Lemma toBigInt_ofBuffer (buf : list byte) :
  buf <> [] -> toBigInt (ofBuffer buf) = Some (Z.of_N (beValue 0 buf)).
Proof.
  intros Hne. apply toBigInt_digits; [|apply parseFrom_ofBuffer].
  destruct buf; [congruence | discriminate].
Qed.

Lemma parseFrom_ofPositive (fuel : nat) :
  forall v acc,
    (0 < v < 16 ^ N.of_nat fuel)%N ->
    parseFrom (ofPositive fuel v acc) 0 = parseFrom acc v.
Proof.
  induction fuel as [|fuel IH]; intros v acc Hv.
  - cbn in Hv. lia.
  - cbn [ofPositive].
    assert (Hd : (v mod 16 < 16)%N) by (apply N.mod_upper_bound; lia).
    pose proof (N.div_mod v 16 ltac:(lia)) as Hdm.
    destruct (N.eqb_spec (v / 16) 0) as [Hz | Hnz].
    + cbn [parseFrom]. rewrite (value_digit _ Hd). f_equal. lia.
    + rewrite IH.
      * cbn [parseFrom]. rewrite (value_digit _ Hd). f_equal. lia.
      * split; [lia|]. apply N.Div0.div_lt_upper_bound.
        rewrite Nat2N.inj_succ, N.pow_succ_r' in Hv. lia.
Qed.

Lemma ofPositive_nonempty (fuel : nat) (v : N) (acc : string) :
  ofPositive (S fuel) v acc <> EmptyString.
Proof.
  revert v acc. induction fuel as [|fuel IH]; intros v acc.
  - cbn. destruct (v / 16 =? 0)%N; discriminate.
  - change (ofPositive (S (S fuel)) v acc)
      with (if (v / 16 =? 0)%N then String (digit (v mod 16)) acc
            else ofPositive (S fuel) (v / 16)%N (String (digit (v mod 16)) acc)).
    destruct (v / 16 =? 0)%N; [discriminate | apply IH].
Qed.

Lemma size_bound (p : positive) : (N.pos p < 16 ^ N.of_nat (Pos.size_nat p))%N.
Proof.
  assert (Hlt : (N.pos p < 2 ^ N.of_nat (Pos.size_nat p))%N).
  { induction p as [p IH | p IH |]; cbn [Pos.size_nat].
    - rewrite Nat2N.inj_succ, N.pow_succ_r'. lia.
    - rewrite Nat2N.inj_succ, N.pow_succ_r'. lia.
    - cbn. lia. }
  eapply N.lt_le_trans; [exact Hlt|].
  apply N.pow_le_mono_l. lia.
Qed.

Lemma ofBigInt_nonempty (x : Z) : ofBigInt x <> EmptyString.
Proof.
  destruct x as [|p|p]; cbn [ofBigInt]; try discriminate.
  destruct (Pos.size_nat p) eqn:Hsize; [destruct p; discriminate|].
  apply ofPositive_nonempty.
Qed.

Lemma parseFrom_ofBigInt (x : Z) : 0 <= x -> parseFrom (ofBigInt x) 0 = Some (Z.to_N x).
Proof.
  intros Hx. destruct x as [|p|p]; [reflexivity| |lia].
  unfold ofBigInt.
  rewrite parseFrom_ofPositive by (split; [lia | apply size_bound]).
  reflexivity.
Qed.

(** Printing a non-negative bigint in base 16 and reading it back. *)
Lemma toBigInt_ofBigInt (x : Z) : 0 <= x -> toBigInt (ofBigInt x) = Some x.
Proof.
  intros Hx.
  rewrite (toBigInt_digits _ (Z.to_N x) (ofBigInt_nonempty x) (parseFrom_ofBigInt x Hx)).
  f_equal. lia.
Qed.

Lemma append_assoc (a b c : string) : (a +:+ b) +:+ c = a +:+ (b +:+ c).
Proof.
  induction a as [|ch a IH]; [reflexivity|].
  change (String ch ((a +:+ b) +:+ c) = String ch (a +:+ (b +:+ c))).
  rewrite IH. reflexivity.
Qed.

Lemma append_empty_r (a : string) : a +:+ "" = a.
Proof.
  induction a as [|ch a IH]; [reflexivity|].
  change (String ch (a +:+ "") = String ch a). rewrite IH. reflexivity.
Qed.

Lemma length_append (a b : string) :
  String.length (a +:+ b) = (String.length a + String.length b)%nat.
Proof.
  induction a as [|ch a IH]; [reflexivity|].
  change (S (String.length (a +:+ b)) = (S (String.length a) + String.length b)%nat).
  rewrite IH. reflexivity.
Qed.

(** The [len] low hexadecimal digits of [v], most significant first. *)
Fixpoint digits (len : nat) (v : N) : string :=
  match len with
  | O => ""
  | S len' => digits len' (v / 16) +:+ String (digit (v mod 16)) ""
  end.

(** [k] characters "0". *)
Definition zeros (k : nat) : string := String.concat "" (repeat "0"%string k).

Lemma zeros_succ (k : nat) : zeros (S k) = String "0" (zeros k).
Proof. destruct k; reflexivity. Qed.

Lemma zeros_snoc (k : nat) : zeros k +:+ "0" = String "0" (zeros k).
Proof.
  induction k as [|k IH]; [reflexivity|].
  rewrite zeros_succ.
  change (String "0" (zeros k) +:+ "0") with (String "0" (zeros k +:+ "0")).
  rewrite IH. reflexivity.
Qed.

Lemma digits_length (len : nat) (v : N) : String.length (digits len v) = len.
Proof.
  revert v. induction len as [|len IH]; intros v; cbn [digits]; [reflexivity|].
  rewrite length_append, IH. cbn. lia.
Qed.

Lemma digits_zero (len : nat) : digits len 0 = zeros len.
Proof.
  induction len as [|len IH]; [reflexivity|].
  cbn [digits]. change (0 / 16)%N with 0%N. rewrite IH.
  change (String (digit (0 mod 16)) "") with "0"%string.
  rewrite zeros_snoc, zeros_succ. reflexivity.
Qed.

(** Digits beyond the size of the number are zeros. *)
Lemma digits_pad (d : nat) :
  forall k v, (v < 16 ^ N.of_nat d)%N -> digits (k + d) v = zeros k +:+ digits d v.
Proof.
  induction d as [|d IH]; intros k v Hv.
  - cbn in Hv. assert (v = 0%N) as -> by lia.
    rewrite Nat.add_0_r, digits_zero. cbn [digits]. rewrite append_empty_r. reflexivity.
  - rewrite Nat.add_succ_r. cbn [digits]. rewrite IH, append_assoc; [reflexivity|].
    apply N.Div0.div_lt_upper_bound.
    rewrite Nat2N.inj_succ, N.pow_succ_r' in Hv. lia.
Qed.

(** What [ofPositive] prints: the digits of the number, none of them a
    leading zero. *)
Lemma ofPositive_digits (fuel : nat) :
  forall v acc,
    (0 < v < 16 ^ N.of_nat fuel)%N ->
    exists d,
      (16 ^ N.of_nat d <= 16 * v)%N /\ (v < 16 ^ N.of_nat d)%N
      /\ ofPositive fuel v acc = digits d v +:+ acc.
Proof.
  induction fuel as [|fuel IH]; intros v acc Hv.
  - cbn in Hv. lia.
  - cbn [ofPositive].
    pose proof (N.div_mod v 16 ltac:(lia)) as Hdm.
    assert (Hd : (v mod 16 < 16)%N) by (apply N.mod_upper_bound; lia).
    destruct (N.eqb_spec (v / 16) 0) as [Hz | Hnz].
    + exists 1%nat. cbn [digits append]. change (16 ^ N.of_nat 1)%N with 16%N.
      repeat split; try lia. 
    + destruct (IH (v / 16)%N (String (digit (v mod 16)) acc)) as (d & Hlo & Hhi & Hrun).
      { split; [lia|]. apply N.Div0.div_lt_upper_bound.
        rewrite Nat2N.inj_succ, N.pow_succ_r' in Hv. lia. }
      exists (S d). rewrite Nat2N.inj_succ, N.pow_succ_r'.
      split; [|split].
      * clear Hv IH Hrun. remember (16 ^ N.of_nat d)%N as P eqn:HP. clear HP.
        remember (v / 16)%N as q eqn:Hq. clear Hq.
        remember (v mod 16)%N as r eqn:Hr. clear Hr. lia.
      * clear Hv IH Hrun. remember (16 ^ N.of_nat d)%N as P eqn:HP. clear HP.
        remember (v / 16)%N as q eqn:Hq. clear Hq.
        remember (v mod 16)%N as r eqn:Hr. clear Hr. lia.
      * rewrite Hrun. cbn [digits]. rewrite append_assoc. reflexivity.
Qed.

(** A bigint below [16 ^ 64], printed and padded, is its 64 digits. *)
Lemma padStart_ofBigInt (x : Z) :
  0 <= x < 2 ^ 256 -> padStart 64 (ofBigInt x) = digits 64 (Z.to_N x).
Proof.
  intros Hx. destruct x as [|p|p]; [vm_compute; reflexivity| |lia].
  unfold ofBigInt.
  destruct (ofPositive_digits (Pos.size_nat p) (N.pos p) "") as (d & Hlo & Hhi & Hrun).
  { split; [lia | apply size_bound]. }
  rewrite Hrun, append_empty_r. unfold padStart. rewrite digits_length.
  assert (Hd : (d <= 64)%nat).
  { destruct (le_lt_dec d 64) as [Hle|Hgt]; [exact Hle | exfalso].
    assert (Hpow : (16 ^ 65 <= 16 ^ N.of_nat d)%N) by (apply N.pow_le_mono_r; lia).
    assert (Hp : (N.pos p < 2 ^ 256)%N).
    { apply N2Z.inj_lt. change (Z.of_N (2 ^ 256)) with (2 ^ 256). cbn. lia. }
    change (16 ^ 65)%N with (16 * 2 ^ 256)%N in Hpow. lia. }
  fold (zeros (64 - d)). rewrite <- digits_pad by exact Hhi.
  replace (64 - d + d)%nat with 64%nat by lia. reflexivity.
Qed.

(** Decoding an even number of digits gives the bytes of the number. *)
Lemma toBuffer_digits (len : nat) :
  forall v rest,
    toBuffer (digits (2 * len) v +:+ rest) = beBytes len v ++ toBuffer rest.
Proof.
  induction len as [|len IH]; intros v rest; [reflexivity|].
  replace (2 * S len)%nat with (S (S (2 * len))) by lia.
  cbn [digits beBytes]. rewrite !append_assoc. cbn [append].
  rewrite N.Div0.div_div. change (16 * 16)%N with 256%N.
  rewrite IH. rewrite <- app_assoc. f_equal.
  assert (Hone : forall c t, String c "" +:+ t = String c t) by reflexivity.
  rewrite !Hone. cbn [toBuffer app].
  assert (H1 : (v / 16 mod 16 < 16)%N) by (apply N.mod_upper_bound; lia).
  assert (H0 : (v mod 16 < 16)%N) by (apply N.mod_upper_bound; lia).
  rewrite (value_digit _ H1), (value_digit _ H0).
  replace (16 * (v / 16 mod 16) + v mod 16)%N with (v mod 256)%N.
  - assert (Hlt : (v mod 256 < 256)%N) by (apply N.mod_upper_bound; lia).
    destruct (Byte.of_N (v mod 256)) as [b|] eqn:Hb; [reflexivity|].
    apply Byte.of_N_None_iff in Hb. lia.
  - change 256%N with (16 * 16)%N. rewrite N.Div0.mod_mul_r. lia.
Qed.

End HexFacts.

(** How numbers print: their digits below [10^21], where zeros stand for
    the digits a double does not hold, and exponent form from there on. *)
Lemma toString_examples :
  JsNumber.toString 7 = "7"
  /\ JsNumber.toString (-12) = "-12"
  /\ JsNumber.toString (2 ^ 53) = "9007199254740992"
  /\ JsNumber.toString (2 ^ 64) = "18446744073709552000"
  /\ JsNumber.toString (10 ^ 21) = "1e+21"
  /\ JsNumber.toString (2 ^ 70) = "1.1805916207174113e+21".
Proof. repeat split; vm_compute; reflexivity. Qed.

Lemma bufferToBigInt_value (buf : list byte) :
  buf <> [] -> bufferToBigInt buf = Some (Z.of_N (Hex.beValue 0 buf)).
Proof. apply HexFacts.toBigInt_ofBuffer. Qed.

(** The [keyBytes] of a share below [2 ^ 256] are its 32 bytes, most
    significant first. *)
Lemma hexBytes_be32 (share : Z) :
  0 <= share < 2 ^ 256 ->
  Hex.toBuffer (Hex.padStart 64 (Hex.ofBigInt share))
  = Hex.beBytes 32 (Z.to_N share).
Proof.
  intros Hshare. rewrite HexFacts.padStart_ofBigInt by exact Hshare.
  rewrite <- (HexFacts.append_empty_r (HexFacts.digits 64 _)).
  rewrite (HexFacts.toBuffer_digits 32). apply app_nil_r.
Qed.

Lemma bufferToBigInt_32 (buf : list byte) :
  length buf = 32%nat -> exists v, bufferToBigInt buf = Some v /\ 0 <= v.
Proof.
  intros Hlen. exists (Z.of_N (Hex.beValue 0 buf)). split; [|lia].
  apply bufferToBigInt_value. intros ->. discriminate.
Qed.

(* ================================================================== *)
(** ** Scalar arithmetic *)

Lemma n_positive : 1 < n.
Proof. reflexivity. Qed.

Lemma rem_n_range (a : Z) : 0 <= a -> 0 <= Z.rem a n < n.
Proof.
  intros Ha. rewrite Z.rem_mod_nonneg by (pose proof n_positive; lia).
  apply Z.mod_pos_bound. pose proof n_positive. lia.
Qed.

Lemma rem_odd (p : positive) : Z.rem (Zpos p~1) 2 = 1.
Proof.
  rewrite Z.rem_mod_nonneg by lia.
  rewrite Pos2Z.inj_xI, Z.add_comm, Z.mul_comm, Z_mod_plus_full. reflexivity.
Qed.

Lemma rem_even (p : positive) : Z.rem (Zpos p~0) 2 = 0.
Proof.
  rewrite Z.rem_mod_nonneg by lia.
  rewrite Pos2Z.inj_xO, Z.mul_comm. apply Z_mod_mult.
Qed.

(** Square-and-multiply computes the power: the loop invariant. *)
Lemma modPow_loop_spec (exp : positive) :
  forall result base modulus,
    0 <= result -> 0 <= base -> 0 < modulus ->
    modPow_loop exp result base modulus = (result * base ^ Zpos exp) mod modulus.
Proof.
  induction exp as [half IH | half IH |]; intros result base modulus Hr Hb Hm.
  - cbn [modPow_loop]. rewrite rem_odd. cbn [Z.eqb Pos.eqb].
    rewrite !Z.rem_mod_nonneg by nia.
    rewrite IH by (try apply Z.mod_pos_bound; lia).
    rewrite Z.mul_mod, Z.mod_pow_l, Z.mod_mod, <- Z.mul_mod by lia.
    f_equal. rewrite Pos2Z.inj_xI, Z.pow_add_r, Z.pow_1_r, Z.pow_mul_r by lia.
    rewrite Z.pow_2_r. ring.
  - cbn [modPow_loop]. rewrite rem_even. cbn [Z.eqb].
    rewrite !Z.rem_mod_nonneg by nia.
    rewrite IH by (try apply Z.mod_pos_bound; lia).
    rewrite Z.mul_mod, Z.mod_pow_l, <- Z.mul_mod by lia.
    f_equal. rewrite Pos2Z.inj_xO, Z.pow_mul_r, Z.pow_2_r by lia. reflexivity.
  - cbn [modPow_loop]. change (Z.rem 1 2 =? 1) with true. cbn match.
    rewrite Z.rem_mod_nonneg by nia. rewrite Z.pow_1_r. reflexivity.
Qed.

(** [modPow] is modular exponentiation on non-negative arguments. *)
Lemma modPow_spec (base exp modulus : Z) :
  0 <= base -> 0 <= exp -> 1 < modulus ->
  modPow base exp modulus = base ^ exp mod modulus.
Proof.
  intros Hb He Hm. destruct exp as [|p|p]; [| |lia].
  - cbn. rewrite Z.mod_1_l by lia. reflexivity.
  - cbn [modPow]. rewrite Z.rem_mod_nonneg by lia.
    rewrite modPow_loop_spec by (try apply Z.mod_pos_bound; lia).
    rewrite Z.mul_1_l, Z.mod_pow_l. reflexivity.
Qed.

Lemma modPow_range (base exp : Z) :
  0 <= base -> 0 <= exp -> 0 <= modPow base exp n < n.
Proof.
  intros Hb He. rewrite modPow_spec by (auto using n_positive).
  apply Z.mod_pos_bound. pose proof n_positive. lia.
Qed.

(** The value of the polynomial with coefficients [cs] at [x], its first
    coefficient being the one of [x ^ j]: an integer, not reduced. *)
Fixpoint polynomial (cs : list Z) (x j : Z) : Z :=
  match cs with
  | [] => 0
  | c :: rest => c * x ^ j + polynomial rest x (j + 1)
  end.

Lemma polynomial_nonneg (cs : list Z) (x j : Z) :
  Forall (fun c => 0 <= c) cs -> 0 <= x -> 0 <= j -> 0 <= polynomial cs x j.
Proof.
  intros Hcs Hx. revert j. induction Hcs as [|c rest Hc _ IH]; intros j Hj; cbn; [lia|].
  specialize (IH (j + 1) ltac:(lia)).
  assert (0 <= x ^ j) by (apply Z.pow_nonneg; lia). nia.
Qed.

Lemma evaluatePolynomial_from_spec (cs : list Z) (x : Z) :
  Forall (fun c => 0 <= c) cs -> 0 <= x ->
  forall j result, 0 <= j -> 0 <= result < n ->
    evaluatePolynomial_from j cs x result = (result + polynomial cs x j) mod n.
Proof.
  intros Hcs Hx. pose proof n_positive as Hn.
  induction Hcs as [|c rest Hc Hrest IH]; intros j result Hj Hr;
    cbn [evaluatePolynomial_from polynomial].
  - rewrite Z.add_0_r, Z.mod_small by lia. reflexivity.
  - pose proof (modPow_range x j Hx Hj) as Hpow.
    assert (Hterm : 0 <= c * modPow x j n) by nia.
    pose proof (rem_n_range _ Hterm) as Hrem.
    rewrite IH by (try apply rem_n_range; lia).
    rewrite !Z.rem_mod_nonneg by lia.
    rewrite modPow_spec by lia.
    rewrite Z.mul_mod_idemp_r, Z.add_mod_idemp_r by lia.
    rewrite Z.add_mod_idemp_l by lia.
    f_equal. ring.
Qed.

Lemma evaluatePolynomial_spec (cs : list Z) (x : Z) :
  Forall (fun c => 0 <= c) cs -> 0 <= x ->
  evaluatePolynomial cs x = polynomial cs x 0 mod n.
Proof.
  intros Hcs Hx. unfold evaluatePolynomial.
  rewrite evaluatePolynomial_from_spec by (auto; pose proof n_positive; lia).
  reflexivity.
Qed.

(* ================================================================== *)
(** ** The group of the curve *)

Section CurveFacts.

Context `{!Curve}.

Lemma pt_add_infinity_r (P : point) : pt_add P ec_infinity = P.
Proof. rewrite pt_add_comm. apply pt_add_infinity_l. Qed.

Lemma pt_mul_add (P : point) (a b : Z) :
  0 <= a -> 0 <= b -> pt_mul P (a + b) = pt_add (pt_mul P a) (pt_mul P b).
Proof.
  intros Ha Hb. revert b Hb. apply natlike_ind.
  - rewrite Z.add_0_r, pt_mul_0, pt_add_infinity_r. reflexivity.
  - intros b Hb IH. unfold Z.succ.
    rewrite Z.add_assoc, !pt_mul_succ, IH, pt_add_assoc by lia. reflexivity.
Qed.

Lemma pt_mul_infinity (k : Z) : 0 <= k -> pt_mul ec_infinity k = ec_infinity.
Proof.
  revert k. apply natlike_ind.
  - apply pt_mul_0.
  - intros k Hk IH. unfold Z.succ.
    rewrite pt_mul_succ, IH, pt_add_infinity_l by lia. reflexivity.
Qed.

Lemma pt_mul_1 (P : point) : pt_mul P 1 = P.
Proof.
  change 1 with (0 + 1). rewrite pt_mul_succ, pt_mul_0, pt_add_infinity_l by lia.
  reflexivity.
Qed.

Lemma pt_mul_mul (P : point) (a b : Z) :
  0 <= a -> 0 <= b -> pt_mul (pt_mul P a) b = pt_mul P (a * b).
Proof.
  intros Ha Hb. revert b Hb. apply natlike_ind.
  - rewrite Z.mul_0_r, !pt_mul_0. reflexivity.
  - intros b Hb IH. unfold Z.succ.
    rewrite pt_mul_succ, IH, Z.mul_add_distr_l, Z.mul_1_r, pt_mul_add by nia.
    reflexivity.
Qed.

(** A scalar acts through its residue modulo the group order. *)
Lemma pt_mul_mod (P : point) (a : Z) : 0 <= a -> pt_mul P (a mod n) = pt_mul P a.
Proof.
  intros Ha. pose proof n_positive as Hn.
  rewrite (Z.div_mod a n) at 2 by lia.
  assert (0 <= a / n) by (apply Z.div_pos; lia).
  assert (0 <= a mod n) by (apply Z.mod_pos_bound; lia).
  rewrite pt_mul_add, <- pt_mul_mul, pt_order, pt_mul_infinity, pt_add_infinity_l
    by nia.
  reflexivity.
Qed.

(** The right-hand side of Feldman's equation as the specification writes
    it, the sum of [C_j * p^j], the first commitment standing at power [j]. *)
Fixpoint feldmanSum (p : Z) (commitments : list point) (j : Z) : point :=
  match commitments with
  | [] => ec_infinity
  | C :: rest => pt_add (pt_mul C (p ^ j)) (feldmanSum p rest (j + 1))
  end.

(** The loop of [verifyShare] computes that sum. *)
Lemma verifyShare_rhs_spec (partyId : Z) (cs : list point) :
  0 <= partyId ->
  forall j acc, 0 <= j ->
    verifyShare_rhs partyId j cs acc = pt_add acc (feldmanSum partyId cs j).
Proof.
  intros Hp. pose proof n_positive as Hn.
  induction cs as [|C rest IH]; intros j acc Hj; cbn [verifyShare_rhs feldmanSum].
  - rewrite pt_add_infinity_r. reflexivity.
  - rewrite IH by lia. rewrite modPow_spec by lia.
    rewrite pt_mul_mod by (apply Z.pow_nonneg; lia).
    rewrite pt_add_assoc. reflexivity.
Qed.

(** The sum over commitments [a_j * G] is the polynomial times [G]. *)
Lemma feldmanSum_commitments (p : Z) (coefficients : list Z) :
  0 <= p -> Forall (fun c => 0 <= c) coefficients ->
  forall j, 0 <= j ->
    feldmanSum p (map (fun coeff => pt_mul ec_g coeff) coefficients) j
    = pt_mul ec_g (polynomial coefficients p j).
Proof.
  intros Hp Hcs. induction Hcs as [|c rest Hc Hrest IH]; intros j Hj;
    cbn [map feldmanSum polynomial].
  - rewrite pt_mul_0. reflexivity.
  - assert (0 <= p ^ j) by (apply Z.pow_nonneg; lia).
    pose proof (polynomial_nonneg rest p (j + 1) Hrest Hp ltac:(lia)).
    rewrite IH, pt_mul_mul, pt_mul_add by nia. reflexivity.
Qed.

End CurveFacts.

(* ================================================================== *)
(** ** Feldman's verifiable secret sharing *)

(** Unfolding of the monad, for goals that run a computation. *)
Ltac run_monad :=
  cbv beta iota delta [bind ret throw get modify orThrow try_catch] in *.

Section FeldmanFacts.

Context `{!Sha256} `{!Curve}.

Lemma advance_entropy_0 (w : World) : advance_entropy 0 w = w.
Proof. destruct w. unfold advance_entropy. cbn. f_equal. lia. Qed.

Lemma advance_entropy_twice (a b : nat) (w : World) :
  advance_entropy b (advance_entropy a w) = advance_entropy (a + b) w.
Proof. unfold advance_entropy. cbn. f_equal. lia. Qed.

Lemma randomBytes_run (size : nat) (w : World) :
  randomBytes size w
  = (Ok (map (entropy w) (seq (drawn w) size)), advance_entropy size w).
Proof. reflexivity. Qed.

(** The scalar that 32 bytes of entropy from position [pos] make. *)
Definition scalarAt (source : nat -> byte) (pos : nat) : Z :=
  Z.rem (Z.of_N (Hex.beValue 0 (map source (seq pos 32)))) n.

(** The coefficients that [threshold] draws produce. *)
Definition coefficientsAt (w : World) (threshold : nat) : list Z :=
  map (fun i => scalarAt (entropy w) (drawn w + 32 * i)) (seq 0 threshold).

Lemma scalarAt_range (source : nat -> byte) (pos : nat) :
  0 <= scalarAt source pos < n.
Proof. apply rem_n_range. lia. Qed.

Lemma coefficientsAt_range (w : World) (threshold : nat) :
  Forall (fun c => 0 <= c < n) (coefficientsAt w threshold).
Proof.
  apply Forall_forall. intros c Hc.
  apply list_elem_of_In, in_map_iff in Hc as (i & <- & _). apply scalarAt_range.
Qed.

Lemma bufferToBigInt_entropy (source : nat -> byte) (pos : nat) :
  bufferToBigInt (map source (seq pos 32))
  = Some (Z.of_N (Hex.beValue 0 (map source (seq pos 32)))).
Proof. apply bufferToBigInt_value. discriminate. Qed.

(** The drawing loop never throws. *)
Lemma drawCoefficients_run (threshold : nat) :
  forall w,
    drawCoefficients threshold w
    = (Ok (coefficientsAt w threshold), advance_entropy (32 * threshold) w).
Proof.
  induction threshold as [|t IH]; intros w.
  - cbn. rewrite advance_entropy_0. reflexivity.
  - cbn [drawCoefficients]. unfold bind at 1. rewrite randomBytes_run.
    unfold bind at 1. rewrite bufferToBigInt_entropy. cbn [orThrow ret].
    unfold bind at 1. rewrite IH, advance_entropy_twice.
    replace (32 + 32 * t)%nat with (32 * S t)%nat by lia.
    unfold ret. f_equal. f_equal. unfold coefficientsAt.
    change (seq 0 (S t)) with (0%nat :: seq 1 t). rewrite map_cons. f_equal.
    + unfold scalarAt. replace (drawn w + 32 * 0)%nat with (drawn w) by lia. reflexivity.
    + rewrite <- seq_shift, map_map. apply map_ext. intros i.
      unfold advance_entropy. cbn [entropy drawn]. f_equal. lia.
Qed.

Lemma Forall_range_nonneg (cs : list Z) :
  Forall (fun c => 0 <= c < n) cs -> Forall (fun c => 0 <= c) cs.
Proof.
  intros Hall. eapply Forall_impl; [exact Hall|]. intros c Hc. cbn in Hc. lia.
Qed.

(** [verifyShare] decides Feldman's equation. *)
Lemma verifyShare_iff (p s : Z) (cs : list point) :
  0 <= p ->
  verifyShare p s cs = true <-> pt_mul ec_g s = feldmanSum p cs 0.
Proof.
  intros Hp. unfold verifyShare.
  rewrite verifyShare_rhs_spec, pt_add_infinity_l by lia.
  apply pt_eq_spec.
Qed.

(** Every evaluation of the polynomial satisfies the equation against
    the commitments to its coefficients. *)
Lemma evaluation_satisfies_feldman (coefficients : list Z) (p : Z) :
  Forall (fun c => 0 <= c < n) coefficients -> 0 <= p ->
  pt_mul ec_g (evaluatePolynomial coefficients p)
  = feldmanSum p (map (fun coeff => pt_mul ec_g coeff) coefficients) 0.
Proof.
  intros Hcs Hp. apply Forall_range_nonneg in Hcs.
  rewrite evaluatePolynomial_spec, feldmanSum_commitments by (auto; lia).
  apply pt_mul_mod. apply polynomial_nonneg; auto; lia.
Qed.

Lemma sharesOfCoefficients_run (coefficients : list Z) (totalParties : Z) (w : World) :
  coefficients <> [] ->
  sharesOfCoefficients coefficients totalParties w
  = (Ok (mkVSS (head (map (fun coeff => pt_mul ec_g coeff) coefficients))
               (map (fun x => (x, evaluatePolynomial coefficients x))
                    (seqZ 1 totalParties))
               (map (fun coeff => pt_mul ec_g coeff) coefficients)), w).
Proof. destruct coefficients; [congruence|]. reflexivity. Qed.

(** [generateShares] returns whenever the threshold is positive. *)
Lemma generateShares_run (threshold totalParties : Z) (w : World) :
  1 <= threshold ->
  generateShares threshold totalParties w
  = (Ok (mkVSS (head (map (fun coeff => pt_mul ec_g coeff)
                          (coefficientsAt w (Z.to_nat threshold))))
               (map (fun x => (x, evaluatePolynomial
                                    (coefficientsAt w (Z.to_nat threshold)) x))
                    (seqZ 1 totalParties))
               (map (fun coeff => pt_mul ec_g coeff)
                    (coefficientsAt w (Z.to_nat threshold)))),
     advance_entropy (32 * Z.to_nat threshold) w).
Proof.
  intros Ht. unfold generateShares, bind.
  rewrite drawCoefficients_run. apply sharesOfCoefficients_run.
  intros Hnil. apply (f_equal (@length Z)) in Hnil.
  unfold coefficientsAt in Hnil. rewrite length_map, length_seq in Hnil. cbn in Hnil. lia.
Qed.

(** With no threshold there is no master secret to wipe, and the call
    throws. *)
Lemma generateShares_throws (threshold totalParties : Z) (w : World) :
  threshold <= 0 ->
  generateShares threshold totalParties w = (Throw TypeError, w).
Proof.
  intros Ht. unfold generateShares, bind. rewrite drawCoefficients_run.
  replace (Z.to_nat threshold) with 0%nat by lia.
  cbn. rewrite advance_entropy_0. reflexivity.
Qed.

End FeldmanFacts.

(* ================================================================== *)
(** ** A model of the primitives

    The points of secp256k1 form a cyclic group of prime order [n], so the
    group is the integers modulo [n] with the generator at 1: a point is
    represented by its discrete logarithm. The coordinate of a point and
    the digest of a message are stand-ins that can be followed by hand:
    the x-coordinate of a point is its logarithm, and the digest of a
    buffer is its last 32 bytes (zero-padded on the left). The model serves
    to run the code on concrete inputs. *)

Module Model.
Import Hex.

Lemma beBytes_length (len : nat) (v : N) : length (beBytes len v) = len.
Proof.
  revert v. induction len as [|len IH]; intros v; cbn [beBytes]; [reflexivity|].
  rewrite length_app, IH. cbn. lia.
Qed.

Lemma beValue_app (l1 l2 : list byte) (acc : N) :
  beValue acc (l1 ++ l2) = beValue (beValue acc l1) l2.
Proof. revert acc. induction l1 as [|b l1 IH]; intros acc; cbn; auto. Qed.

Lemma beValue_beBytes (len : nat) :
  forall v acc,
    beValue acc (beBytes len v) = (acc * 256 ^ N.of_nat len + v mod 256 ^ N.of_nat len)%N.
Proof.
  induction len as [|len IH]; intros v acc.
  - cbn [beBytes beValue]. cbn. rewrite N.mod_1_r. lia.
  - cbn [beBytes]. rewrite beValue_app, IH. cbn [beValue].
    assert (Hlt : (v mod 256 < 256)%N) by (apply N.mod_upper_bound; lia).
    destruct (Byte.of_N (v mod 256)) as [b|] eqn:Hb.
    + apply Byte.to_of_N in Hb. rewrite Hb.
      rewrite Nat2N.inj_succ, N.pow_succ_r'.
      rewrite (N.Div0.mod_mul_r v 256 (256 ^ N.of_nat len)). lia.
    + apply Byte.of_N_None_iff in Hb. lia.
Qed.

Lemma beValue_be32 (v : N) :
  (v < 2 ^ 256)%N -> beValue 0 (beBytes 32 v) = v.
Proof.
  intros Hv. rewrite beValue_beBytes.
  change (256 ^ N.of_nat 32)%N with (2 ^ 256)%N.
  rewrite N.mod_small by exact Hv. lia.
Qed.

(** The stand-in for SHA-256. *)
Definition digest (data : list byte) : list byte :=
  beBytes 32 (beValue 0 data).

#[global] Instance model_sha256 : Sha256 :=
  {| sha256 := digest; sha256_length := fun data => beBytes_length 32 _ |}.

Definition mul (P : Zmod n) (k : Z) : Zmod n := Zmod.mul P (Zmod.of_Z n k).

Definition getX (P : Zmod n) : option Z :=
  if Zmod.eqb P Zmod.zero then None else Some (Zmod.to_Z P).

Definition be32 (P : Zmod n) : list byte := beBytes 32 (Z.to_N (Zmod.to_Z P)).

Definition encode (compact : bool) (P : Zmod n) : option (list byte) :=
  if Zmod.eqb P Zmod.zero then None
  else Some (if compact then x02 :: be32 P else x04 :: be32 P ++ be32 P).

Definition decodePoint (bytes : list byte) : option (Zmod n) :=
  match bytes with
  | [] => None
  | tag :: rest =>
      let v := Z.of_N (beValue 0 (firstn 32 rest)) in
      if (Byte.eqb tag x02 && (length rest =? 32)%nat
          || Byte.eqb tag x04 && (length rest =? 64)%nat)
         && (0 <? v) && (v <? n)
      then Some (Zmod.of_Z n v)
      else None
  end.

(** ECDSA verification as [elliptic] performs it, on the model group. *)
Definition verify (msgHash : list byte) (r s : string) (key : Zmod n) : bool :=
  match Hex.parseFrom r 0, Hex.parseFrom s 0 with
  | Some rN, Some sN =>
      let r := Z.of_N rN in
      let s := Z.of_N sN in
      let e := Z.of_N (beValue 0 msgHash) in
      let e := if e <? n then e else e - n in
      if (r <? 1) || (n <=? r) || (s <? 1) || (n <=? s) then false
      else
        let sinv := modPow s (n - 2) n in
        let u1 := (sinv * e) mod n in
        let u2 := (sinv * r) mod n in
        let p := Zmod.add (mul Zmod.one u1) (mul key u2) in
        match getX p with
        | None => false
        | Some x => x mod n =? r
        end
  | _, _ => false
  end.

Lemma mul_0 (P : Zmod n) : mul P 0 = Zmod.zero.
Proof.
  unfold mul. apply Zmod.unsigned_inj.
  rewrite Zmod.unsigned_mul, Zmod.unsigned_of_Z, Zmod.unsigned_0.
  rewrite Z.mod_0_l by discriminate. rewrite Z.mul_0_r. reflexivity.
Qed.

Lemma mul_succ (P : Zmod n) (k : Z) :
  0 <= k -> mul P (k + 1) = Zmod.add (mul P k) P.
Proof.
  intros _. unfold mul.
  rewrite Zmod.of_Z_add, Zmod.of_Z_1, Zmod.mul_comm, Zmod.mul_add_l, Zmod.mul_1_l.
  rewrite (Zmod.mul_comm P). reflexivity.
Qed.

Lemma mul_order (P : Zmod n) : mul P n = Zmod.zero.
Proof.
  rewrite <- (mul_0 P). unfold mul. f_equal.
Qed.

Lemma g_order_min (k : Z) : 0 < k < n -> mul Zmod.one k <> Zmod.zero.
Proof.
  intros Hk. unfold mul. rewrite Zmod.mul_1_l.
  apply Zmod.of_Z_nz. rewrite Z.mod_small by lia. lia.
Qed.

Lemma getX_None (P : Zmod n) : getX P = None <-> P = Zmod.zero.
Proof.
  unfold getX. destruct (Zmod.eqb_spec P Zmod.zero) as [Heq | Hne].
  - tauto.
  - split; [discriminate | contradiction].
Qed.

Lemma getX_range (P : Zmod n) (x : Z) : getX P = Some x -> 0 <= x.
Proof.
  unfold getX. destruct (Zmod.eqb P Zmod.zero); [discriminate|].
  intros [= <-]. apply Zmod.unsigned_pos_bound. reflexivity.
Qed.

Lemma encode_None (compact : bool) (P : Zmod n) :
  encode compact P = None <-> P = Zmod.zero.
Proof.
  unfold encode. destruct (Zmod.eqb_spec P Zmod.zero) as [Heq | Hne].
  - tauto.
  - split; [discriminate | contradiction].
Qed.

Lemma decode_encode (compact : bool) (P : Zmod n) (bytes : list byte) :
  encode compact P = Some bytes -> decodePoint bytes = Some P.
Proof.
  unfold encode. destruct (Zmod.eqb_spec P Zmod.zero) as [Heq | Hne]; [discriminate|].
  intros Henc. apply (inj Some) in Henc. subst bytes.
  pose proof (Zmod.unsigned_pos_bound P eq_refl) as Hrange.
  assert (Hnz : Zmod.to_Z P <> 0) by (intros H0; apply Hne, Zmod.unsigned_inj; exact H0).
  assert (Hval : Z.of_N (beValue 0 (be32 P)) = Zmod.to_Z P).
  { unfold be32. rewrite beValue_be32; [lia|].
    assert (n < 2 ^ 256) by reflexivity.
    apply N2Z.inj_lt. rewrite Z2N.id by lia.
    change (Z.of_N (2 ^ 256)) with (2 ^ 256). lia. }
  assert (Hlen : length (be32 P) = 32%nat) by apply beBytes_length.
  destruct compact; unfold decodePoint.
  - rewrite firstn_all2 by lia. rewrite Hval, Hlen.
    replace (0 <? Zmod.to_Z P) with true by (symmetry; apply Z.ltb_lt; lia).
    replace (Zmod.to_Z P <? n) with true by (symmetry; apply Z.ltb_lt; lia).
    change (Byte.eqb "002" "002") with true.
    rewrite Nat.eqb_refl. cbn [andb orb].
    rewrite Zmod.of_Z_unsigned. reflexivity.
  - rewrite firstn_app, Hlen, Nat.sub_diag, firstn_O, app_nil_r.
    rewrite firstn_all2 by lia.
    rewrite Hval, length_app, Hlen.
    replace (0 <? Zmod.to_Z P) with true by (symmetry; apply Z.ltb_lt; lia).
    replace (Zmod.to_Z P <? n) with true by (symmetry; apply Z.ltb_lt; lia).
    change (Byte.eqb "004" "002") with false.
    change (Byte.eqb "004" "004") with true.
    change (32 + 32 =? 64)%nat with true. cbn [andb orb].
    rewrite Zmod.of_Z_unsigned. reflexivity.
Qed.

#[global] Instance model_curve : Curve :=
  {| point := Zmod n;
     ec_infinity := Zmod.zero;
     ec_g := Zmod.one;
     pt_add := Zmod.add;
     pt_mul := mul;
     pt_eq := Zmod.eqb;
     pt_getX := getX;
     pt_encode := encode;
     ec_decodePoint := decodePoint;
     ec_verify := verify;
     pt_add_comm := @Zmod.add_comm n;
     pt_add_assoc := @Zmod.add_assoc n;
     pt_add_infinity_l := @Zmod.add_0_l n;
     pt_mul_0 := mul_0;
     pt_mul_succ := mul_succ;
     pt_order := mul_order;
     ec_g_order_min := g_order_min;
     pt_eq_spec := @Zmod.eqb_eq n;
     pt_getX_None := getX_None;
     pt_getX_range := getX_range;
     pt_encode_None := encode_None;
     ec_decode_encode := decode_encode |}.

(** A [crypto.randomBytes] that returns, 32 bytes at a time, the given
    numbers in big-endian form, and zero bytes afterwards. *)
Definition entropyOf (values : list Z) : nat -> byte :=
  fun i => nth i (flat_map (fun v => beBytes 32 (Z.to_N v)) values) x00.

(** A fresh coordinator in front of an empty, reachable store. *)
Definition fresh (values : list Z) : World :=
  mkWorld ∅ None [] ∅ (fun _ => true) 0 (entropyOf values) 0.

End Model.

(* ================================================================== *)
(** ** The party *)

Section PartyFacts.

Context `{!Sha256} `{!Curve}.

(** A digest read as a number, as [BigInt('0x' + hash.toString('hex'))]. *)
Definition hashValue (data : list byte) : Z :=
  Z.of_N (Hex.beValue 0 (sha256 data)).

Lemma bufferToBigInt_sha256 (data : list byte) :
  bufferToBigInt (sha256 data) = Some (hashValue data).
Proof.
  apply bufferToBigInt_value. intros Hnil.
  pose proof (sha256_length data) as Hlen. rewrite Hnil in Hlen. discriminate.
Qed.

Lemma hashValue_nonneg (data : list byte) : 0 <= hashValue data.
Proof. unfold hashValue. lia. Qed.

(** The ephemeral key as the specification gives it:
    [sha256(share_bytes || message) mod n], and 1 in place of 0. *)
Definition nonceOf (share : Z) (message : list byte) : Z :=
  let k := hashValue (keyBytes share ++ message) mod n in
  if k =? 0 then 1 else k.

Lemma nonceOf_range (share : Z) (message : list byte) :
  1 <= nonceOf share message < n.
Proof.
  unfold nonceOf. pose proof n_positive as Hn.
  pose proof (Z.mod_pos_bound (hashValue (keyBytes share ++ message)) n ltac:(lia)).
  destruct (Z.eqb_spec (hashValue (keyBytes share ++ message) mod n) 0); lia.
Qed.

Lemma generateDeterministicNonce_run (message : list byte) (p : TSSParty) :
  generateDeterministicNonce message p = (Ok (nonceOf (keyShare p) message), p).
Proof.
  unfold generateDeterministicNonce, nonceOf. run_monad.
  rewrite bufferToBigInt_sha256.
  rewrite Z.rem_mod_nonneg by (auto using hashValue_nonneg; reflexivity).
  reflexivity.
Qed.

(** The state of a party once Round 1 has run for [message]. *)
Definition committed (message : list byte) (p : TSSParty) : TSSParty :=
  snd (generateCommitment message p).

(** Round 1 never throws; what it returns and stores is a function of the
    share and the message alone. *)
Lemma generateCommitment_run (message : list byte) (p : TSSParty) :
  exists bytes,
    pt_encode true (pt_mul ec_g (nonceOf (keyShare p) message)) = Some bytes
    /\ generateCommitment message p
       = (Ok (Hex.ofBuffer (sha256 bytes), Hex.ofBuffer bytes),
          mkParty (partyId p) (keyShare p)
                  (Some (nonceOf (keyShare p) message))
                  (Some (Hex.ofBuffer (sha256 bytes)))).
Proof.
  destruct (pt_encode true (pt_mul ec_g (nonceOf (keyShare p) message)))
    as [bytes|] eqn:Henc.
  - exists bytes. split; [reflexivity|].
    unfold generateCommitment, encodeHex. unfold bind at 1.
    rewrite generateDeterministicNonce_run. run_monad. cbn [fst snd].
    rewrite Henc. cbn [fmap option_fmap option_map].
    rewrite !HexFacts.toBuffer_ofBuffer. reflexivity.
  - apply pt_encode_None in Henc.
    apply ec_g_order_min in Henc; [contradiction|].
    pose proof (nonceOf_range (keyShare p) message). lia.
Qed.

Lemma committed_fields (message : list byte) (p : TSSParty) :
  partyId (committed message p) = partyId p
  /\ keyShare (committed message p) = keyShare p
  /\ ephemeralKey (committed message p) = Some (nonceOf (keyShare p) message)
  /\ is_Some (ephemeralCommitment (committed message p)).
Proof.
  unfold committed.
  destruct (generateCommitment_run message p) as (bytes & _ & ->). cbn. eauto.
Qed.

Lemma committed_idempotent (message : list byte) (p : TSSParty) :
  committed message (committed message p) = committed message p.
Proof.
  unfold committed at 1 3.
  destruct (generateCommitment_run message p) as (bytes & Hb & Hrun).
  destruct (generateCommitment_run message (committed message p)) as (bytes' & Hb' & Hrun').
  destruct (committed_fields message p) as (Hid & Hshare & _ & _).
  rewrite Hrun, Hrun'. cbn [snd]. rewrite Hshare, Hid in *.
  rewrite Hb in Hb'. injection Hb' as <-. reflexivity.
Qed.

(** Round 3 reads the state of the party and leaves it as it is. *)
Lemma createPartialSignature_state (message : list byte) (R : point) (p : TSSParty) :
  snd (createPartialSignature message R p) = p.
Proof.
  unfold createPartialSignature. unfold bind at 1. cbn [get].
  destruct (ephemeralKey p) as [k|]; [|reflexivity].
  destruct (k =? 0); [reflexivity|].
  run_monad. rewrite bufferToBigInt_sha256.
  destruct (pt_getX R) as [x|]; [|reflexivity].
  destruct (Hex.toBigInt (Hex.ofBigInt x)); reflexivity.
Qed.

Lemma createPartialSignature_falsy (message : list byte) (R : point) (p : TSSParty) :
  ephemeralKey_falsy p = true ->
  createPartialSignature message R p
  = (Throw (Error "Ephemeral key not initialized. Call generateCommitment first."), p).
Proof.
  unfold ephemeralKey_falsy, createPartialSignature. unfold bind at 1. cbn [get].
  destruct (ephemeralKey p) as [k|]; [|reflexivity].
  intros ->. reflexivity.
Qed.

Lemma createPartialSignature_run (message : list byte) (R : point) (p : TSSParty)
    (k x : Z) :
  ephemeralKey p = Some k -> k <> 0 -> pt_getX R = Some x ->
  createPartialSignature message R p
  = (Ok (Z.rem (k + Z.rem (hashValue message) n * keyShare p) n,
         Hex.padStart 64 (Hex.ofBigInt x)), p).
Proof.
  intros Hk Hnz Hx.
  unfold createPartialSignature. unfold bind at 1. cbn [get].
  rewrite Hk. apply Z.eqb_neq in Hnz. rewrite Hnz.
  run_monad. rewrite bufferToBigInt_sha256, Hx.
  rewrite HexFacts.toBigInt_ofBigInt by (eapply pt_getX_range; eauto).
  reflexivity.
Qed.

End PartyFacts.

(* ================================================================== *)
(** ** Loops *)

Section LoopFacts.

Context {S A B : Type}.

(** An invariant of the loop body holds of what the loop returns. *)
Lemma foldEach_invariant (I : B -> S -> Prop) (body : B -> A -> M S B) (xs : list A) :
  (forall acc x s acc' s', In x xs -> I acc s -> body acc x s = (Ok acc', s') -> I acc' s') ->
  forall acc s acc' s',
    I acc s -> foldEach xs acc body s = (Ok acc', s') -> I acc' s'.
Proof.
  induction xs as [|x rest IH]; intros Hbody acc s acc' s' HI Hrun.
  - cbn in Hrun. injection Hrun as <- <-. exact HI.
  - cbn [foldEach] in Hrun. unfold bind in Hrun.
    destruct (body acc x s) as [[acc1|e] s1] eqn:Hstep; [|discriminate].
    eapply IH; [| |exact Hrun].
    + intros. eapply Hbody; eauto. right. assumption.
    + eapply Hbody; eauto. left. reflexivity.
Qed.

(** A body that leaves the state alone makes a loop that does. *)
Lemma foldEach_state (body : B -> A -> M S B) (xs : list A) :
  (forall acc x s, snd (body acc x s) = s) ->
  forall acc s, snd (foldEach xs acc body s) = s.
Proof.
  intros Hbody. induction xs as [|x rest IH]; intros acc s; [reflexivity|].
  cbn [foldEach]. unfold bind.
  pose proof (Hbody acc x s) as Hs.
  destruct (body acc x s) as [[acc1|e] s1]; cbn [snd] in Hs; subst s1.
  - apply IH.
  - reflexivity.
Qed.

End LoopFacts.

(* ================================================================== *)
(** ** The signing rounds *)

Section RoundFacts.

Context `{!Sha256} `{!Curve}.

Lemma set_parties_id (w : World) : set_parties (fun m => m) w = w.
Proof. destruct w. reflexivity. Qed.

Lemma set_parties_same (w : World) (id : Z) (p : TSSParty) :
  parties w !! id = Some p -> set_parties <[id := p]> w = w.
Proof.
  intros Hp. destruct w as [ps mk cs sec ans req ent dr]. unfold set_parties. cbn in *.
  rewrite insert_id by exact Hp. reflexivity.
Qed.

(** The parties after Round 1 has run for the identifiers [done]. *)
Definition commitAll (message : list byte) (done : list Z)
    (ps : gmap Z TSSParty) : gmap Z TSSParty :=
  fold_left (fun m id =>
               match m !! id with
               | Some p => <[id := committed message p]> m
               | None => m
               end) done ps.

Lemma commitAll_cons (message : list byte) (d : Z) (rest : list Z)
    (ps : gmap Z TSSParty) :
  commitAll message (d :: rest) ps
  = commitAll message rest
      match ps !! d with
      | Some p => <[d := committed message p]> ps
      | None => ps
      end.
Proof. reflexivity. Qed.

Lemma commitAll_lookup (message : list byte) (done : list Z) :
  forall ps id,
    commitAll message done ps !! id
    = if decide (id ∈ done) then committed message <$> ps !! id else ps !! id.
Proof.
  induction done as [|d rest IH]; intros ps id.
  - cbn. rewrite decide_False by apply not_elem_of_nil. reflexivity.
  - rewrite commitAll_cons, IH. destruct (ps !! d) as [p|] eqn:Hd.
    + destruct (decide (id = d)) as [->|Hne].
      * rewrite lookup_insert_eq, Hd. cbn.
        rewrite (decide_True _ _ (list_elem_of_here d rest)).
        destruct (decide (d ∈ rest)); [|reflexivity].
        cbn. rewrite committed_idempotent. reflexivity.
      * rewrite lookup_insert_ne by congruence.
        destruct (decide (id ∈ rest)) as [Hin|Hnin].
        -- rewrite decide_True by (right; exact Hin). reflexivity.
        -- rewrite decide_False; [reflexivity|].
           intros Hin. apply elem_of_cons in Hin. tauto.
    + destruct (decide (id = d)) as [->|Hne].
      * rewrite Hd. destruct (decide (d ∈ rest)), (decide (d ∈ d :: rest)); reflexivity.
      * destruct (decide (id ∈ rest)) as [Hin|Hnin].
        -- rewrite decide_True by (right; exact Hin). reflexivity.
        -- rewrite decide_False; [reflexivity|].
           intros Hin. apply elem_of_cons in Hin. tauto.
Qed.

(** What Round 1 hands to the coordinator for a party. *)
Definition commitmentOf (message : list byte) (p : TSSParty) : string * string :=
  match fst (generateCommitment message p) with
  | Ok commit => commit
  | Throw _ => (EmptyString, EmptyString)
  end.

Lemma generateCommitment_total (message : list byte) (p : TSSParty) :
  generateCommitment message p = (Ok (commitmentOf message p), committed message p).
Proof.
  unfold commitmentOf, committed.
  destruct (generateCommitment_run message p) as (bytes & _ & ->). reflexivity.
Qed.

Lemma round1_step_run (message : list byte) (cs : list (Z * (string * string)))
    (id : Z) (w : World) :
  round1_step message cs id w
  = match parties w !! id with
    | Some p => (Ok (mapSet cs id (commitmentOf message p)),
                 set_parties <[id := committed message p]> w)
    | None => (Throw (Error ("Party " +:+ JsNumber.toString id +:+ " not initialized")), w)
    end.
Proof.
  unfold round1_step, onParty. run_monad.
  destruct (parties w !! id) as [p|]; [|reflexivity].
  rewrite generateCommitment_total. reflexivity.
Qed.

(** Round 1, whatever its outcome, has committed a prefix of the signing
    parties and changed nothing else; when it returns, the prefix is the
    whole list and every signing party was initialised. *)
Lemma round1_loop (message : list byte) (ids : list Z) :
  forall cs w,
    exists done res,
      foldEach ids cs (round1_step message) w
      = (res, set_parties (commitAll message done) w)
      /\ done `prefix_of` ids
      /\ (forall cs', res = Ok cs' ->
            done = ids /\ forall id, id ∈ ids -> is_Some (parties w !! id)).
Proof.
  induction ids as [|id rest IH]; intros cs w.
  - exists [], (Ok cs). cbn. rewrite set_parties_id. split; [reflexivity|].
    split; [reflexivity|]. intros _ _. split; [reflexivity|].
    intros id Hin. inversion Hin.
  - cbn [foldEach]. unfold bind. rewrite round1_step_run.
    destruct (parties w !! id) as [p|] eqn:Hp.
    + destruct (IH (mapSet cs id (commitmentOf message p))
                   (set_parties <[id := committed message p]> w))
        as (done & res & Hrun & Hpre & Hok).
      exists (id :: done), res. rewrite Hrun.
      split; [|split].
      * unfold set_parties. cbn. rewrite Hp. reflexivity.
      * apply prefix_cons. exact Hpre.
      * intros cs' Hcs'. destruct (Hok cs' Hcs') as (-> & Hall).
        split; [reflexivity|]. intros j Hj.
        apply elem_of_cons in Hj as [->|Hj]; [eauto|].
        specialize (Hall j Hj). cbn in Hall.
        destruct (decide (j = id)) as [->|Hne]; [eauto|].
        rewrite lookup_insert_ne in Hall by congruence. exact Hall.
    + exists [], (Throw (Error ("Party " +:+ JsNumber.toString id +:+ " not initialized"))).
      cbn. rewrite set_parties_id.
      split; [reflexivity|]. split; [apply prefix_nil|]. discriminate.
Qed.

Lemma round2_step_state (R : point) (entry : Z * (string * string)) (w : World) :
  snd (round2_step R entry w) = w.
Proof.
  destruct entry as (id & c & pub). unfold round2_step. run_monad.
  destruct (parties w !! id) as [p|]; [|reflexivity].
  destruct (verifyCommitment p pub); [|reflexivity].
  destruct (ec_decodePoint (Hex.toBuffer pub)); reflexivity.
Qed.

Lemma round2_state (cs : list (Z * (string * string))) (w : World) :
  snd (round2 cs w) = w.
Proof.
  unfold round2. unfold bind at 1.
  pose proof (foldEach_state round2_step cs round2_step_state ec_infinity w) as Hs.
  destruct (foldEach cs ec_infinity round2_step w) as [[R|e] w1]; cbn [snd] in Hs; subst w1.
  - run_monad. destruct (pt_getX R); reflexivity.
  - reflexivity.
Qed.

(** Round 2 returns a point only if the point has an x-coordinate. *)
Lemma round2_getX (cs : list (Z * (string * string))) (w w' : World) (R : point) :
  round2 cs w = (Ok R, w') -> exists x, pt_getX R = Some x.
Proof.
  unfold round2. unfold bind at 1.
  destruct (foldEach cs ec_infinity round2_step w) as [[R1|e] w1]; [|discriminate].
  run_monad. destruct (pt_getX R1) as [x|] eqn:Hx; [|discriminate].
  intros [= <- _]. eauto.
Qed.

(** The partial signature of a party whose Round 1 has run. *)
Definition partialOf (message : list byte) (p : TSSParty) : Z :=
  match ephemeralKey p with
  | Some k => Z.rem (k + Z.rem (hashValue message) n * keyShare p) n
  | None => 0
  end.

Lemma round3_step_run (message : list byte) (R : point)
    (ps : list (Z * Z * string)) (id : Z) (w : World) :
  round3_step message R ps id w
  = match parties w !! id with
    | None => (Ok ps, w)
    | Some p =>
        match fst (createPartialSignature message R p) with
        | Ok (partialS, rX) => (Ok (ps ++ [(id, partialS, rX)]), w)
        | Throw e => (Throw e, w)
        end
    end.
Proof.
  unfold round3_step, onParty. run_monad.
  destruct (parties w !! id) as [p|] eqn:Hp; [|reflexivity].
  pose proof (createPartialSignature_state message R p) as Hs.
  destruct (createPartialSignature message R p) as [[[partialS rX]|e] p'];
    cbn [snd fst] in *; subst p'; rewrite (set_parties_same w id p Hp); reflexivity.
Qed.

Lemma round3_step_state (message : list byte) (R : point)
    (ps : list (Z * Z * string)) (id : Z) (w : World) :
  snd (round3_step message R ps id w) = w.
Proof.
  rewrite round3_step_run. destruct (parties w !! id) as [p|]; [|reflexivity].
  destruct (fst (createPartialSignature message R p)) as [[partialS rX]|e]; reflexivity.
Qed.

Lemma round3_state (message : list byte) (ids : list Z) (R : point) (w : World) :
  snd (round3 message ids R w) = w.
Proof. apply foldEach_state. intros. apply round3_step_state. Qed.

(** What a party returns in Round 3, when it returns. *)
Lemma createPartialSignature_Ok (message : list byte) (R : point) (p : TSSParty)
    (partialS : Z) (rX : string) :
  fst (createPartialSignature message R p) = Ok (partialS, rX) ->
  exists k x,
    ephemeralKey p = Some k /\ k <> 0 /\ pt_getX R = Some x
    /\ partialS = partialOf message p
    /\ rX = Hex.padStart 64 (Hex.ofBigInt x).
Proof.
  intros Hrun. unfold partialOf.
  destruct (ephemeralKey p) as [k|] eqn:Hk.
  - destruct (Z.eq_dec k 0) as [->|Hnz].
    + rewrite createPartialSignature_falsy in Hrun; [discriminate|].
      unfold ephemeralKey_falsy. rewrite Hk. reflexivity.
    + destruct (pt_getX R) as [x|] eqn:Hx.
      * rewrite (createPartialSignature_run message R p k x Hk Hnz Hx) in Hrun.
        injection Hrun as <- <-. exists k, x. auto.
      * exfalso. revert Hrun. unfold createPartialSignature. unfold bind at 1.
        cbn [get]. rewrite Hk. apply Z.eqb_neq in Hnz. rewrite Hnz.
        run_monad. rewrite bufferToBigInt_sha256, Hx. discriminate.
  - rewrite createPartialSignature_falsy in Hrun; [discriminate|].
    unfold ephemeralKey_falsy. rewrite Hk. reflexivity.
Qed.

(** Every partial signature of Round 3 carries the x-coordinate of the
    aggregated point, and is the one of an initialised party. *)
Lemma round3_entries (message : list byte) (ids : list Z) (R : point)
    (w w' : World) (ps : list (Z * Z * string)) :
  round3 message ids R w = (Ok ps, w') ->
  Forall (fun entry =>
            exists p x, parties w !! entry.1.1 = Some p
                        /\ pt_getX R = Some x
                        /\ entry.1.2 = partialOf message p
                        /\ entry.2 = Hex.padStart 64 (Hex.ofBigInt x)) ps.
Proof.
  intros Hrun. unfold round3 in Hrun.
  set (P := fun entry : Z * Z * string =>
              exists p x, parties w !! entry.1.1 = Some p
                          /\ pt_getX R = Some x
                          /\ entry.1.2 = partialOf message p
                          /\ entry.2 = Hex.padStart 64 (Hex.ofBigInt x)).
  assert (Hinv : w' = w /\ Forall P ps).
  { eapply (foldEach_invariant (fun acc s => s = w /\ Forall P acc));
      [| |exact Hrun].
    - intros acc id s acc' s' _ [-> Hacc] Hstep.
      pose proof (round3_step_state message R acc id w) as Hs.
      rewrite Hstep in Hs. cbn in Hs. subst s'. split; [reflexivity|].
      rewrite round3_step_run in Hstep.
      destruct (parties w !! id) as [p|] eqn:Hp.
      + destruct (fst (createPartialSignature message R p)) as [[partialS rX]|e] eqn:Hc;
          [|discriminate].
        injection Hstep as <-. apply Forall_app. split; [exact Hacc|].
        apply Forall_singleton. unfold P. cbn.
        destruct (createPartialSignature_Ok _ _ _ _ _ Hc) as (k & x & _ & _ & Hx & -> & ->).
        exists p, x. auto.
      + injection Hstep as <-. exact Hacc.
    - split; [reflexivity | constructor]. }
  exact (proj2 Hinv).
Qed.

Lemma round4_state (ps : list (Z * Z * string)) (w : World) :
  snd (round4 ps w) = w.
Proof.
  unfold round4. run_monad. destruct (head ps) as [[[id s] r]|]; reflexivity.
Qed.

(** Round 4 returns exactly when there is a first partial signature. *)
Lemma round4_run (ps : list (Z * Z * string)) (w : World) :
  round4 ps w
  = match ps with
    | [] => (Throw TypeError, w)
    | (_, _, finalR) :: _ =>
        (Ok (mkSignature finalR (Hex.padStart 64 (Hex.ofBigInt (aggregateS ps)))
               "Threshold Signatures (Feldman VSS DKG + Multi-round Protocol)"), w)
    end.
Proof. destruct ps as [|[[id s] r] rest]; reflexivity. Qed.

(** The state a session leaves behind, whatever its outcome: Round 1 has
    run for a prefix of the signing parties, and nothing was undone. *)
Lemma signWithTSS_state (walletId : string) (message : list byte) (ids : list Z)
    (w : World) :
  exists done res,
    signWithTSS walletId message ids w
    = (res, set_parties (commitAll message done) w)
    /\ done `prefix_of` ids
    /\ (forall sig, res = Ok sig ->
          done = ids /\ forall id, id ∈ ids -> is_Some (parties w !! id)).
Proof.
  unfold signWithTSS, round1.
  destruct (round1_loop message ids [] w) as (done & res1 & Hrun1 & Hpre & Hok).
  unfold bind at 1. rewrite Hrun1.
  destruct res1 as [cs|e].
  - destruct (Hok cs eq_refl) as (-> & Hall).
    set (w1 := set_parties (commitAll message ids) w).
    unfold bind at 1. pose proof (round2_state cs w1) as H2.
    destruct (round2 cs w1) as [[R|e] w2]; cbn [snd] in H2; subst w2.
    + unfold bind at 1. pose proof (round3_state message ids R w1) as H3.
      destruct (round3 message ids R w1) as [[ps|e] w3]; cbn [snd] in H3; subst w3.
      * pose proof (round4_state ps w1) as H4.
        destruct (round4 ps w1) as [res w4]; cbn [snd] in H4; subst w4.
        exists ids, res. auto.
      * exists ids, (Throw e). split; [reflexivity|]. split; [reflexivity|]. discriminate.
    + exists ids, (Throw e). split; [reflexivity|]. split; [reflexivity|]. discriminate.
  - exists done, (Throw e). split; [reflexivity|]. split; [exact Hpre|]. discriminate.
Qed.

(** The sum of the partial signatures, an integer. *)
Definition sumPartials (ps : list (Z * Z * string)) : Z :=
  fold_right (fun entry total => entry.1.2 + total) 0 ps.

Lemma aggregateS_from (ps : list (Z * Z * string)) :
  Forall (fun entry => 0 <= entry.1.2) ps ->
  forall acc, 0 <= acc ->
    fold_left (fun aggregatedS '(_, s, _) => Z.rem (aggregatedS + s) n) ps acc
    = if decide (ps = []) then acc else (acc + sumPartials ps) mod n.
Proof.
  pose proof n_positive as Hn.
  induction 1 as [|[[id s] r] rest Hs Hrest IH]; intros acc Hacc.
  { rewrite decide_True by reflexivity. reflexivity. }
  cbn [fold_left sumPartials fold_right]. cbn in Hs.
  rewrite IH by (apply rem_n_range; lia).
  destruct (decide ((id, s, r) :: rest = [])) as [Heq|_]; [discriminate|].
  rewrite Z.rem_mod_nonneg by lia.
  fold (sumPartials rest). cbn [fst snd].
  destruct (decide (rest = [])) as [->|Hne].
  - cbn. f_equal. lia.
  - rewrite Z.add_mod_idemp_l by lia. f_equal. lia.
Qed.

(** The aggregation loop adds the partial signatures modulo [n]. *)
Lemma aggregateS_sum (ps : list (Z * Z * string)) :
  Forall (fun entry => 0 <= entry.1.2) ps ->
  aggregateS ps = sumPartials ps mod n.
Proof.
  intros Hps. unfold aggregateS. rewrite aggregateS_from by (auto; lia).
  destruct (decide (ps = [])) as [->|_]; reflexivity.
Qed.

End RoundFacts.

(* ================================================================== *)
(** ** Key generation and the secret store *)

Section ForEachFacts.

Context {S A : Type}.

Lemma forEach_cons (x : A) (rest : list A) (body : A -> M S unit) (s : S) :
  forEach (x :: rest) body s
  = match body x s with
    | (Ok _, s') => forEach rest body s'
    | (Throw e, s') => (Throw e, s')
    end.
Proof. reflexivity. Qed.

(** A relation every iteration respects relates the ends of the loop. *)
Lemma forEach_preserves (R : S -> S -> Prop) (body : A -> M S unit) (xs : list A) :
  (forall s, R s s) -> (forall a b c, R a b -> R b c -> R a c) ->
  (forall x s, R s (snd (body x s))) ->
  forall s, R s (snd (forEach xs body s)).
Proof.
  intros Hrefl Htrans Hbody. induction xs as [|x rest IH]; intros s.
  - apply Hrefl.
  - rewrite forEach_cons. pose proof (Hbody x s) as Hstep.
    destruct (body x s) as [[[]|e] s1]; cbn [snd] in *.
    + eapply Htrans; [exact Hstep | apply IH].
    + exact Hstep.
Qed.

(** What no iteration throws, the loop does not throw. *)
Lemma forEach_throws (bad : error -> Prop) (body : A -> M S unit) (xs : list A) :
  (forall x s e, fst (body x s) = Throw e -> ~ bad e) ->
  forall s e, fst (forEach xs body s) = Throw e -> ~ bad e.
Proof.
  intros Hbody. induction xs as [|x rest IH]; intros s e.
  - discriminate.
  - rewrite forEach_cons. pose proof (Hbody x s) as Hstep.
    destruct (body x s) as [[[]|e1] s1]; cbn [fst] in *.
    + apply IH.
    + intros [= <-]. apply (Hstep e1 eq_refl).
Qed.

(** Iterations that return under an invariant make a loop that returns. *)
Lemma forEach_returns (I : S -> Prop) (body : A -> M S unit) (xs : list A) :
  (forall x s, In x xs -> I s -> fst (body x s) = Ok tt /\ I (snd (body x s))) ->
  forall s, I s -> fst (forEach xs body s) = Ok tt /\ I (snd (forEach xs body s)).
Proof.
  induction xs as [|x rest IH]; intros Hbody s HI.
  - split; [reflexivity | exact HI].
  - rewrite forEach_cons.
    destruct (Hbody x s (or_introl eq_refl) HI) as [Hok HI'].
    destruct (body x s) as [[[]|e] s1]; cbn [fst snd] in *; [|discriminate].
    apply IH; [|exact HI']. intros y s' Hy. apply Hbody. right. exact Hy.
Qed.

End ForEachFacts.

Section StoreFacts.

Context `{!Sha256} `{!Curve}.

(** The store after a call: it answers as before, and holds every secret
    it held, unchanged. *)
Definition grows (w w' : World) : Prop :=
  answers w' = answers w
  /\ forall name value, secrets w !! name = Some value -> secrets w' !! name = Some value.

Lemma grows_refl (w : World) : grows w w.
Proof. split; auto. Qed.

Lemma grows_trans (a b c : World) : grows a b -> grows b c -> grows a c.
Proof. intros [Ha Hs] [Ha' Hs']. split; [congruence | auto]. Qed.

Lemma createSecret_run (name value : string) (w : World) :
  createSecret name value w
  = if answers w (requests w)
    then match secrets w !! name with
         | Some _ => (Throw (ResourceExistsException name), count_request w)
         | None => (Ok tt, set_secrets <[name := value]> (count_request w))
         end
    else (Throw ServiceUnavailable, count_request w).
Proof.
  unfold createSecret. run_monad.
  destruct (answers w (requests w)); [|reflexivity].
  destruct (secrets w !! name); reflexivity.
Qed.

(** [storeKeyShare] writes a new secret, leaves an existing one as it is
    and returns in both cases; it throws only when the store fails. *)
Lemma storeKeyShare_run (walletId : string) (shareId share : Z) (w : World) :
  storeKeyShare walletId shareId share w
  = if answers w (requests w)
    then match secrets w !! secretName walletId shareId with
         | Some _ => (Ok tt, count_request w)
         | None =>
             (Ok tt, set_secrets <[secretName walletId shareId
                                    := Hex.padStart 64 (Hex.ofBigInt share)]>
                                 (count_request w))
         end
    else (Throw ServiceUnavailable, count_request w).
Proof.
  unfold storeKeyShare, try_catch. rewrite createSecret_run.
  destruct (answers w (requests w)); [|reflexivity].
  destruct (secrets w !! secretName walletId shareId); reflexivity.
Qed.

Lemma storeKeyShare_grows (walletId : string) (shareId share : Z) (w : World) :
  grows w (snd (storeKeyShare walletId shareId share w)).
Proof.
  rewrite storeKeyShare_run.
  destruct (answers w (requests w)); [|split; auto].
  destruct (secrets w !! secretName walletId shareId) eqn:Hs; [split; auto|].
  split; [reflexivity|]. intros name value Hname. cbn.
  rewrite lookup_insert_ne; [exact Hname|]. intros <-. congruence.
Qed.

Lemma storeKeyShare_no_conflict (walletId : string) (shareId share : Z) (w : World)
    (e : error) :
  fst (storeKeyShare walletId shareId share w) = Throw e ->
  ~ (exists name, e = ResourceExistsException name).
Proof.
  rewrite storeKeyShare_run.
  destruct (answers w (requests w)).
  - destruct (secrets w !! secretName walletId shareId); discriminate.
  - intros [= <-] [name Hname]. discriminate.
Qed.

Lemma storeShares_grows (walletId : string) (vss : VSS) (w : World) :
  grows w (snd (storeShares walletId vss w)).
Proof.
  unfold storeShares.
  apply forEach_preserves; [apply grows_refl | apply grows_trans |].
  intros [partyId share] s.
  destruct (verifyShare partyId share (vss_commitments vss));
    [apply storeKeyShare_grows | apply grows_refl].
Qed.

Lemma storeShares_no_conflict (walletId : string) (vss : VSS) (w : World) (e : error) :
  fst (storeShares walletId vss w) = Throw e ->
  ~ (exists name, e = ResourceExistsException name).
Proof.
  unfold storeShares.
  apply (forEach_throws (fun e => exists name, e = ResourceExistsException name)).
  intros [partyId share] s e'.
  destruct (verifyShare partyId share (vss_commitments vss)).
  - apply storeKeyShare_no_conflict.
  - intros [= <-] [name Hname]. discriminate.
Qed.

(** The shares and commitments a call of [performDKG] works with. *)
Definition dealt (w : World) (threshold totalParties : Z) : VSS :=
  let coefficients := coefficientsAt w (Z.to_nat threshold) in
  mkVSS (head (map (fun coeff => pt_mul ec_g coeff) coefficients))
        (map (fun x => (x, evaluatePolynomial coefficients x)) (seqZ 1 totalParties))
        (map (fun coeff => pt_mul ec_g coeff) coefficients).

Lemma performDKG_run (walletId : string) (threshold totalParties : Z) (w : World) :
  1 <= threshold ->
  performDKG walletId threshold totalParties w
  = let vss := dealt w threshold totalParties in
    match storeShares walletId vss
            (set_keys (vss_masterPublicKey vss) (vss_commitments vss)
                      (advance_entropy (32 * Z.to_nat threshold) w)) with
    | (Ok _, w') =>
        match vss_masterPublicKey vss ≫= pt_encode true with
        | Some bytes =>
            (Ok ("0x" +:+ Hex.ofBuffer bytes, map fst (vss_shares vss)), w')
        | None => (Throw TypeError, w')
        end
    | (Throw e, w') => (Throw e, w')
    end.
Proof.
  intros Ht. unfold performDKG. unfold bind at 1.
  rewrite (generateShares_run threshold totalParties w Ht).
  fold (dealt w threshold totalParties). cbv zeta.
  unfold bind at 1. unfold modify at 1. unfold bind at 1.
  destruct (storeShares walletId (dealt w threshold totalParties) _) as [[[]|e] w'];
    [|reflexivity].
  unfold encodeHex. run_monad.
  destruct (vss_masterPublicKey (dealt w threshold totalParties)) as [master|];
    [|reflexivity].
  cbn [mbind option_bind]. destruct (pt_encode true master) as [bytes|]; [|reflexivity].
  cbn [fmap option_fmap option_map]. rewrite HexFacts.toBuffer_ofBuffer. reflexivity.
Qed.

Lemma grows_prepare (w : World) (pk : option point) (cs : list point) (k : nat) :
  grows w (set_keys pk cs (advance_entropy k w)).
Proof. split; auto. Qed.

(** Whatever [performDKG] does, no secret already in the store changes. *)
Lemma performDKG_grows (walletId : string) (threshold totalParties : Z) (w : World) :
  grows w (snd (performDKG walletId threshold totalParties w)).
Proof.
  destruct (Z_lt_le_dec threshold 1) as [Hlt|Hge].
  - unfold performDKG, bind. rewrite generateShares_throws by lia. apply grows_refl.
  - rewrite performDKG_run by exact Hge. cbv zeta.
    pose proof (storeShares_grows walletId (dealt w threshold totalParties)
                  (set_keys (vss_masterPublicKey (dealt w threshold totalParties))
                            (vss_commitments (dealt w threshold totalParties))
                            (advance_entropy (32 * Z.to_nat threshold) w))) as Hg.
    destruct (storeShares walletId _ _) as [[[]|e] w']; cbn [snd] in Hg.
    + destruct (vss_masterPublicKey _ ≫= pt_encode true);
        (eapply grows_trans; [apply grows_prepare | exact Hg]).
    + eapply grows_trans; [apply grows_prepare | exact Hg].
Qed.

(** [performDKG] never fails with the store's "already exists". *)
Lemma performDKG_no_conflict (walletId : string) (threshold totalParties : Z)
    (w : World) (e : error) :
  fst (performDKG walletId threshold totalParties w) = Throw e ->
  ~ (exists name, e = ResourceExistsException name).
Proof.
  destruct (Z_lt_le_dec threshold 1) as [Hlt|Hge].
  - unfold performDKG, bind. rewrite generateShares_throws by lia.
    intros [= <-] [name Hname]. discriminate.
  - rewrite performDKG_run by exact Hge. cbv zeta.
    pose proof (storeShares_no_conflict walletId (dealt w threshold totalParties)
                  (set_keys (vss_masterPublicKey (dealt w threshold totalParties))
                            (vss_commitments (dealt w threshold totalParties))
                            (advance_entropy (32 * Z.to_nat threshold) w))) as Hc.
    destruct (storeShares walletId _ _) as [[[]|e'] w']; cbn [fst] in *.
    + destruct (vss_masterPublicKey _ ≫= pt_encode true); [discriminate|].
      intros [= <-] [name Hname]. discriminate.
    + intros [= <-]. apply Hc. reflexivity.
Qed.

(** Every dealt share passes [verifyShare]. *)
Lemma dealt_shares_verify (w : World) (threshold totalParties : Z) (p s : Z) :
  In (p, s) (vss_shares (dealt w threshold totalParties)) ->
  1 <= p <= totalParties
  /\ s = evaluatePolynomial (coefficientsAt w (Z.to_nat threshold)) p
  /\ pt_mul ec_g s
     = feldmanSum p (vss_commitments (dealt w threshold totalParties)) 0
  /\ verifyShare p s (vss_commitments (dealt w threshold totalParties)) = true.
Proof.
  unfold dealt. cbn [vss_shares vss_commitments]. intros Hin.
  apply in_map_iff in Hin as (x & [= <- <-] & Hx).
  apply list_elem_of_In, elem_of_seqZ in Hx.
  assert (Heq : pt_mul ec_g (evaluatePolynomial (coefficientsAt w (Z.to_nat threshold)) x)
                = feldmanSum x (map (fun coeff => pt_mul ec_g coeff)
                                    (coefficientsAt w (Z.to_nat threshold))) 0).
  { apply evaluation_satisfies_feldman; [apply coefficientsAt_range | lia]. }
  split; [lia|]. split; [reflexivity|]. split; [exact Heq|].
  apply verifyShare_iff; [lia | exact Heq].
Qed.

(** With a reachable store, a positive threshold and a master secret that
    is not zero, [performDKG] returns; the wallet id need not be new. *)
Lemma performDKG_returns (walletId : string) (threshold totalParties : Z) (w : World) :
  1 <= threshold ->
  (forall k, answers w k = true) ->
  scalarAt (entropy w) (drawn w) <> 0 ->
  exists publicKey,
    fst (performDKG walletId threshold totalParties w)
    = Ok (publicKey, seqZ 1 totalParties).
Proof.
  intros Ht Hup Hmaster. rewrite performDKG_run by exact Ht. cbv zeta.
  set (vss := dealt w threshold totalParties).
  set (w1 := set_keys _ _ _).
  destruct (forEach_returns (fun s : World => forall k, answers s k = true)
              (fun '(partyId, share) =>
                 let isValid := verifyShare partyId share (vss_commitments vss) in
                 if isValid
                 then storeKeyShare walletId partyId share
                 else throw (Error ("Share verification failed for party "
                                    +:+ pretty partyId)))
              (vss_shares vss)) with (s := w1) as [Hok _].
  { intros [p s] st Hin Hst.
    destruct (dealt_shares_verify w threshold totalParties p s Hin) as (_ & _ & _ & Hv).
    fold vss in Hv. cbv zeta. rewrite Hv, storeKeyShare_run, Hst.
    destruct (secrets st !! secretName walletId p); split; auto. }
  { exact Hup. }
  change (fst (storeShares walletId vss w1) = Ok tt) in Hok.
  destruct (storeShares walletId vss w1) as [[[]|e] w']; cbn [fst] in Hok; [|discriminate].
  assert (Hids : map fst (vss_shares vss) = seqZ 1 totalParties).
  { unfold vss, dealt. cbn [vss_shares]. rewrite map_map. cbn [fst]. apply map_id. }
  assert (Hhead : vss_masterPublicKey vss
                  = Some (pt_mul ec_g (scalarAt (entropy w) (drawn w)))).
  { unfold vss, dealt, coefficientsAt. cbn [vss_masterPublicKey].
    destruct (Z.to_nat threshold) as [|k] eqn:Hk; [lia|].
    change (seq 0 (S k)) with (0%nat :: seq 1 k). cbn [map head].
    replace (drawn w + 32 * 0)%nat with (drawn w) by lia. reflexivity. }
  rewrite Hhead. cbn [mbind option_bind].
  destruct (pt_encode true (pt_mul ec_g (scalarAt (entropy w) (drawn w))))
    as [bytes|] eqn:Henc.
  - exists ("0x" +:+ Hex.ofBuffer bytes). cbn [fst]. rewrite Hids. reflexivity.
  - apply pt_encode_None, ec_g_order_min in Henc; [contradiction|].
    pose proof (scalarAt_range (entropy w) (drawn w)). lia.
Qed.

(** The [catch] block of [getKeyShare], after the failed request. *)
Definition randomShare (w : World) : result Z * World :=
  (Ok (scalarAt (entropy w) (drawn w)), advance_entropy 32 w).

(** [getKeyShare] never throws: it returns the stored number when the
    store answers with a non-empty hexadecimal text, and a random scalar in
    every other case. *)
Lemma getKeyShare_run (walletId : string) (partyId : Z) (w : World) :
  getKeyShare walletId partyId w
  = if answers w (requests w)
    then match secrets w !! secretName walletId partyId with
         | Some secretString =>
             if String.eqb secretString ""
             then randomShare (count_request w)
             else match Hex.toBigInt secretString with
                  | Some share => (Ok share, count_request w)
                  | None => randomShare (count_request w)
                  end
         | None => randomShare (count_request w)
         end
    else randomShare (count_request w).
Proof.
  assert (Hcatch : forall w1 : World,
             (let* bytes := randomBytes 32 in
              let* r := orThrow SyntaxError (bufferToBigInt bytes) in
              ret (Z.rem r n)) w1 = randomShare w1).
  { intros w1. unfold bind at 1. rewrite randomBytes_run.
    unfold bind. rewrite bufferToBigInt_entropy.
    unfold randomShare, scalarAt, orThrow, ret. reflexivity. }
  unfold getKeyShare, try_catch, getSecretValue.
  unfold bind at 1. unfold bind at 1. cbn [get]. unfold bind at 1. cbn [modify].
  destruct (answers w (requests w)).
  - destruct (secrets w !! secretName walletId partyId) as [secretString|].
    + cbn [orThrow ret]. destruct (String.eqb secretString "").
      * cbn [throw]. apply Hcatch.
      * destruct (Hex.toBigInt secretString); cbn [orThrow ret throw];
          [reflexivity | apply Hcatch].
    + cbn [orThrow throw]. apply Hcatch.
  - cbn [throw]. apply Hcatch.
Qed.

Lemma getKeyShare_total (walletId : string) (partyId : Z) (w : World) :
  exists share, fst (getKeyShare walletId partyId w) = Ok share.
Proof.
  rewrite getKeyShare_run. unfold randomShare.
  destruct (answers w (requests w)); [|eauto].
  destruct (secrets w !! secretName walletId partyId) as [secretString|]; [|eauto].
  destruct (String.eqb secretString ""); [eauto|].
  destruct (Hex.toBigInt secretString); eauto.
Qed.

Lemma initializeParties_returns (walletId : string) (threshold totalParties : Z)
    (w : World) :
  fst (initializeParties walletId threshold totalParties w) = Ok tt.
Proof.
  unfold initializeParties.
  apply (forEach_returns (fun _ : World => True)); [|exact I].
  intros i s _ _. split; [|exact I].
  unfold initializeParty, bind. destruct (getKeyShare_total walletId i s) as [share Hshare].
  destruct (getKeyShare walletId i s) as [[share'|e] s']; cbn [fst] in Hshare;
    [reflexivity | discriminate].
Qed.

Lemma initializeParty_absent (walletId : string) (i : Z) (w : World) :
  secrets w !! secretName walletId i = None ->
  initializeParty walletId i w
  = (Ok tt, set_parties <[i := newParty i (scalarAt (entropy w) (drawn w))]>
                        (advance_entropy 32 (count_request w))).
Proof.
  intros Habsent. unfold initializeParty, bind.
  rewrite getKeyShare_run, Habsent. unfold randomShare.
  destruct (answers w (requests w)); reflexivity.
Qed.

(** With no share of the wallet in the store, the parties of the list
    [ids] are built, in order, from successive random draws. *)
Lemma initialize_from_entropy (walletId : string) (ids : list Z) :
  NoDup ids ->
  forall w,
    (forall i, i ∈ ids -> secrets w !! secretName walletId i = None) ->
    let w' := snd (forEach ids (initializeParty walletId) w) in
    secrets w' = secrets w /\ entropy w' = entropy w
    /\ drawn w' = (drawn w + 32 * length ids)%nat
    /\ (forall i, i ∉ ids -> parties w' !! i = parties w !! i)
    /\ forall j i, ids !! j = Some i ->
         parties w' !! i
         = Some (newParty i (scalarAt (entropy w) (drawn w + 32 * j))).
Proof.
  induction 1 as [|i rest Hnotin Hnodup IH]; intros w Habsent; cbv zeta.
  - cbn. repeat split; try lia; auto. intros j i Hj. discriminate.
  - rewrite forEach_cons.
    rewrite (initializeParty_absent walletId i w (Habsent i (list_elem_of_here _ _))).
    set (w1 := set_parties _ _).
    specialize (IH w1). cbv zeta in IH.
    destruct IH as (Hsec & Hent & Hdr & Hother & Hbuilt).
    { intros k Hk. apply (Habsent k). right. exact Hk. }
    rewrite Hsec, Hent, Hdr. cbn [length].
    split; [reflexivity|]. split; [reflexivity|]. split; [cbn; lia|]. split.
    + intros k Hk. apply not_elem_of_cons in Hk as [Hne Hk].
      rewrite Hother by exact Hk. cbn. apply lookup_insert_ne. congruence.
    + intros j k Hj. destruct j as [|j].
      * cbn in Hj. injection Hj as <-. rewrite Hother by exact Hnotin.
        cbn. rewrite lookup_insert_eq. do 3 f_equal. lia.
      * cbn in Hj. rewrite (Hbuilt j k Hj). cbn. do 3 f_equal. lia.
Qed.

End StoreFacts.

(* ================================================================== *)
(** ** The life of a party *)

Section PartyHistory.

Context `{!Sha256} `{!Curve}.

(** A call of a method of [TSSParty] that can touch its state. *)
Inductive call : Type :=
| GenerateCommitment (message : list byte)
| CreatePartialSignature (message : list byte) (aggregatedR : point)
| VerifyCommitment (decommitment : string).

(** The state of the party after the call, returned or thrown. *)
Definition perform (c : call) (p : TSSParty) : TSSParty :=
  match c with
  | GenerateCommitment message => snd (generateCommitment message p)
  | CreatePartialSignature message aggregatedR =>
      snd (createPartialSignature message aggregatedR p)
  | VerifyCommitment _ => p
  end.

(** The state of the party after a sequence of calls, oldest first. *)
Definition after (history : list call) (p : TSSParty) : TSSParty :=
  fold_left (fun q c => perform c q) history p.

Definition isRound1 (c : call) : bool :=
  match c with
  | GenerateCommitment _ => true
  | _ => false
  end.

(** Whether [generateCommitment] occurs in the history. *)
Definition round1Invoked (history : list call) : bool := existsb isRound1 history.

Lemma after_ephemeralKey (history : list call) :
  forall p,
    keyShare (after history p) = keyShare p
    /\ (round1Invoked history = false ->
        ephemeralKey (after history p) = ephemeralKey p)
    /\ (round1Invoked history = true ->
        exists message,
          ephemeralKey (after history p) = Some (nonceOf (keyShare p) message)).
Proof.
  induction history as [|c rest IH]; intros p.
  - cbn. split; [reflexivity|]. split; [reflexivity | discriminate].
  - change (after (c :: rest) p) with (after rest (perform c p)).
    destruct (IH (perform c p)) as (Hshare & Hnone & Hsome).
    destruct c as [message | message R | d]; cbn [round1Invoked existsb isRound1 orb perform] in *.
    + fold (committed message p) in *.
      destruct (committed_fields message p) as (_ & Hs & Hk & _).
      rewrite Hs in *. split; [exact Hshare|]. split; [discriminate|]. intros _.
      fold (round1Invoked rest) in *.
      destruct (round1Invoked rest).
      * apply Hsome. reflexivity.
      * exists message. rewrite Hnone by reflexivity. exact Hk.
    + rewrite createPartialSignature_state in *. auto.
    + auto.
Qed.

End PartyHistory.

(* ================================================================== *)
(** ** Sessions that complete *)

Section LoopsThatReturn.

Context {S A B : Type}.

(** A loop whose every iteration returns without touching the state
    returns without touching the state. *)
Lemma foldEach_total (P : A -> Prop) (body : B -> A -> M S B) (xs : list A) (s : S) :
  (forall acc x, P x -> exists acc', body acc x s = (Ok acc', s)) ->
  Forall P xs ->
  forall acc, exists acc', foldEach xs acc body s = (Ok acc', s).
Proof.
  intros Hbody Hxs. induction Hxs as [|x rest Hx _ IH]; intros acc.
  - exists acc. reflexivity.
  - cbn [foldEach]. unfold bind. destruct (Hbody acc x Hx) as [acc1 ->]. apply IH.
Qed.

End LoopsThatReturn.

Section CompleteSessions.

Context `{!Sha256} `{!Curve}.

Lemma commitmentOf_share (message : list byte) (p q : TSSParty) :
  keyShare p = keyShare q -> commitmentOf message p = commitmentOf message q.
Proof.
  intros Hshare. unfold commitmentOf.
  destruct (generateCommitment_run message p) as (bytes & Hb & ->).
  destruct (generateCommitment_run message q) as (bytes' & Hb' & ->).
  rewrite Hshare, Hb' in Hb. injection Hb as ->. reflexivity.
Qed.

Lemma ofBuffer_sha256_nonempty (data : list byte) :
  String.eqb (Hex.ofBuffer (sha256 data)) "" = false.
Proof.
  pose proof (sha256_length data) as Hlen.
  destruct (sha256 data) as [|b rest]; [discriminate | reflexivity].
Qed.

(** A party accepts its own decommitment, and the decommitment decodes to
    its ephemeral point. *)
Lemma own_commitment_verifies (message : list byte) (p : TSSParty) :
  verifyCommitment (committed message p) (snd (commitmentOf message p)) = true
  /\ ec_decodePoint (Hex.toBuffer (snd (commitmentOf message p)))
     = Some (pt_mul ec_g (nonceOf (keyShare p) message)).
Proof.
  unfold committed, commitmentOf.
  destruct (generateCommitment_run message p) as (bytes & Henc & ->).
  cbn [fst snd]. unfold verifyCommitment. cbn [ephemeralCommitment].
  rewrite ofBuffer_sha256_nonempty, HexFacts.toBuffer_ofBuffer, String.eqb_refl.
  split; [reflexivity|]. eapply ec_decode_encode. exact Henc.
Qed.

Lemma mapSet_Forall {V} (P : Z * V -> Prop) (entries : list (Z * V)) (key : Z) (v : V) :
  Forall P entries -> P (key, v) -> Forall P (mapSet entries key v).
Proof.
  intros Hall Hnew. induction Hall as [|[k u] rest Hk Hrest IH]; cbn [mapSet].
  - constructor; [exact Hnew | constructor].
  - destruct (Z.eqb_spec k key) as [->|Hne]; constructor; auto.
Qed.

(** Every entry that Round 1 leaves in its map belongs to a signing party
    and is what that party's share determines. *)
Lemma round1_entries (message : list byte) (ids : list Z) (w w' : World)
    (cs : list (Z * (string * string))) :
  round1 message ids w = (Ok cs, w') ->
  Forall (fun entry =>
            entry.1 ∈ ids
            /\ exists p, parties w !! entry.1 = Some p
                         /\ entry.2 = commitmentOf message p) cs.
Proof.
  intros Hrun. unfold round1 in Hrun.
  set (P := fun entry : Z * (string * string) =>
              entry.1 ∈ ids
              /\ exists p, parties w !! entry.1 = Some p
                           /\ entry.2 = commitmentOf message p).
  assert (Hinv : (forall id, keyShare <$> parties w' !! id = keyShare <$> parties w !! id)
                 /\ Forall P cs).
  { eapply (foldEach_invariant
              (fun acc s => (forall id, keyShare <$> parties s !! id
                                        = keyShare <$> parties w !! id)
                            /\ Forall P acc)); [| |exact Hrun].
    - intros acc id s acc' s' Hin [Hshares Hacc] Hstep.
      rewrite round1_step_run in Hstep.
      destruct (parties s !! id) as [q|] eqn:Hq; [|discriminate].
      injection Hstep as <- <-.
      pose proof (Hshares id) as Hid. rewrite Hq in Hid.
      destruct (parties w !! id) as [p|] eqn:Hp; [|discriminate].
      cbn in Hid. injection Hid as Hid. split.
      + intros j. cbn. destruct (decide (j = id)) as [->|Hne].
        * rewrite lookup_insert_eq, Hp. cbn.
          destruct (committed_fields message q) as (_ & -> & _). congruence.
        * rewrite lookup_insert_ne by congruence. apply Hshares.
      + apply mapSet_Forall; [exact Hacc|]. unfold P. cbn [fst snd].
        split; [apply list_elem_of_In; exact Hin|].
        exists p. rewrite Hp. split; [reflexivity|].
        apply commitmentOf_share. exact Hid.
    - split; [reflexivity | constructor]. }
  exact (proj2 Hinv).
Qed.

(** Once Round 1 has returned, the decommitment loop of Round 2 returns. *)
Lemma round2_loop_returns (message : list byte) (ids : list Z) (w : World)
    (cs : list (Z * (string * string))) :
  round1 message ids w = (Ok cs, set_parties (commitAll message ids) w) ->
  exists R,
    foldEach cs ec_infinity round2_step (set_parties (commitAll message ids) w)
    = (Ok R, set_parties (commitAll message ids) w).
Proof.
  intros Hrun. pose proof (round1_entries message ids w _ cs Hrun) as Hentries.
  eapply foldEach_total; [|exact Hentries].
  intros acc [id [c pub]] (Hin & p & Hp & Hcommit). cbn [fst snd] in *.
  unfold round2_step. run_monad. cbn [set_parties parties].
  rewrite commitAll_lookup, decide_True, Hp by exact Hin. cbn [fmap option_fmap option_map].
  destruct (own_commitment_verifies message p) as [Hverify Hdecode].
  rewrite <- Hcommit in Hverify, Hdecode. cbn [snd] in Hverify, Hdecode.
  rewrite Hverify, Hdecode. eauto.
Qed.

(** The partial signature of the party stored under [id]. *)
Definition partialAt (message : list byte) (w : World) (id : Z) : Z :=
  match parties w !! id with
  | Some p => partialOf message p
  | None => 0
  end.

(** With every signing party committed and an aggregated point that has
    an x-coordinate, Round 3 returns one partial signature for each entry
    of the list. *)
Lemma round3_returns (message : list byte) (R : point) (x : Z) (w : World)
    (ids : list Z) :
  pt_getX R = Some x ->
  (forall id, id ∈ ids ->
     exists p k, parties w !! id = Some p /\ ephemeralKey p = Some k /\ k <> 0) ->
  forall acc,
    foldEach ids acc (round3_step message R) w
    = (Ok (acc ++ map (fun id => (id, partialAt message w id,
                                  Hex.padStart 64 (Hex.ofBigInt x))) ids), w).
Proof.
  intros Hx. induction ids as [|id rest IH]; intros Hall acc.
  - cbn. rewrite app_nil_r. reflexivity.
  - cbn [foldEach map]. unfold bind. rewrite round3_step_run.
    destruct (Hall id (list_elem_of_here _ _)) as (p & k & Hp & Hk & Hnz).
    rewrite Hp, (createPartialSignature_run message R p k x Hk Hnz Hx). cbn [fst].
    rewrite IH by (intros j Hj; apply Hall; right; exact Hj).
    rewrite <- app_assoc. cbn [app]. unfold partialAt at 2, partialOf.
    rewrite Hp, Hk. reflexivity.
Qed.

(** A session over initialised parties, however few, fails in one way
    only: the aggregated point is the point at infinity. Otherwise it
    returns the x-coordinate of that point and the sum of the partial
    signatures. *)
Lemma signWithTSS_completes (walletId : string) (message : list byte)
    (ids : list Z) (w : World) :
  ids <> [] ->
  (forall id, id ∈ ids -> is_Some (parties w !! id)) ->
  fst (signWithTSS walletId message ids w) = Throw TypeError
  \/ exists x,
       fst (signWithTSS walletId message ids w)
       = Ok (mkSignature
               (Hex.padStart 64 (Hex.ofBigInt x))
               (Hex.padStart 64
                  (Hex.ofBigInt
                     (aggregateS
                        (map (fun id =>
                                (id,
                                 partialAt message (set_parties (commitAll message ids) w) id,
                                 Hex.padStart 64 (Hex.ofBigInt x))) ids))))
               "Threshold Signatures (Feldman VSS DKG + Multi-round Protocol)").
Proof.
  intros Hne Hall.
  destruct (round1_loop message ids [] w) as (done & res1 & Hrun1 & _ & Hok).
  assert (Hres : exists cs, res1 = Ok cs).
  { clear Hok. revert Hrun1. generalize (@nil (Z * (string * string))). revert w Hall done.
    induction ids as [|id rest IH]; intros w Hall done cs0 Hrun1.
    - cbn in Hrun1. injection Hrun1 as <- _. eauto.
    - cbn [foldEach] in Hrun1. unfold bind in Hrun1. rewrite round1_step_run in Hrun1.
      destruct (Hall id (list_elem_of_here _ _)) as [p Hp]. rewrite Hp in Hrun1.
      destruct rest as [|id' rest'].
      + cbn in Hrun1. injection Hrun1 as <- _. eauto.
      + destruct (round1_loop message (id' :: rest')
                    (mapSet cs0 id (commitmentOf message p))
                    (set_parties <[id := committed message p]> w))
          as (done' & res' & Hrun' & _ & _).
        rewrite Hrun' in Hrun1. injection Hrun1 as <- _.
        eapply (IH ltac:(discriminate)); [|exact Hrun'].
        intros j Hj. cbn. destruct (decide (j = id)) as [->|Hneq].
        * rewrite lookup_insert_eq. eauto.
        * rewrite lookup_insert_ne by congruence. apply Hall. right. exact Hj. }
  destruct Hres as [cs ->]. destruct (Hok cs eq_refl) as (-> & _).
  fold (round1 message ids w) in Hrun1.
  set (w1 := set_parties (commitAll message ids) w) in *.
  destruct (round2_loop_returns message ids w cs Hrun1) as [R HR]. fold w1 in HR.
  assert (Hround3 : forall x, pt_getX R = Some x ->
            round3 message ids R w1
            = (Ok (map (fun id => (id, partialAt message w1 id,
                                   Hex.padStart 64 (Hex.ofBigInt x))) ids), w1)).
  { intros x Hx. unfold round3.
    rewrite (round3_returns message R x w1 ids Hx); [reflexivity|].
    intros id Hin. destruct (Hall id Hin) as [p Hp].
    exists (committed message p), (nonceOf (keyShare p) message).
    destruct (committed_fields message p) as (_ & _ & Hk & _).
    split; [|split; [exact Hk|]].
    + unfold w1. cbn [set_parties parties].
      rewrite commitAll_lookup, decide_True, Hp by exact Hin. reflexivity.
    + pose proof (nonceOf_range (keyShare p) message). lia. }
  assert (Hround2 : round2 cs w1
                    = match pt_getX R with
                      | Some _ => (Ok R, w1)
                      | None => (Throw TypeError, w1)
                      end).
  { unfold round2. unfold bind at 1. rewrite HR. run_monad.
    destruct (pt_getX R); reflexivity. }
  unfold signWithTSS, bind. rewrite Hrun1, Hround2.
  destruct (pt_getX R) as [x|] eqn:Hx; [|left; reflexivity].
  right. exists x. rewrite (Hround3 x eq_refl), round4_run.
  destruct ids as [|id rest]; [congruence|]. reflexivity.
Qed.

End CompleteSessions.

(* ================================================================== *)
(** ** What a session depends on *)

Section Dependence.

Context {S : Type} (R : S -> S -> Prop).

(** A computation that cannot tell two related states apart. *)
Definition respects {A} (m : M S A) : Prop :=
  forall s s', R s s' -> fst (m s) = fst (m s') /\ R (snd (m s)) (snd (m s')).

Lemma respects_ret {A} (a : A) : respects (ret a).
Proof. intros s s' HR. split; [reflexivity | exact HR]. Qed.

Lemma respects_throw {A} (e : error) : respects (@throw S A e).
Proof. intros s s' HR. split; [reflexivity | exact HR]. Qed.

Lemma respects_orThrow {A} (e : error) (o : option A) : respects (orThrow e o).
Proof. destruct o; [apply respects_ret | apply respects_throw]. Qed.

Lemma respects_bind {A B} (m : M S A) (k : A -> M S B) :
  respects m -> (forall a, respects (k a)) -> respects (bind m k).
Proof.
  intros Hm Hk s s' HR. unfold bind. destruct (Hm s s' HR) as [Hfst Hsnd].
  destruct (m s) as [[a|e] s1], (m s') as [[a'|e'] s1']; cbn [fst snd] in *;
    try discriminate.
  - injection Hfst as <-. apply Hk. exact Hsnd.
  - injection Hfst as <-. split; [reflexivity | exact Hsnd].
Qed.

Lemma respects_foldEach {A B} (body : B -> A -> M S B) (xs : list A) :
  (forall acc x, respects (body acc x)) ->
  forall acc, respects (foldEach xs acc body).
Proof.
  intros Hbody. induction xs as [|x rest IH]; intros acc.
  - apply respects_ret.
  - cbn [foldEach]. apply respects_bind; [apply Hbody | intros acc'; apply IH].
Qed.

End Dependence.

Section SessionDependence.

Context `{!Sha256} `{!Curve}.

(** Two worlds with the same parties. *)
Definition sameParties (w w' : World) : Prop := parties w = parties w'.

Lemma round1_step_respects (message : list byte)
    (cs : list (Z * (string * string))) (id : Z) :
  respects sameParties (round1_step message cs id).
Proof.
  intros w w' HR. rewrite !round1_step_run. unfold sameParties in *. rewrite <- HR.
  destruct (parties w !! id) as [p|]; cbn [fst snd]; [|auto].
  split; [reflexivity|]. cbn. rewrite HR. reflexivity.
Qed.

Lemma round2_step_respects (R : point) (entry : Z * (string * string)) :
  respects sameParties (round2_step R entry).
Proof.
  intros w w' HR. pose proof (round2_step_state R entry w) as Hs.
  pose proof (round2_step_state R entry w') as Hs'. rewrite Hs, Hs'.
  split; [|exact HR].
  destruct entry as (id & c & pub). unfold round2_step. run_monad.
  unfold sameParties in HR. rewrite <- HR.
  destruct (parties w !! id) as [p|]; [|reflexivity].
  destruct (verifyCommitment p pub); [|reflexivity].
  destruct (ec_decodePoint (Hex.toBuffer pub)); reflexivity.
Qed.

Lemma round3_step_respects (message : list byte) (R : point)
    (ps : list (Z * Z * string)) (id : Z) :
  respects sameParties (round3_step message R ps id).
Proof.
  intros w w' HR. rewrite !round3_step_run. unfold sameParties in *. rewrite <- HR.
  destruct (parties w !! id) as [p|]; [|auto].
  destruct (fst (createPartialSignature message R p)) as [[partialS rX]|e]; auto.
Qed.

Lemma round4_respects (ps : list (Z * Z * string)) :
  respects sameParties (round4 ps).
Proof.
  intros w w' HR. rewrite !round4_run.
  destruct ps as [|[[id s] r] rest]; auto.
Qed.

(** The outcome of [signWithTSS] is a function of the parties alone: the
    master public key and the commitments of the coordinator play no part. *)
Lemma signWithTSS_respects (walletId : string) (message : list byte) (ids : list Z) :
  respects sameParties (signWithTSS walletId message ids).
Proof.
  unfold signWithTSS. apply respects_bind.
  { apply respects_foldEach. intros. apply round1_step_respects. }
  intros cs. apply respects_bind.
  { unfold round2. apply respects_bind.
    - apply respects_foldEach. intros. apply round2_step_respects.
    - intros R. apply respects_bind; [apply respects_orThrow|].
      intros _. apply respects_ret. }
  intros R. apply respects_bind.
  { apply respects_foldEach. intros. apply round3_step_respects. }
  intros ps. apply round4_respects.
Qed.

End SessionDependence.

(* ================================================================== *)
(** ** The scenario of the specification

    A 2-of-3 wallet ["w2"] dealt from the polynomial [5 + 3 x], its three
    parties initialised from the store, and a 32-byte message. The random
    source goes on with 7 and 2, then with zero bytes. *)

Module Scenario.
Import Model.

Definition message : list byte := Hex.beBytes 32 7.

Definition dealtWorld : World := snd (performDKG "w2" 2 3 (fresh [5; 3; 7; 2])).

Definition readyWorld : World := snd (initializeParties "w2" 2 3 dealtWorld).

End Scenario.

(* ================================================================== *)
(** ** Properties of the specification *)

(** C2. For a threshold of at least 1, [generateShares] returns one share
    for each party 1..n_parties; every share [(p, s)] satisfies Feldman's
    equation [s * G = sum_j C_j * p^j] against the returned commitments,
    and [verifyShare] answers [true] exactly when that equation holds. *)
Theorem generateShares_satisfy_feldman `{!Sha256} `{!Curve}
    (threshold totalParties : Z) (w : World) :
  1 <= threshold ->
  exists vss w',
    generateShares threshold totalParties w = (Ok vss, w')
    /\ length (vss_commitments vss) = Z.to_nat threshold
    /\ map fst (vss_shares vss) = seqZ 1 totalParties
    /\ (forall p s, In (p, s) (vss_shares vss) ->
          pt_mul ec_g s = feldmanSum p (vss_commitments vss) 0
          /\ verifyShare p s (vss_commitments vss) = true)
    /\ (forall p s commitments, 0 <= p ->
          verifyShare p s commitments = true
          <-> pt_mul ec_g s = feldmanSum p commitments 0).
Proof.
  intros Ht. rewrite generateShares_run by exact Ht.
  fold (dealt w threshold totalParties).
  exists (dealt w threshold totalParties), (advance_entropy (32 * Z.to_nat threshold) w).
  split; [reflexivity|]. split; [|split; [|split]].
  - unfold dealt, coefficientsAt. cbn [vss_commitments].
    rewrite !length_map, length_seq. reflexivity.
  - unfold dealt. cbn [vss_shares]. rewrite map_map. cbn [fst]. apply map_id.
  - intros p s Hin.
    destruct (dealt_shares_verify w threshold totalParties p s Hin) as (_ & _ & Heq & Hv).
    auto.
  - intros p s commitments Hp. apply verifyShare_iff. exact Hp.
Qed.

(** The statement of C2 at the scenario's key generation: threshold 2,
    three parties, the polynomial [5 + 3 x]. *)
Lemma generateShares_satisfy_feldman_witness :
  1 <= 2
  /\ exists vss w',
      generateShares 2 3 (Model.fresh [5; 3]) = (Ok vss, w')
      /\ length (vss_commitments vss) = Z.to_nat 2
      /\ map fst (vss_shares vss) = seqZ 1 3
      /\ (forall p s, In (p, s) (vss_shares vss) ->
            pt_mul ec_g s = feldmanSum p (vss_commitments vss) 0
            /\ verifyShare p s (vss_commitments vss) = true)
      /\ (forall p s commitments, 0 <= p ->
            verifyShare p s commitments = true
            <-> pt_mul ec_g s = feldmanSum p commitments 0).
Proof.
  split; [lia|].
  apply (generateShares_satisfy_feldman 2 3 (Model.fresh [5; 3])). lia.
Defined.

(** For every session, the outcome is the same whatever master public key
    the coordinator holds: the key is never consulted. *)
Lemma signWithTSS_ignores_master_key `{!Sha256} `{!Curve}
    (walletId : string) (message : list byte) (ids : list Z)
    (key : option point) (cs : list point) (w : World) :
  fst (signWithTSS walletId message ids (set_keys key cs w))
  = fst (signWithTSS walletId message ids w).
Proof. apply signWithTSS_respects. reflexivity. Qed.

(** C1. The coordinator is to verify the aggregated signature against the
    master public key and to abort when the verification fails. In the
    scenario, [signWithTSS] returns the signature (r, s) = (0e, 93) although
    the verification block, run on that signature in the state the session
    left, throws "Signature verification failed!": the block stands after
    the [return] and is never executed. In general the outcome of a session
    is the same whatever master public key the coordinator holds. *)
Theorem signWithTSS_returns_unverified_signature :
  fst (signWithTSS "w2" Scenario.message [1; 2] Scenario.readyWorld)
  = Ok (mkSignature
          "000000000000000000000000000000000000000000000000000000000000000e"
          "0000000000000000000000000000000000000000000000000000000000000093"
          "Threshold Signatures (Feldman VSS DKG + Multi-round Protocol)")
  /\ fst (verificationBlock Scenario.message
            "000000000000000000000000000000000000000000000000000000000000000e"
            "0000000000000000000000000000000000000000000000000000000000000093"
            (snd (signWithTSS "w2" Scenario.message [1; 2] Scenario.readyWorld)))
     = Throw (Error "Signature verification failed!")
  /\ forall (hash : Sha256) (curve : Curve) (walletId : string)
            (message : list byte) (ids : list Z)
            (key : option point) (cs : list point) (w : World),
       fst (signWithTSS walletId message ids (set_keys key cs w))
       = fst (signWithTSS walletId message ids w).
Proof.
  split; [vm_compute; reflexivity|]. split; [vm_compute; reflexivity|].
  intros. apply signWithTSS_ignores_master_key.
Qed.

(** C3, as stated, fails: after the successful session of the scenario,
    party 1 still holds its ephemeral key 7 and its commitment hash. *)
Lemma session_leaves_ephemeral_key :
  fst (signWithTSS "w2" Scenario.message [1; 2] Scenario.readyWorld)
  = Ok (mkSignature
          "000000000000000000000000000000000000000000000000000000000000000e"
          "0000000000000000000000000000000000000000000000000000000000000093"
          "Threshold Signatures (Feldman VSS DKG + Multi-round Protocol)")
  /\ parties (snd (signWithTSS "w2" Scenario.message [1; 2] Scenario.readyWorld)) !! 1
     = Some (mkParty 1 8 (Some 7)
               (Some "0000000000000000000000000000000000000000000000000000000000000007")).
Proof. split; vm_compute; reflexivity. Qed.

(** C3, amended. [signWithTSS] never clears the ephemeral state of a
    party. Whatever the outcome, a party keeps its share, and an ephemeral
    key or commitment hash that was set stays set; after a session that
    returns, every signing party holds the non-zero ephemeral key that
    Round 1 derived for the message, and its commitment hash. *)
Theorem signWithTSS_keeps_ephemeral_state `{!Sha256} `{!Curve}
    (walletId : string) (message : list byte) (ids : list Z) (w : World) :
  let outcome := signWithTSS walletId message ids w in
  (forall id p, parties w !! id = Some p ->
     exists p', parties (snd outcome) !! id = Some p'
       /\ keyShare p' = keyShare p
       /\ (is_Some (ephemeralKey p) -> is_Some (ephemeralKey p'))
       /\ (is_Some (ephemeralCommitment p) -> is_Some (ephemeralCommitment p')))
  /\ (forall sig, fst outcome = Ok sig ->
      forall id, id ∈ ids ->
        exists p', parties (snd outcome) !! id = Some p'
          /\ ephemeralKey p' = Some (nonceOf (keyShare p') message)
          /\ 1 <= nonceOf (keyShare p') message < n
          /\ is_Some (ephemeralCommitment p')).
Proof.
  cbv zeta.
  destruct (signWithTSS_state walletId message ids w) as (done & res & Hrun & _ & Hok).
  rewrite Hrun. cbn [fst snd]. split.
  - intros id p Hp. cbn [set_parties parties]. rewrite commitAll_lookup, Hp.
    destruct (decide (id ∈ done)); [|eauto].
    exists (committed message p).
    destruct (committed_fields message p) as (_ & Hshare & Hkey & Hcommit).
    split; [reflexivity|]. split; [exact Hshare|]. rewrite Hkey. eauto.
  - intros sig -> id Hin. destruct (Hok sig eq_refl) as (-> & Hall).
    destruct (Hall id Hin) as [p Hp].
    exists (committed message p).
    destruct (committed_fields message p) as (_ & Hshare & Hkey & Hcommit).
    cbn [set_parties parties]. rewrite commitAll_lookup, Hp, decide_True by exact Hin.
    rewrite Hshare. split; [reflexivity|]. split; [exact Hkey|].
    split; [apply nonceOf_range | exact Hcommit].
Qed.

(** C4, as stated, fails: in the scenario a second [performDKG] for the
    wallet ["w2"] returns, with a new master public key (7 * G), and the
    store holds what it held. *)
Lemma second_performDKG_returns :
  fst (performDKG "w2" 2 3 Scenario.dealtWorld)
  = Ok ("0x020000000000000000000000000000000000000000000000000000000000000007",
        [1; 2; 3])
  /\ secrets (snd (performDKG "w2" 2 3 Scenario.dealtWorld))
     = secrets Scenario.dealtWorld
  /\ secrets Scenario.dealtWorld !! "hyperliquid/tss-shares/w2/share-1"
     = Some "0000000000000000000000000000000000000000000000000000000000000008".
Proof. repeat split; vm_compute; reflexivity. Qed.

(** C4, amended. A second [performDKG] for the same wallet id does not
    fail with a conflict: the "already exists" answer of the store is
    swallowed. Whatever the second call does, every secret the first call
    left in the store is unchanged; and when the store answers, the
    threshold is at least 1 and the newly drawn master secret is not zero,
    the second call returns a public key and the party ids. *)
Theorem performDKG_twice `{!Sha256} `{!Curve}
    (walletId : string) (threshold1 parties1 threshold2 parties2 : Z) (w : World) :
  let first := performDKG walletId threshold1 parties1 w in
  let second := performDKG walletId threshold2 parties2 (snd first) in
  (forall name, fst second <> Throw (ResourceExistsException name))
  /\ (forall name value,
        secrets (snd first) !! name = Some value ->
        secrets (snd second) !! name = Some value)
  /\ (1 <= threshold2 ->
      (forall k, answers w k = true) ->
      scalarAt (entropy (snd first)) (drawn (snd first)) <> 0 ->
      exists publicKey, fst second = Ok (publicKey, seqZ 1 parties2)).
Proof.
  cbv zeta. set (w1 := snd (performDKG walletId threshold1 parties1 w)).
  split; [|split].
  - intros name Hthrow.
    apply (performDKG_no_conflict walletId threshold2 parties2 w1 _ Hthrow). eauto.
  - apply performDKG_grows.
  - intros Ht Hup Hmaster. apply performDKG_returns; [exact Ht | | exact Hmaster].
    destruct (performDKG_grows walletId threshold1 parties1 w) as [Hanswers _].
    fold w1 in Hanswers. rewrite Hanswers. exact Hup.
Qed.

(** The earlier [signWithTSS] rejects a quorum below the threshold before
    any round runs: nothing is read or drawn. *)
Lemma legacy_signWithTSS_guard `{!Sha256} `{!Curve} (config : MpcConfig)
    (walletId : string) (message : list byte) (ids : list Z) (w : LegacyWorld) :
  Z.of_nat (length ids) < threshold config ->
  legacy_signWithTSS config walletId message ids w
  = (Throw (Error ("Need " +:+ JsNumber.toString (threshold config) +:+ " parties, got "
                   +:+ JsNumber.toString (Z.of_nat (length ids)))), w).
Proof.
  intros Hlt. unfold legacy_signWithTSS.
  apply Z.ltb_lt in Hlt. rewrite Hlt. reflexivity.
Qed.

(** C5. Signing with fewer parties than the threshold is to fail before
    any round runs. In the scenario (a 2-of-3 wallet), [signWithTSS] with
    the single party 1 runs all four rounds and returns a signature; the
    earlier [signWithTSS], which has the guard, throws on the same list. In
    general a session over initialised parties, however few, returns
    unless its aggregated point is the point at infinity. *)
Theorem signWithTSS_accepts_single_party :
  threshold defaultMpcConfig = 2
  /\ fst (signWithTSS "w2" Scenario.message [1] Scenario.readyWorld)
     = Ok (mkSignature
             "0000000000000000000000000000000000000000000000000000000000000007"
             "000000000000000000000000000000000000000000000000000000000000003f"
             "Threshold Signatures (Feldman VSS DKG + Multi-round Protocol)")
  /\ (forall w : LegacyWorld,
        legacy_signWithTSS defaultMpcConfig "w2" Scenario.message [1] w
        = (Throw (Error "Need 2 parties, got 1"), w))
  /\ forall (hash : Sha256) (curve : Curve) (walletId : string)
            (message : list byte) (ids : list Z) (w : World),
       ids <> [] ->
       (forall id, id ∈ ids -> is_Some (parties w !! id)) ->
       fst (signWithTSS walletId message ids w) = Throw TypeError
       \/ exists sig, fst (signWithTSS walletId message ids w) = Ok sig.
Proof.
  split; [reflexivity|]. split; [vm_compute; reflexivity|]. split.
  - intros w. apply (legacy_signWithTSS_guard defaultMpcConfig). reflexivity.
  - intros hash curve walletId message ids w Hne Hall.
    destruct (signWithTSS_completes walletId message ids w Hne Hall) as [Hthrow|[x Hok]];
      [left; exact Hthrow | right; eauto].
Qed.

(** C7. Round 1 derives the ephemeral key from the share and the message
    alone: [k = sha256(keyBytes || message) mod n], with 1 in place of 0,
    where [keyBytes] are the 32 big-endian bytes of the share.
    [generateCommitment] always returns; it stores [k], returns the
    encoding of [k * G] and the hash of that encoding, and a second call on
    the same party with the same message returns and stores the same. *)
Theorem generateCommitment_deterministic `{!Sha256} `{!Curve}
    (message : list byte) (p : TSSParty) :
  let h := hashValue (keyBytes (keyShare p) ++ message) in
  let k := if h mod n =? 0 then 1 else h mod n in
  (0 <= keyShare p < 2 ^ 256 ->
   keyBytes (keyShare p) = Hex.beBytes 32 (Z.to_N (keyShare p)))
  /\ exists bytes p1,
      pt_encode true (pt_mul ec_g k) = Some bytes
      /\ generateCommitment message p
         = (Ok (Hex.ofBuffer (sha256 bytes), Hex.ofBuffer bytes), p1)
      /\ ephemeralKey p1 = Some k
      /\ ephemeralCommitment p1 = Some (Hex.ofBuffer (sha256 bytes))
      /\ keyShare p1 = keyShare p
      /\ generateCommitment message p1
         = (Ok (Hex.ofBuffer (sha256 bytes), Hex.ofBuffer bytes), p1).
Proof.
  cbv zeta. fold (nonceOf (keyShare p) message).
  split; [apply hexBytes_be32|].
  destruct (generateCommitment_run message p) as (bytes & Henc & Hrun).
  exists bytes, (mkParty (partyId p) (keyShare p)
                         (Some (nonceOf (keyShare p) message))
                         (Some (Hex.ofBuffer (sha256 bytes)))).
  split; [exact Henc|]. split; [exact Hrun|]. do 3 (split; [reflexivity|]).
  destruct (generateCommitment_run message
              (mkParty (partyId p) (keyShare p)
                       (Some (nonceOf (keyShare p) message))
                       (Some (Hex.ofBuffer (sha256 bytes)))))
    as (bytes' & Henc' & Hrun').
  cbn [keyShare partyId] in *. rewrite Henc in Henc'. injection Henc' as <-.
  exact Hrun'.
Qed.

(** C8. For a party built with a non-negative share and then used through
    any sequence of calls, and an aggregated point that has an x-coordinate,
    [createPartialSignature] throws exactly when [generateCommitment] does
    not occur in the sequence; when it occurs, the call returns
    [(k + e * share) mod n] for the stored ephemeral key [k] and
    [e = sha256(message) mod n]. *)
Theorem createPartialSignature_requires_round1 `{!Sha256} `{!Curve}
    (id share : Z) (history : list call) (message : list byte)
    (aggregatedR : point) (x : Z) :
  0 <= share ->
  pt_getX aggregatedR = Some x ->
  let p := after history (newParty id share) in
  ((exists e, fst (createPartialSignature message aggregatedR p) = Throw e)
   <-> round1Invoked history = false)
  /\ (round1Invoked history = true ->
      exists k,
        ephemeralKey p = Some k
        /\ fst (createPartialSignature message aggregatedR p)
           = Ok ((k + (hashValue message mod n) * share) mod n,
                 Hex.padStart 64 (Hex.ofBigInt x))).
Proof.
  intros Hshare Hx. cbv zeta. pose proof n_positive as Hn.
  destruct (after_ephemeralKey history (newParty id share)) as (Hs & Hnone & Hsome).
  cbn [newParty keyShare ephemeralKey] in Hs, Hnone, Hsome.
  assert (Hrun : round1Invoked history = true ->
            exists k,
              ephemeralKey (after history (newParty id share)) = Some k
              /\ fst (createPartialSignature message aggregatedR
                        (after history (newParty id share)))
                 = Ok ((k + (hashValue message mod n) * share) mod n,
                       Hex.padStart 64 (Hex.ofBigInt x))).
  { intros Hinv. destruct (Hsome Hinv) as [m Hk].
    pose proof (nonceOf_range share m) as Hrange.
    exists (nonceOf share m). split; [exact Hk|].
    rewrite (createPartialSignature_run _ _ _ _ x Hk) by (auto; lia).
    cbn [fst]. rewrite Hs.
    pose proof (hashValue_nonneg message) as Hh.
    rewrite (Z.rem_mod_nonneg (hashValue message)) by lia.
    pose proof (Z.mod_pos_bound (hashValue message) n ltac:(lia)).
    rewrite Z.rem_mod_nonneg by nia. reflexivity. }
  split; [|exact Hrun]. split.
  - intros [e He]. destruct (round1Invoked history); [|reflexivity].
    destruct (Hrun eq_refl) as (k & _ & Hok). rewrite Hok in He. discriminate.
  - intros Hinv. eexists.
    rewrite createPartialSignature_falsy; [reflexivity|].
    unfold ephemeralKey_falsy. rewrite (Hnone Hinv). reflexivity.
Qed.

(** The statement of C8 at party 1 of the scenario (share 8), once Round 1
    has run for the message, and the aggregated point [14 * G]. *)
Lemma createPartialSignature_requires_round1_witness :
  0 <= 8 /\ pt_getX (pt_mul ec_g 14) = Some 14
  /\ let p := after [GenerateCommitment Scenario.message] (newParty 1 8) in
     ((exists e, fst (createPartialSignature Scenario.message (pt_mul ec_g 14) p) = Throw e)
      <-> round1Invoked [GenerateCommitment Scenario.message] = false)
     /\ (round1Invoked [GenerateCommitment Scenario.message] = true ->
         exists k,
           ephemeralKey p = Some k
           /\ fst (createPartialSignature Scenario.message (pt_mul ec_g 14) p)
              = Ok ((k + (hashValue Scenario.message mod n) * 8) mod n,
                    Hex.padStart 64 (Hex.ofBigInt 14))).
Proof.
  split; [lia|]. split; [vm_compute; reflexivity|].
  apply (createPartialSignature_requires_round1 1 8
           [GenerateCommitment Scenario.message] Scenario.message
           (pt_mul ec_g 14) 14); [lia | vm_compute; reflexivity].
Defined.

(** C9, as stated, fails: a random source that yields zero bytes gives
    the coefficients 0 and 0; and the polynomial [2 + (n - 2) x] gives
    party 1 the share 0, which [performDKG] stores like any other. *)
Lemma zero_coefficient_drawn :
  fst (drawCoefficients 2 (Model.fresh [])) = Ok [0; 0]
  /\ fst (performDKG "w" 2 3 (Model.fresh [2; n - 2]))
     = Ok ("0x020000000000000000000000000000000000000000000000000000000000000002",
           [1; 2; 3])
  /\ secrets (snd (performDKG "w" 2 3 (Model.fresh [2; n - 2])))
       !! "hyperliquid/tss-shares/w/share-1"
     = Some "0000000000000000000000000000000000000000000000000000000000000000".
Proof. repeat split; vm_compute; reflexivity. Qed.

(** C9, amended. The drawing loop of [generateShares] never throws and
    each of its coefficients lies in [0, n): zero is not excluded. The
    nonce of Round 1 lies in [1, n), a zero being replaced by 1; a share
    that is zero is stored like any other, and a party that holds it runs
    Round 1 like any other. *)
Theorem coefficient_and_nonce_ranges `{!Sha256} `{!Curve}
    (threshold : nat) (w : World) :
  (exists coefficients w',
     drawCoefficients threshold w = (Ok coefficients, w')
     /\ length coefficients = threshold
     /\ Forall (fun c => 0 <= c < n) coefficients)
  /\ (forall message p,
        exists k, generateDeterministicNonce message p = (Ok k, p) /\ 1 <= k < n)
  /\ (forall walletId id,
        answers w (requests w) = true ->
        secrets w !! secretName walletId id = None ->
        storeKeyShare walletId id 0 w
        = (Ok tt,
           set_secrets
             <[secretName walletId id
               := "0000000000000000000000000000000000000000000000000000000000000000"]>
             (count_request w)))
  /\ (forall id message,
        exists commit, fst (generateCommitment message (newParty id 0)) = Ok commit).
Proof.
  split; [|split; [|split]].
  - exists (coefficientsAt w threshold), (advance_entropy (32 * threshold) w).
    split; [apply drawCoefficients_run|].
    split; [|apply coefficientsAt_range].
    unfold coefficientsAt. rewrite length_map, length_seq. reflexivity.
  - intros message p. exists (nonceOf (keyShare p) message).
    split; [apply generateDeterministicNonce_run | apply nonceOf_range].
  - intros walletId id Hup Habsent.
    rewrite storeKeyShare_run, Hup, Habsent. reflexivity.
  - intros id message.
    destruct (generateCommitment_run message (newParty id 0)) as (bytes & _ & ->).
    eauto.
Qed.

(** C10. When the read of a share fails or finds nothing, [getKeyShare]
    throws nothing and returns 32 random bytes reduced modulo [n]; so
    [initializeParties] always returns, and with no share of the wallet in
    the store it builds every party from the random source. *)
Theorem getKeyShare_falls_back_to_random `{!Sha256} `{!Curve}
    (walletId : string) (partyId threshold totalParties : Z) (w : World) :
  (answers w (requests w) = false \/ secrets w !! secretName walletId partyId = None ->
   getKeyShare walletId partyId w
   = (Ok (scalarAt (entropy w) (drawn w)), advance_entropy 32 (count_request w))
   /\ 0 <= scalarAt (entropy w) (drawn w) < n)
  /\ fst (initializeParties walletId threshold totalParties w) = Ok tt
  /\ ((forall i, secrets w !! secretName walletId i = None) ->
      forall i, 1 <= i <= totalParties ->
        parties (snd (initializeParties walletId threshold totalParties w)) !! i
        = Some (newParty i (scalarAt (entropy w) (drawn w + 32 * Z.to_nat (i - 1))))).
Proof.
  split; [|split].
  - intros Hfail. split; [|apply scalarAt_range].
    rewrite getKeyShare_run. unfold randomShare.
    destruct Hfail as [-> | ->]; [reflexivity|].
    destruct (answers w (requests w)); reflexivity.
  - apply initializeParties_returns.
  - intros Habsent i Hi. unfold initializeParties.
    destruct (initialize_from_entropy walletId (seqZ 1 totalParties)
                (NoDup_seqZ 1 totalParties) w (fun k _ => Habsent k))
      as (_ & _ & _ & _ & Hbuilt).
    apply Hbuilt. rewrite lookup_seqZ. split; lia.
Qed.

(* ================================================================== *)
(** * Further properties of the code

    What follows covers the parts of the service the statements above do
    not reach: the arithmetic of [FeldmanVSS], the format and the round
    trip of a stored share, the outcomes of [performDKG] and of
    [signWithTSS], the group equation a signature satisfies, the wrapper
    [MPCCoordinatorService] of [mpc-coordinator.service.ts], and the
    sessions of the earlier coordinator. *)

(* ================================================================== *)
(** ** The text of a stored share *)

Module ShareText.
Import Hex HexFacts.

(** Leading zeros do not change the number a hexadecimal text denotes. *)
Lemma parseFrom_zeros (k : nat) (s : string) :
  parseFrom (zeros k +:+ s) 0 = parseFrom s 0.
Proof.
  induction k as [|k IH]; [reflexivity|].
  rewrite zeros_succ. change (String "0" (zeros k) +:+ s) with (String "0" (zeros k +:+ s)).
  cbn [parseFrom]. change (value "0") with (Some 0%N). cbn match.
  change (16 * 0 + 0)%N with 0%N. exact IH.
Qed.

Lemma append_nonempty (a b : string) : b <> EmptyString -> a +:+ b <> EmptyString.
Proof. destruct a; [auto | discriminate]. Qed.

(** [BigInt('0x' + x.toString(16).padStart(width, '0'))] is [x] again. *)
Lemma toBigInt_padStart (width : nat) (x : Z) :
  0 <= x -> toBigInt (padStart width (ofBigInt x)) = Some x.
Proof.
  intros Hx. unfold padStart. fold (zeros (width - String.length (ofBigInt x))).
  rewrite (toBigInt_digits _ (Z.to_N x)).
  - f_equal. lia.
  - apply append_nonempty, ofBigInt_nonempty.
  - rewrite parseFrom_zeros. apply parseFrom_ofBigInt. exact Hx.
Qed.

Lemma padStart_nonempty (width : nat) (x : Z) :
  String.eqb (padStart width (ofBigInt x)) "" = false.
Proof.
  apply String.eqb_neq. unfold padStart. apply append_nonempty, ofBigInt_nonempty.
Qed.

(** A number below [2 ^ 256] is written on exactly 64 characters. *)
Lemma padStart_length (x : Z) :
  0 <= x < 2 ^ 256 -> String.length (padStart 64 (ofBigInt x)) = 64%nat.
Proof. intros Hx. rewrite padStart_ofBigInt by exact Hx. apply digits_length. Qed.

End ShareText.

Lemma n_below_2_256 : n < 2 ^ 256.
Proof. reflexivity. Qed.

(** X1. [FeldmanVSS.modPow] is modular exponentiation by repeated
    squaring: for a non-negative base, a non-negative exponent and a
    positive modulus it returns [base ^ exp mod modulus], except that the
    exponent 0 is answered with 1 whatever the modulus (so with 1, not 0,
    for modulus 1). *)
Theorem modPow_is_modular_power (base exp modulus : Z) :
  0 <= base -> 0 <= exp -> 0 < modulus ->
  modPow base exp modulus = if exp =? 0 then 1 else base ^ exp mod modulus.
Proof.
  intros Hb He Hm. destruct exp as [|p|p]; [reflexivity| |lia].
  cbn [Z.eqb modPow]. rewrite Z.rem_mod_nonneg by lia.
  rewrite modPow_loop_spec by (try apply Z.mod_pos_bound; lia).
  rewrite Z.mul_1_l, Z.mod_pow_l. reflexivity.
Qed.

(** The statement of X1 at [3 ^ 5 mod 7]. *)
Lemma modPow_is_modular_power_witness :
  0 <= 3 /\ 0 <= 5 /\ 0 < 7
  /\ modPow 3 5 7 = if 5 =? 0 then 1 else 3 ^ 5 mod 7.
Proof.
  split; [lia|]. split; [lia|]. split; [lia|].
  apply (modPow_is_modular_power 3 5 7); lia.
Defined.

(** X2. [FeldmanVSS.evaluatePolynomial] returns the value of the
    polynomial [a_0 + a_1 x + a_2 x^2 + ...] reduced modulo [n], a number of
    [0, n); at 0 it returns the constant coefficient, the master secret. *)
Theorem evaluatePolynomial_is_polynomial_value (coefficients : list Z) (x : Z) :
  Forall (fun c => 0 <= c < n) coefficients -> 0 <= x ->
  evaluatePolynomial coefficients x = polynomial coefficients x 0 mod n
  /\ 0 <= evaluatePolynomial coefficients x < n
  /\ evaluatePolynomial coefficients 0 = hd 0 coefficients.
Proof.
  intros Hcs Hx. pose proof n_positive as Hn.
  pose proof (Forall_range_nonneg _ Hcs) as Hnonneg.
  split; [apply evaluatePolynomial_spec; assumption|].
  split.
  - rewrite evaluatePolynomial_spec by assumption. apply Z.mod_pos_bound. lia.
  - rewrite evaluatePolynomial_spec by (auto; lia).
    destruct Hcs as [|c rest Hc Hrest]; [reflexivity|].
    cbn [polynomial hd].
    assert (Htail : forall cs j, 0 < j -> polynomial cs 0 j = 0).
    { clear. induction cs as [|c cs IH]; intros j Hj; cbn [polynomial]; [reflexivity|].
      rewrite IH by lia. rewrite Z.pow_0_l by lia. lia. }
    rewrite Htail by lia. rewrite Z.pow_0_r, Z.mul_1_r, Z.add_0_r.
    apply Z.mod_small. exact Hc.
Qed.

(** The statement of X2 for the polynomial [5 + 3 x] at 2. *)
Lemma evaluatePolynomial_is_polynomial_value_witness :
  evaluatePolynomial [5; 3] 2 = polynomial [5; 3] 2 0 mod n
  /\ 0 <= evaluatePolynomial [5; 3] 2 < n
  /\ evaluatePolynomial [5; 3] 0 = hd 0 [5; 3].
Proof.
  apply (evaluatePolynomial_is_polynomial_value [5; 3] 2); [|lia].
  repeat (constructor; [split; [lia | reflexivity]|]). constructor.
Defined.

(* ================================================================== *)
(** ** What the shares say about the master secret *)

Section ShareFacts.

Context `{!Sha256} `{!Curve}.

Lemma coefficientsAt_1 (w : World) :
  coefficientsAt w 1 = [scalarAt (entropy w) (drawn w)].
Proof. unfold coefficientsAt. cbn [seq map]. rewrite Nat.mul_0_r, Nat.add_0_r. reflexivity. Qed.

Lemma coefficientsAt_2 (w : World) :
  coefficientsAt w 2
  = [scalarAt (entropy w) (drawn w); scalarAt (entropy w) (drawn w + 32)].
Proof.
  unfold coefficientsAt. cbn [seq map].
  rewrite Nat.mul_0_r, Nat.add_0_r, Nat.mul_1_r. reflexivity.
Qed.

Lemma coefficientsAt_head (w : World) (threshold : nat) :
  (1 <= threshold)%nat ->
  head (coefficientsAt w threshold) = Some (scalarAt (entropy w) (drawn w)).
Proof.
  intros Ht. destruct threshold as [|t]; [lia|].
  unfold coefficientsAt. cbn [seq map head]. rewrite Nat.mul_0_r, Nat.add_0_r. reflexivity.
Qed.

(** A constant polynomial evaluates to its constant. *)
Lemma evaluatePolynomial_constant (c x : Z) :
  0 <= c < n -> evaluatePolynomial [c] x = c.
Proof.
  intros Hc. pose proof n_positive as Hn.
  unfold evaluatePolynomial. cbn [evaluatePolynomial_from modPow].
  rewrite Z.mul_1_r, Z.add_0_l.
  rewrite (Z.rem_small c n) by lia. apply Z.rem_small. lia.
Qed.

Lemma evaluatePolynomial_linear (a b x : Z) :
  0 <= a < n -> 0 <= b < n -> 0 <= x ->
  evaluatePolynomial [a; b] x = (a + b * x) mod n.
Proof.
  intros Ha Hb Hx. rewrite evaluatePolynomial_spec; [|repeat constructor; lia|lia].
  cbn [polynomial]. f_equal. rewrite Z.pow_0_r. change (0 + 1) with 1.
  rewrite Z.pow_1_r. ring.
Qed.

End ShareFacts.

(** X3. With threshold 1 the polynomial is constant: every share that
    [FeldmanVSS.generateShares] hands out is the master secret itself, the
    number whose multiple of the generator is the master public key. *)
Theorem threshold_one_share_is_master_secret `{!Sha256} `{!Curve}
    (totalParties : Z) (w : World) :
  let secret := scalarAt (entropy w) (drawn w) in
  fst (generateShares 1 totalParties w)
  = Ok (mkVSS (Some (pt_mul ec_g secret))
              (map (fun x => (x, secret)) (seqZ 1 totalParties))
              [pt_mul ec_g secret]).
Proof.
  cbv zeta. rewrite generateShares_run by lia.
  change (Z.to_nat 1) with 1%nat. rewrite coefficientsAt_1. cbn [fst map head].
  f_equal. f_equal. apply map_ext. intros x.
  rewrite evaluatePolynomial_constant by apply scalarAt_range. reflexivity.
Qed.

(** X4. With threshold 2 any two shares determine the master secret
    [a_0]: for the shares [s_p] and [s_q] of the parties [p] and [q],
    [q * s_p - p * s_q] is [(q - p) * a_0] modulo [n], and [a_0 * G] is the
    master public key that [generateShares] returns. *)
Theorem two_shares_determine_master_secret `{!Sha256} `{!Curve}
    (totalParties p q : Z) (w : World) :
  1 <= p <= totalParties -> 1 <= q <= totalParties ->
  let secret := scalarAt (entropy w) (drawn w) in
  exists vss sp sq,
    fst (generateShares 2 totalParties w) = Ok vss
    /\ In (p, sp) (vss_shares vss) /\ In (q, sq) (vss_shares vss)
    /\ vss_masterPublicKey vss = Some (pt_mul ec_g secret)
    /\ (q * sp - p * sq) mod n = ((q - p) * secret) mod n.
Proof.
  intros Hp Hq. cbv zeta.
  pose proof (generateShares_run 2 totalParties w ltac:(lia)) as Hrun.
  change (Z.to_nat 2) with 2%nat in Hrun. rewrite coefficientsAt_2 in Hrun.
  rewrite Hrun. clear Hrun.
  pose proof (scalarAt_range (entropy w) (drawn w)) as Ha.
  pose proof (scalarAt_range (entropy w) (drawn w + 32)) as Hb.
  revert Ha Hb.
  generalize (scalarAt (entropy w) (drawn w + 32)) as b.
  generalize (scalarAt (entropy w) (drawn w)) as a.
  intros a b Ha Hb.
  exists (mkVSS (head (map (fun coeff => pt_mul ec_g coeff) [a; b]))
                (map (fun x => (x, evaluatePolynomial [a; b] x)) (seqZ 1 totalParties))
                (map (fun coeff => pt_mul ec_g coeff) [a; b])),
         (evaluatePolynomial [a; b] p), (evaluatePolynomial [a; b] q).
  split; [reflexivity|]. cbn [vss_shares vss_masterPublicKey].
  split; [|split; [|split; [reflexivity|]]].
  - apply (in_map (fun x => (x, evaluatePolynomial [a; b] x))).
    apply list_elem_of_In, elem_of_seqZ. lia.
  - apply (in_map (fun x => (x, evaluatePolynomial [a; b] x))).
    apply list_elem_of_In, elem_of_seqZ. lia.
  - rewrite !evaluatePolynomial_linear by lia.
    rewrite Zminus_mod, !Z.mul_mod_idemp_r, <- Zminus_mod by (pose proof n_positive; lia).
    f_equal. ring.
Qed.

(** The statement of X4 for the parties 1 and 3 of three, the random
    source yielding the coefficients 5 and 3. *)
Lemma two_shares_determine_master_secret_witness :
  1 <= 1 <= 3 /\ 1 <= 3 <= 3
  /\ exists vss sp sq,
      fst (generateShares 2 3 (Model.fresh [5; 3])) = Ok vss
      /\ In (1, sp) (vss_shares vss) /\ In (3, sq) (vss_shares vss)
      /\ vss_masterPublicKey vss
         = Some (pt_mul ec_g (scalarAt (entropy (Model.fresh [5; 3]))
                                       (drawn (Model.fresh [5; 3]))))
      /\ (3 * sp - 1 * sq) mod n
         = ((3 - 1) * scalarAt (entropy (Model.fresh [5; 3]))
                               (drawn (Model.fresh [5; 3]))) mod n.
Proof.
  split; [lia|]. split; [lia|].
  apply (two_shares_determine_master_secret 3 1 3 (Model.fresh [5; 3])); lia.
Defined.

(* ================================================================== *)
(** ** Shares in the store *)

Section StoredShares.

Context `{!Sha256} `{!Curve}.

Lemma secretName_inj (walletId : string) (i j : Z) :
  secretName walletId i = secretName walletId j -> i = j.
Proof.
  unfold secretName. intros Heq.
  do 3 apply (inj (String.app _)) in Heq.
  exact (inj pretty _ _ Heq).
Qed.

(** The state after [k] more requests to the store. *)
Definition count_requests (k : nat) (w : World) : World :=
  mkWorld (parties w) (masterPublicKey w) (commitments w) (secrets w)
          (answers w) (requests w + k) (entropy w) (drawn w).

(** The store after the shares of a wallet were written one by one, each
    created only when its name was free. *)
Definition storeAll (walletId : string) (shares : list (Z * Z))
    (held : gmap string string) : gmap string string :=
  fold_left (fun m '(p, s) =>
               match m !! secretName walletId p with
               | Some _ => m
               | None => <[secretName walletId p := Hex.padStart 64 (Hex.ofBigInt s)]> m
               end) shares held.

Lemma storeAll_cons (walletId : string) (p s : Z) (rest : list (Z * Z))
    (held : gmap string string) :
  storeAll walletId ((p, s) :: rest) held
  = storeAll walletId rest
      match held !! secretName walletId p with
      | Some _ => held
      | None => <[secretName walletId p := Hex.padStart 64 (Hex.ofBigInt s)]> held
      end.
Proof. reflexivity. Qed.

Lemma storeAll_lookup (walletId : string) (f : Z -> Z) (ids : list Z) :
  forall held i,
    storeAll walletId (map (fun x => (x, f x)) ids) held !! secretName walletId i
    = match held !! secretName walletId i with
      | Some text => Some text
      | None => if decide (i ∈ ids)
                then Some (Hex.padStart 64 (Hex.ofBigInt (f i)))
                else None
      end.
Proof.
  induction ids as [|x rest IH]; intros held i.
  - cbn. destruct (held !! secretName walletId i); [reflexivity|].
    rewrite decide_False by apply not_elem_of_nil. reflexivity.
  - cbn [map]. rewrite storeAll_cons, IH. destruct (decide (i = x)) as [->|Hne].
    + rewrite (decide_True (P := x ∈ x :: rest)) by apply list_elem_of_here.
      destruct (held !! secretName walletId x) as [text|] eqn:Hheld.
      * rewrite Hheld. reflexivity.
      * rewrite lookup_insert_eq. reflexivity.
    + assert (Hname : secretName walletId x <> secretName walletId i).
      { intros Heq. apply secretName_inj in Heq. congruence. }
      destruct (held !! secretName walletId x) as [text|] eqn:Hheld.
      * destruct (held !! secretName walletId i); [reflexivity|].
        destruct (decide (i ∈ rest)) as [Hin|Hout].
        -- rewrite decide_True by (right; exact Hin). reflexivity.
        -- rewrite decide_False; [reflexivity|].
           intros Hin. apply elem_of_cons in Hin as [?|?]; congruence.
      * rewrite lookup_insert_ne by exact Hname.
        destruct (held !! secretName walletId i); [reflexivity|].
        destruct (decide (i ∈ rest)) as [Hin|Hout].
        -- rewrite decide_True by (right; exact Hin). reflexivity.
        -- rewrite decide_False; [reflexivity|].
           intros Hin. apply elem_of_cons in Hin as [?|?]; congruence.
Qed.

(** Where every name is taken, nothing is written. *)
Lemma storeAll_present (walletId : string) (shares : list (Z * Z)) :
  forall held,
    (forall p s, In (p, s) shares -> is_Some (held !! secretName walletId p)) ->
    storeAll walletId shares held = held.
Proof.
  induction shares as [|[p s] rest IH]; intros held Hall; [reflexivity|].
  rewrite storeAll_cons.
  destruct (Hall p s (or_introl eq_refl)) as [text ->].
  apply IH. intros q t Hin. apply (Hall q t). right. exact Hin.
Qed.

Lemma count_requests_0 (w : World) : count_requests 0 w = w.
Proof. destruct w. unfold count_requests. cbn. f_equal. lia. Qed.

Lemma stored_present (walletId : string) (p s : Z) (rest : list (Z * Z)) (k : nat)
    (w : World) (text : string) :
  secrets w !! secretName walletId p = Some text ->
  set_secrets (storeAll walletId rest) (count_requests k (count_request w))
  = set_secrets (storeAll walletId ((p, s) :: rest)) (count_requests (S k) w).
Proof.
  intros Hheld. destruct w as [ps mk cs sec ans req ent dr]. cbn [secrets] in Hheld.
  unfold set_secrets, count_requests, count_request.
  cbn [parties masterPublicKey commitments secrets answers requests entropy drawn].
  rewrite storeAll_cons, Hheld. f_equal. lia.
Qed.

Lemma stored_absent (walletId : string) (p s : Z) (rest : list (Z * Z)) (k : nat)
    (w : World) :
  secrets w !! secretName walletId p = None ->
  set_secrets (storeAll walletId rest)
    (count_requests k
       (set_secrets <[secretName walletId p := Hex.padStart 64 (Hex.ofBigInt s)]>
                    (count_request w)))
  = set_secrets (storeAll walletId ((p, s) :: rest)) (count_requests (S k) w).
Proof.
  intros Hheld. destruct w as [ps mk cs sec ans req ent dr]. cbn [secrets] in Hheld.
  unfold set_secrets, count_requests, count_request.
  cbn [parties masterPublicKey commitments secrets answers requests entropy drawn].
  rewrite storeAll_cons, Hheld. f_equal. lia.
Qed.

(** The loop of [performDKG] over shares that verify, in front of a store
    that answers every request of the loop. *)
Lemma storeShares_reachable (walletId : string) (master : option point)
    (cs : list point) (shares : list (Z * Z)) :
  (forall p s, In (p, s) shares -> verifyShare p s cs = true) ->
  forall w,
    (forall j, (j < length shares)%nat -> answers w (requests w + j) = true) ->
    storeShares walletId (mkVSS master shares cs) w
    = (Ok tt, set_secrets (storeAll walletId shares) (count_requests (length shares) w)).
Proof.
  unfold storeShares. cbn [vss_shares vss_commitments].
  induction shares as [|[p s] rest IH]; intros Hverify w Hup.
  - cbn. rewrite count_requests_0. destruct w; reflexivity.
  - rewrite forEach_cons. cbv zeta. rewrite (Hverify p s (or_introl eq_refl)).
    rewrite storeKeyShare_run.
    pose proof (Hup 0%nat ltac:(cbn; lia)) as Hfirst.
    rewrite Nat.add_0_r in Hfirst. rewrite Hfirst.
    assert (Hrest : forall p s, In (p, s) rest -> verifyShare p s cs = true).
    { intros q t Hin. apply Hverify. right. exact Hin. }
    destruct (secrets w !! secretName walletId p) as [text|] eqn:Hheld.
    + rewrite (IH Hrest).
      * f_equal. apply (stored_present _ _ _ _ _ _ _ Hheld).
      * intros j Hj. cbn [count_request answers requests].
        replace (S (requests w) + j)%nat with (requests w + S j)%nat by lia.
        apply Hup. cbn. lia.
    + rewrite (IH Hrest).
      * f_equal. apply (stored_absent _ _ _ _ _ _ Hheld).
      * intros j Hj. cbn [set_secrets count_request answers requests].
        replace (S (requests w) + j)%nat with (requests w + S j)%nat by lia.
        apply Hup. cbn. lia.
Qed.

(** The same loop when the store fails at the request for the share that
    follows [done]: the loop stops there, the shares before it are stored. *)
Lemma storeShares_outage (walletId : string) (master : option point)
    (cs : list point) (done : list (Z * Z)) (next : Z * Z) (rest : list (Z * Z)) :
  (forall p s, In (p, s) (done ++ next :: rest) -> verifyShare p s cs = true) ->
  forall w,
    (forall j, (j < length done)%nat -> answers w (requests w + j) = true) ->
    answers w (requests w + length done) = false ->
    storeShares walletId (mkVSS master (done ++ next :: rest) cs) w
    = (Throw ServiceUnavailable,
       set_secrets (storeAll walletId done) (count_requests (S (length done)) w)).
Proof.
  unfold storeShares. cbn [vss_shares vss_commitments].
  induction done as [|[p s] done IH]; intros Hverify w Hup Hdown.
  - destruct next as [p s]. cbn [app]. rewrite forEach_cons. cbv zeta.
    rewrite (Hverify p s (or_introl eq_refl)), storeKeyShare_run.
    cbn [length] in Hdown. rewrite Nat.add_0_r in Hdown. rewrite Hdown.
    destruct w. unfold set_secrets, count_requests, count_request. cbn.
    do 2 f_equal. lia.
  - cbn [app]. rewrite forEach_cons. cbv zeta.
    rewrite (Hverify p s (or_introl eq_refl)), storeKeyShare_run.
    pose proof (Hup 0%nat ltac:(cbn; lia)) as Hfirst.
    rewrite Nat.add_0_r in Hfirst. rewrite Hfirst.
    assert (Hrest : forall p s, In (p, s) (done ++ next :: rest) ->
                                verifyShare p s cs = true).
    { intros q t Hin. apply Hverify. right. exact Hin. }
    destruct (secrets w !! secretName walletId p) as [text|] eqn:Hheld.
    + rewrite (IH Hrest).
      * f_equal. apply (stored_present _ _ _ _ _ _ _ Hheld).
      * intros j Hj. cbn [count_request answers requests].
        replace (S (requests w) + j)%nat with (requests w + S j)%nat by lia.
        apply Hup. cbn. lia.
      * cbn [count_request answers requests].
        replace (S (requests w) + length done)%nat
          with (requests w + length ((p, s) :: done))%nat by (cbn; lia).
        exact Hdown.
    + rewrite (IH Hrest).
      * f_equal. apply (stored_absent _ _ _ _ _ _ Hheld).
      * intros j Hj. cbn [set_secrets count_request answers requests].
        replace (S (requests w) + j)%nat with (requests w + S j)%nat by lia.
        apply Hup. cbn. lia.
      * cbn [set_secrets count_request answers requests].
        replace (S (requests w) + length done)%nat
          with (requests w + length ((p, s) :: done))%nat by (cbn; lia).
        exact Hdown.
Qed.

(** The parties after [initializeParties] built those of [ids], the party
    [i] with the share [shareOf i]. *)
Definition installAll (shareOf : Z -> Z) (ids : list Z)
    (ps : gmap Z TSSParty) : gmap Z TSSParty :=
  fold_left (fun m i => <[i := newParty i (shareOf i)]> m) ids ps.

Lemma installAll_lookup (shareOf : Z -> Z) (ids : list Z) :
  forall ps i,
    installAll shareOf ids ps !! i
    = if decide (i ∈ ids) then Some (newParty i (shareOf i)) else ps !! i.
Proof.
  induction ids as [|x rest IH]; intros ps i.
  - cbn. rewrite decide_False by apply not_elem_of_nil. reflexivity.
  - change (installAll shareOf (x :: rest) ps)
      with (installAll shareOf rest (<[x := newParty x (shareOf x)]> ps)).
    rewrite IH.
    destruct (decide (i ∈ rest)) as [Hin|Hout].
    + rewrite decide_True by (right; exact Hin). reflexivity.
    + destruct (decide (i = x)) as [->|Hne].
      * rewrite decide_True by apply list_elem_of_here.
        rewrite lookup_insert_eq. reflexivity.
      * rewrite decide_False, lookup_insert_ne by
          (try congruence; intros Hin; apply elem_of_cons in Hin as [?|?]; congruence).
        reflexivity.
Qed.

(** [getKeyShare] in front of a store that answers and holds a number. *)
Lemma getKeyShare_stored (walletId : string) (i share : Z) (text : string) (w : World) :
  answers w (requests w) = true ->
  secrets w !! secretName walletId i = Some text ->
  String.eqb text "" = false ->
  Hex.toBigInt text = Some share ->
  getKeyShare walletId i w = (Ok share, count_request w).
Proof.
  intros Hup Hheld Hne Hvalue.
  rewrite getKeyShare_run, Hup, Hheld, Hne, Hvalue. reflexivity.
Qed.

(** The loop of [initializeParties] in front of a store that answers and
    holds a number under the name of every party of [ids]. *)
Lemma initialize_from_store (walletId : string) (shareOf : Z -> Z) (ids : list Z) :
  forall w,
    (forall j, (j < length ids)%nat -> answers w (requests w + j) = true) ->
    (forall i, i ∈ ids ->
       exists text,
         secrets w !! secretName walletId i = Some text
         /\ String.eqb text "" = false
         /\ Hex.toBigInt text = Some (shareOf i)) ->
    forEach ids (initializeParty walletId) w
    = (Ok tt, set_parties (installAll shareOf ids) (count_requests (length ids) w)).
Proof.
  induction ids as [|i rest IH]; intros w Hup Hheld.
  - cbn. rewrite count_requests_0, set_parties_id. reflexivity.
  - rewrite forEach_cons. unfold initializeParty at 1. unfold bind at 1.
    destruct (Hheld i (list_elem_of_here _ _)) as (text & Htext & Hne & Hvalue).
    pose proof (Hup 0%nat ltac:(cbn; lia)) as Hfirst. rewrite Nat.add_0_r in Hfirst.
    rewrite (getKeyShare_stored walletId i (shareOf i) text w Hfirst Htext Hne Hvalue).
    cbn [modify]. rewrite IH.
    + change (installAll shareOf (i :: rest))
        with (fun ps => installAll shareOf rest (<[i := newParty i (shareOf i)]> ps)).
      destruct w. unfold set_parties, count_requests, count_request. cbn.
      do 2 f_equal. lia.
    + intros j Hj. cbn [set_parties count_request answers requests].
      replace (S (requests w) + j)%nat with (requests w + S j)%nat by lia.
      apply Hup. cbn. lia.
    + intros k Hk. cbn [set_parties count_request secrets].
      apply Hheld. right. exact Hk.
Qed.

(** What [performDKG] hands to its loop, and what it answers once the loop
    has returned. *)
Lemma dealt_masterPublicKey (w : World) (threshold totalParties : Z) :
  1 <= threshold ->
  vss_masterPublicKey (dealt w threshold totalParties)
  = Some (pt_mul ec_g (scalarAt (entropy w) (drawn w))).
Proof.
  intros Ht. unfold dealt. cbn [vss_masterPublicKey].
  assert (Hhead : head (coefficientsAt w (Z.to_nat threshold))
                  = Some (scalarAt (entropy w) (drawn w))).
  { apply coefficientsAt_head. lia. }
  destruct (coefficientsAt w (Z.to_nat threshold)) as [|c cs]; [discriminate|].
  cbn in Hhead. injection Hhead as ->. reflexivity.
Qed.

Lemma dealt_shares (w : World) (threshold totalParties : Z) :
  vss_shares (dealt w threshold totalParties)
  = map (fun x => (x, evaluatePolynomial (coefficientsAt w (Z.to_nat threshold)) x))
        (seqZ 1 totalParties).
Proof. reflexivity. Qed.

Lemma dealt_eta (w : World) (threshold totalParties : Z) :
  dealt w threshold totalParties
  = mkVSS (vss_masterPublicKey (dealt w threshold totalParties))
          (vss_shares (dealt w threshold totalParties))
          (vss_commitments (dealt w threshold totalParties)).
Proof. reflexivity. Qed.

Lemma master_key_encodes (secret : Z) :
  0 <= secret < n -> secret <> 0 ->
  exists bytes,
    pt_encode true (pt_mul ec_g secret) = Some bytes
    /\ ec_decodePoint bytes = Some (pt_mul ec_g secret).
Proof.
  intros Hrange Hnz.
  destruct (pt_encode true (pt_mul ec_g secret)) as [bytes|] eqn:Henc.
  - exists bytes. split; [reflexivity|]. eapply ec_decode_encode. exact Henc.
  - apply pt_encode_None, ec_g_order_min in Henc; [contradiction | lia].
Qed.

Lemma length_seqZ_nat (m len : Z) : length (seqZ m len) = Z.to_nat len.
Proof. unfold seqZ. rewrite length_fmap, length_seq. reflexivity. Qed.

End StoredShares.

(* ================================================================== *)
(** ** Key generation in front of the store *)

Section KeyGeneration.

Context `{!Sha256} `{!Curve}.

Lemma take_seqZ_1 (k : nat) (len : Z) :
  (k <= Z.to_nat len)%nat -> take k (seqZ 1 len) = seqZ 1 (Z.of_nat k).
Proof.
  intros Hk. unfold seqZ. rewrite <- fmap_take, take_seq, Nat2Z.id.
  rewrite Nat.min_l by exact Hk. reflexivity.
Qed.

Lemma dealt_verify (w : World) (threshold totalParties : Z) (p s : Z) :
  In (p, s) (vss_shares (dealt w threshold totalParties)) ->
  verifyShare p s (vss_commitments (dealt w threshold totalParties)) = true.
Proof. intros Hin. apply (dealt_shares_verify w threshold totalParties p s Hin). Qed.

Lemma dealt_length (w : World) (threshold totalParties : Z) :
  length (vss_shares (dealt w threshold totalParties)) = Z.to_nat totalParties.
Proof. rewrite dealt_shares, length_map. apply length_seqZ_nat. Qed.

(** The state in which the loop of [performDKG] starts. *)
Definition keysInstalled (w : World) (threshold totalParties : Z) : World :=
  set_keys (vss_masterPublicKey (dealt w threshold totalParties))
           (vss_commitments (dealt w threshold totalParties))
           (advance_entropy (32 * Z.to_nat threshold) w).

(** [performDKG] in front of a store that answers the requests it makes. *)
Lemma performDKG_reachable (walletId : string) (threshold totalParties : Z) (w : World) :
  1 <= threshold ->
  (forall j, (j < Z.to_nat totalParties)%nat -> answers w (requests w + j) = true) ->
  scalarAt (entropy w) (drawn w) <> 0 ->
  exists bytes,
    pt_encode true (pt_mul ec_g (scalarAt (entropy w) (drawn w))) = Some bytes
    /\ ec_decodePoint bytes = Some (pt_mul ec_g (scalarAt (entropy w) (drawn w)))
    /\ performDKG walletId threshold totalParties w
       = (Ok ("0x" +:+ Hex.ofBuffer bytes, seqZ 1 totalParties),
          set_secrets (storeAll walletId (vss_shares (dealt w threshold totalParties)))
            (count_requests (Z.to_nat totalParties)
               (keysInstalled w threshold totalParties))).
Proof.
  intros Ht Hup Hmaster.
  destruct (master_key_encodes (scalarAt (entropy w) (drawn w))
              (scalarAt_range _ _) Hmaster) as (bytes & Henc & Hdec).
  exists bytes. split; [exact Henc|]. split; [exact Hdec|].
  rewrite performDKG_run by exact Ht. cbv zeta.
  fold (keysInstalled w threshold totalParties).
  rewrite (dealt_eta w threshold totalParties) at 1.
  rewrite storeShares_reachable.
  - rewrite dealt_masterPublicKey by exact Ht. cbn [mbind option_bind].
    rewrite Henc, dealt_length, dealt_shares, map_map. cbn [fst].
    rewrite map_id. reflexivity.
  - apply dealt_verify.
  - intros j Hj. rewrite dealt_length in Hj. apply Hup. exact Hj.
Qed.

(** [performDKG] when the store fails at its [k]-th request of the call. *)
Lemma performDKG_outage (walletId : string) (threshold totalParties : Z) (k : nat)
    (w : World) :
  1 <= threshold ->
  (k < Z.to_nat totalParties)%nat ->
  (forall j, (j < k)%nat -> answers w (requests w + j) = true) ->
  answers w (requests w + k) = false ->
  performDKG walletId threshold totalParties w
  = (Throw ServiceUnavailable,
     set_secrets
       (storeAll walletId
          (map (fun x => (x, evaluatePolynomial
                               (coefficientsAt w (Z.to_nat threshold)) x))
               (seqZ 1 (Z.of_nat k))))
       (count_requests (S k) (keysInstalled w threshold totalParties))).
Proof.
  intros Ht Hk Hup Hdown.
  rewrite performDKG_run by exact Ht. cbv zeta.
  fold (keysInstalled w threshold totalParties).
  pose proof (dealt_length w threshold totalParties) as Hlen.
  destruct (lookup_lt_is_Some_2 (vss_shares (dealt w threshold totalParties)) k)
    as [next Hnext]; [lia|].
  pose proof (take_drop_middle _ _ _ Hnext) as Hsplit.
  assert (Htake : take k (vss_shares (dealt w threshold totalParties))
                  = map (fun x => (x, evaluatePolynomial
                                        (coefficientsAt w (Z.to_nat threshold)) x))
                        (seqZ 1 (Z.of_nat k))).
  { rewrite dealt_shares, firstn_map, take_seqZ_1 by lia. reflexivity. }
  assert (Hdone : length (take k (vss_shares (dealt w threshold totalParties))) = k).
  { rewrite length_take. lia. }
  rewrite (dealt_eta w threshold totalParties) at 1. rewrite <- Hsplit at 1.
  rewrite storeShares_outage.
  - rewrite Hdone, Htake. reflexivity.
  - intros p s Hin. rewrite Hsplit in Hin. apply dealt_verify. exact Hin.
  - intros j Hj. rewrite Hdone in Hj. apply Hup. exact Hj.
  - rewrite Hdone. exact Hdown.
Qed.

(** The text under which a non-negative share is stored reads back. *)
Lemma share_text_valid (share : Z) :
  0 <= share ->
  String.eqb (Hex.padStart 64 (Hex.ofBigInt share)) "" = false
  /\ Hex.toBigInt (Hex.padStart 64 (Hex.ofBigInt share)) = Some share.
Proof.
  intros Hs. split;
    [apply ShareText.padStart_nonempty | apply ShareText.toBigInt_padStart; exact Hs].
Qed.

Lemma evaluatePolynomial_nonneg (w : World) (threshold : nat) (x : Z) :
  0 <= x -> 0 <= evaluatePolynomial (coefficientsAt w threshold) x.
Proof.
  intros Hx. rewrite evaluatePolynomial_spec;
    [|apply Forall_range_nonneg, coefficientsAt_range | exact Hx].
  apply Z.mod_pos_bound. pose proof n_positive. lia.
Qed.

(** [generateMPCWallet] in front of a store that answers, for a wallet
    whose shares the store holds once [performDKG] has returned. *)
Lemma generateMPCWallet_run (config : MpcConfig) (walletId : string) (w : World)
    (shareOf : Z -> Z) :
  1 <= threshold config ->
  (forall k, answers w k = true) ->
  scalarAt (entropy w) (drawn w) <> 0 ->
  (forall i, 1 <= i <= nodes config ->
     exists text,
       storeAll walletId (vss_shares (dealt w (threshold config) (nodes config)))
                (secrets w) !! secretName walletId i = Some text
       /\ String.eqb text "" = false
       /\ Hex.toBigInt text = Some (shareOf i)) ->
  exists bytes,
    ec_decodePoint bytes = Some (pt_mul ec_g (scalarAt (entropy w) (drawn w)))
    /\ generateMPCWallet config walletId w
       = (Ok (mkMPCWallet walletId ("0x" +:+ Hex.ofBuffer bytes) (seqZ 1 (nodes config))),
          set_parties (installAll shareOf (seqZ 1 (nodes config)))
            (count_requests (Z.to_nat (nodes config))
               (set_secrets
                  (storeAll walletId
                     (vss_shares (dealt w (threshold config) (nodes config))))
                  (count_requests (Z.to_nat (nodes config))
                     (keysInstalled w (threshold config) (nodes config)))))).
Proof.
  intros Ht Hup Hmaster Hheld.
  destruct (performDKG_reachable walletId (threshold config) (nodes config) w Ht
              (fun j _ => Hup _) Hmaster) as (bytes & _ & Hdec & Hrun).
  exists bytes. split; [exact Hdec|].
  unfold generateMPCWallet. unfold bind at 1. rewrite Hrun.
  unfold bind at 1. unfold initializeParties.
  rewrite (initialize_from_store walletId shareOf).
  - rewrite length_seqZ_nat. reflexivity.
  - intros j _. apply Hup.
  - intros i Hi. apply elem_of_seqZ in Hi. apply Hheld. lia.
Qed.

End KeyGeneration.

(** X5. A share written by [storeKeyShare] under a free name is read back
    by [getKeyShare] as the same number, without any use of the random
    source; a later [storeKeyShare] for the same wallet and party returns
    normally and changes nothing, so the first share is still the one read. *)
Theorem stored_share_reads_back `{!Sha256} `{!Curve}
    (walletId : string) (id share other : Z) (w : World) :
  0 <= share ->
  (forall k, answers w k = true) ->
  secrets w !! secretName walletId id = None ->
  let w1 := snd (storeKeyShare walletId id share w) in
  let w2 := snd (storeKeyShare walletId id other w1) in
  fst (storeKeyShare walletId id share w) = Ok tt
  /\ getKeyShare walletId id w1 = (Ok share, count_request w1)
  /\ fst (storeKeyShare walletId id other w1) = Ok tt
  /\ getKeyShare walletId id w2 = (Ok share, count_request w2).
Proof.
  intros Hshare Hup Hfree. cbv zeta.
  destruct (share_text_valid share Hshare) as [Hne Hvalue].
  rewrite (storeKeyShare_run walletId id share w), Hup, Hfree. cbn [fst snd].
  assert (Hheld : secrets (set_secrets
                             <[secretName walletId id
                               := Hex.padStart 64 (Hex.ofBigInt share)]>
                             (count_request w)) !! secretName walletId id
                  = Some (Hex.padStart 64 (Hex.ofBigInt share))).
  { cbn [set_secrets secrets count_request]. apply lookup_insert_eq. }
  rewrite storeKeyShare_run, Hheld.
  replace (answers _ _) with true by (symmetry; apply Hup).
  cbn [fst snd]. split; [reflexivity|]. split; [|split; [reflexivity|]].
  - apply (getKeyShare_stored walletId id share
             (Hex.padStart 64 (Hex.ofBigInt share)));
      [apply Hup | exact Hheld | exact Hne | exact Hvalue].
  - apply (getKeyShare_stored walletId id share
             (Hex.padStart 64 (Hex.ofBigInt share)));
      [apply Hup | exact Hheld | exact Hne | exact Hvalue].
Qed.

(** The statement of X5 in front of an empty store. *)
Lemma stored_share_reads_back_witness :
  let w1 := snd (storeKeyShare "w" 1 8 (Model.fresh [])) in
  let w2 := snd (storeKeyShare "w" 1 9 w1) in
  fst (storeKeyShare "w" 1 8 (Model.fresh [])) = Ok tt
  /\ getKeyShare "w" 1 w1 = (Ok 8, count_request w1)
  /\ fst (storeKeyShare "w" 1 9 w1) = Ok tt
  /\ getKeyShare "w" 1 w2 = (Ok 8, count_request w2).
Proof.
  apply (stored_share_reads_back "w" 1 8 9 (Model.fresh []));
    [lia | reflexivity | reflexivity].
Defined.

(** X6. [generateMPCWallet] for a wallet that has no share in the store,
    in front of a store that answers, with a positive threshold and a
    master secret that is not zero: it returns the wallet id, the party
    ids [1 .. nodes] and the text of the master public key, which decodes
    to [a_0 * G]; the coordinator's party [i] then holds exactly the share
    [f(i)] that was dealt and stored, and that share verifies against the
    coordinator's commitments. Reading the shares back draws no
    randomness. *)
Theorem generateMPCWallet_installs_dealt_shares `{!Sha256} `{!Curve}
    (config : MpcConfig) (walletId : string) (w : World) :
  1 <= threshold config ->
  (forall k, answers w k = true) ->
  scalarAt (entropy w) (drawn w) <> 0 ->
  (forall i, secrets w !! secretName walletId i = None) ->
  let coefficients := coefficientsAt w (Z.to_nat (threshold config)) in
  let w' := snd (generateMPCWallet config walletId w) in
  exists bytes,
    fst (generateMPCWallet config walletId w)
    = Ok (mkMPCWallet walletId ("0x" +:+ Hex.ofBuffer bytes) (seqZ 1 (nodes config)))
    /\ ec_decodePoint bytes = masterPublicKey w'
    /\ masterPublicKey w' = Some (pt_mul ec_g (scalarAt (entropy w) (drawn w)))
    /\ drawn w' = (drawn w + 32 * Z.to_nat (threshold config))%nat
    /\ forall i, 1 <= i <= nodes config ->
         parties w' !! i = Some (newParty i (evaluatePolynomial coefficients i))
         /\ secrets w' !! secretName walletId i
            = Some (Hex.padStart 64 (Hex.ofBigInt (evaluatePolynomial coefficients i)))
         /\ verifyShare i (evaluatePolynomial coefficients i) (commitments w') = true.
Proof.
  intros Ht Hup Hmaster Hfree. cbv zeta.
  assert (Hstored : forall i, 1 <= i <= nodes config ->
            storeAll walletId (vss_shares (dealt w (threshold config) (nodes config)))
                     (secrets w) !! secretName walletId i
            = Some (Hex.padStart 64
                      (Hex.ofBigInt
                         (evaluatePolynomial
                            (coefficientsAt w (Z.to_nat (threshold config))) i)))).
  { intros i Hi. rewrite dealt_shares, storeAll_lookup, Hfree.
    rewrite decide_True by (apply elem_of_seqZ; lia). reflexivity. }
  destruct (generateMPCWallet_run config walletId w
              (evaluatePolynomial (coefficientsAt w (Z.to_nat (threshold config))))
              Ht Hup Hmaster) as (bytes & Hdec & Hrun).
  { intros i Hi. eexists. split; [apply Hstored; exact Hi|].
    apply share_text_valid, evaluatePolynomial_nonneg. lia. }
  exists bytes. rewrite Hrun. cbn [fst snd]. split; [reflexivity|].
  cbn [set_parties count_requests set_secrets keysInstalled set_keys advance_entropy
       masterPublicKey drawn parties secrets commitments].
  rewrite dealt_masterPublicKey by exact Ht.
  split; [exact Hdec|]. split; [reflexivity|]. split; [reflexivity|].
  intros i Hi. split; [|split].
  - rewrite installAll_lookup, decide_True by (apply elem_of_seqZ; lia). reflexivity.
  - apply Hstored. exact Hi.
  - apply dealt_verify. rewrite dealt_shares.
    apply (in_map (fun x => (x, evaluatePolynomial
                                  (coefficientsAt w (Z.to_nat (threshold config))) x))).
    apply list_elem_of_In, elem_of_seqZ. lia.
Qed.

(** X7. [generateMPCWallet] for a wallet whose shares are already in the
    store: the call returns a newly drawn public key and installs it in the
    coordinator, the store keeps what it held, and the parties are built
    from the shares that were there before, whatever they are: nothing
    relates them to the key that is returned. *)
Theorem generateMPCWallet_on_existing_wallet `{!Sha256} `{!Curve}
    (config : MpcConfig) (walletId : string) (held : Z -> Z) (w : World) :
  1 <= threshold config ->
  (forall k, answers w k = true) ->
  scalarAt (entropy w) (drawn w) <> 0 ->
  (forall i, 1 <= i <= nodes config ->
     0 <= held i
     /\ secrets w !! secretName walletId i
        = Some (Hex.padStart 64 (Hex.ofBigInt (held i)))) ->
  let w' := snd (generateMPCWallet config walletId w) in
  exists bytes,
    fst (generateMPCWallet config walletId w)
    = Ok (mkMPCWallet walletId ("0x" +:+ Hex.ofBuffer bytes) (seqZ 1 (nodes config)))
    /\ ec_decodePoint bytes = Some (pt_mul ec_g (scalarAt (entropy w) (drawn w)))
    /\ masterPublicKey w' = Some (pt_mul ec_g (scalarAt (entropy w) (drawn w)))
    /\ secrets w' = secrets w
    /\ forall i, 1 <= i <= nodes config ->
         parties w' !! i = Some (newParty i (held i)).
Proof.
  intros Ht Hup Hmaster Hheld. cbv zeta.
  assert (Hsame : storeAll walletId
                    (vss_shares (dealt w (threshold config) (nodes config))) (secrets w)
                  = secrets w).
  { apply storeAll_present. intros p s Hin.
    destruct (dealt_shares_verify w _ _ p s Hin) as (Hp & _).
    destruct (Hheld p Hp) as [_ ->]. eauto. }
  destruct (generateMPCWallet_run config walletId w held Ht Hup Hmaster)
    as (bytes & Hdec & Hrun).
  { intros i Hi. destruct (Hheld i Hi) as [Hnonneg Htext].
    eexists. rewrite Hsame. split; [exact Htext|].
    apply share_text_valid. exact Hnonneg. }
  exists bytes. rewrite Hrun. cbn [fst snd]. split; [reflexivity|].
  cbn [set_parties count_requests set_secrets keysInstalled set_keys advance_entropy
       masterPublicKey drawn parties secrets commitments].
  rewrite dealt_masterPublicKey by exact Ht.
  split; [exact Hdec|]. split; [reflexivity|]. split; [exact Hsame|].
  intros i Hi.
  rewrite installAll_lookup, decide_True by (apply elem_of_seqZ; lia). reflexivity.
Qed.

(** X8. When the store fails at the request for share [k + 1] of a new
    wallet, [performDKG] throws that failure, with the call half done: the
    coordinator already holds the new master public key, and the shares of
    the parties [1 .. k] are in the store while the others are not. *)
Theorem performDKG_interrupted_by_outage `{!Sha256} `{!Curve}
    (walletId : string) (threshold totalParties : Z) (k : nat) (w : World) :
  1 <= threshold ->
  (k < Z.to_nat totalParties)%nat ->
  (forall j, (j < k)%nat -> answers w (requests w + j) = true) ->
  answers w (requests w + k) = false ->
  (forall i, secrets w !! secretName walletId i = None) ->
  let coefficients := coefficientsAt w (Z.to_nat threshold) in
  let w' := snd (performDKG walletId threshold totalParties w) in
  fst (performDKG walletId threshold totalParties w) = Throw ServiceUnavailable
  /\ masterPublicKey w' = Some (pt_mul ec_g (scalarAt (entropy w) (drawn w)))
  /\ parties w' = parties w
  /\ forall i,
       secrets w' !! secretName walletId i
       = if decide (1 <= i <= Z.of_nat k)
         then Some (Hex.padStart 64 (Hex.ofBigInt (evaluatePolynomial coefficients i)))
         else None.
Proof.
  intros Ht Hk Hup Hdown Hfree. cbv zeta.
  rewrite (performDKG_outage walletId threshold totalParties k w Ht Hk Hup Hdown).
  cbn [fst snd]. split; [reflexivity|].
  cbn [set_parties count_requests set_secrets keysInstalled set_keys advance_entropy
       masterPublicKey drawn parties secrets commitments].
  rewrite dealt_masterPublicKey by exact Ht.
  split; [reflexivity|]. split; [reflexivity|].
  intros i. rewrite storeAll_lookup, Hfree.
  destruct (decide (1 <= i <= Z.of_nat k)) as [Hin|Hout].
  - rewrite decide_True by (apply elem_of_seqZ; lia). reflexivity.
  - rewrite decide_False; [reflexivity|]. rewrite elem_of_seqZ. lia.
Qed.

(** X9. A retry after such an outage, the store answering again, returns
    a public key for a newly drawn polynomial; but the shares [1 .. k]
    that the interrupted call stored are kept, so the wallet ends up with
    the first [k] shares of the old polynomial and the remaining shares of
    the new one. *)
Theorem performDKG_retry_mixes_shares `{!Sha256} `{!Curve}
    (walletId : string) (threshold totalParties : Z) (k : nat) (w : World) :
  1 <= threshold ->
  (k < Z.to_nat totalParties)%nat ->
  (forall j, j <> k -> answers w (requests w + j) = true) ->
  answers w (requests w + k) = false ->
  (forall i, secrets w !! secretName walletId i = None) ->
  scalarAt (entropy w) (drawn w + 32 * Z.to_nat threshold) <> 0 ->
  let first := performDKG walletId threshold totalParties w in
  let second := performDKG walletId threshold totalParties (snd first) in
  let old := coefficientsAt w (Z.to_nat threshold) in
  let new := coefficientsAt (snd first) (Z.to_nat threshold) in
  fst first = Throw ServiceUnavailable
  /\ (exists publicKey, fst second = Ok (publicKey, seqZ 1 totalParties))
  /\ masterPublicKey (snd second)
     = Some (pt_mul ec_g (scalarAt (entropy w) (drawn w + 32 * Z.to_nat threshold)))
  /\ head new = Some (scalarAt (entropy w) (drawn w + 32 * Z.to_nat threshold))
  /\ forall i, 1 <= i <= totalParties ->
       secrets (snd second) !! secretName walletId i
       = Some (Hex.padStart 64
                 (Hex.ofBigInt
                    (evaluatePolynomial (if decide (i <= Z.of_nat k) then old else new) i))).
Proof.
  intros Ht Hk Hup Hdown Hfree Hmaster. cbv zeta.
  rewrite (performDKG_outage walletId threshold totalParties k w Ht Hk
             (fun j _ => Hup j ltac:(lia)) Hdown).
  cbn [fst snd]. split; [reflexivity|].
  set (w1 := set_secrets _ _).
  assert (Hentropy : entropy w1 = entropy w) by reflexivity.
  assert (Hdrawn : drawn w1 = (drawn w + 32 * Z.to_nat threshold)%nat) by reflexivity.
  assert (Hanswers : forall j, (j < Z.to_nat totalParties)%nat ->
                       answers w1 (requests w1 + j) = true).
  { intros j Hj. unfold w1.
    cbn [set_secrets count_requests keysInstalled set_keys advance_entropy
         answers requests].
    rewrite <- Nat.add_assoc. apply Hup. lia. }
  assert (Hmaster1 : scalarAt (entropy w1) (drawn w1) <> 0).
  { rewrite Hentropy, Hdrawn. exact Hmaster. }
  destruct (performDKG_reachable walletId threshold totalParties w1 Ht Hanswers Hmaster1)
    as (bytes & _ & _ & Hrun).
  rewrite Hrun. cbn [fst snd]. split; [eauto|].
  cbn [set_parties count_requests set_secrets keysInstalled set_keys advance_entropy
       masterPublicKey drawn parties secrets commitments].
  rewrite dealt_masterPublicKey by exact Ht.
  rewrite coefficientsAt_head by lia. rewrite Hentropy, Hdrawn.
  split; [reflexivity|]. split; [reflexivity|].
  intros i Hi. rewrite dealt_shares, storeAll_lookup.
  unfold w1 at 1 2.
  cbn [set_parties count_requests set_secrets keysInstalled set_keys advance_entropy
       masterPublicKey drawn parties secrets commitments].
  rewrite storeAll_lookup, Hfree.
  destruct (decide (i <= Z.of_nat k)) as [Hin|Hout].
  - rewrite decide_True by (apply elem_of_seqZ; lia). reflexivity.
  - rewrite (decide_False (P := i ∈ seqZ 1 (Z.of_nat k)))
      by (rewrite elem_of_seqZ; lia).
    rewrite decide_True by (apply elem_of_seqZ; lia). reflexivity.
Qed.

(* ================================================================== *)
(** ** Signing sessions in closed form *)

Section SigningSessions.

Context `{!Sha256} `{!Curve}.

(** The share of the party stored under [id]. *)
Definition shareAt (w : World) (id : Z) : Z :=
  match parties w !! id with
  | Some p => keyShare p
  | None => 0
  end.

(** The sum of a list of points. *)
Definition sumPoints (ps : list point) : point := fold_right pt_add ec_infinity ps.

Lemma fold_left_pt_add (ps : list point) :
  forall acc, fold_left pt_add ps acc = pt_add acc (sumPoints ps).
Proof.
  induction ps as [|P rest IH]; intros acc; cbn [fold_left sumPoints fold_right].
  - rewrite pt_add_infinity_r. reflexivity.
  - rewrite IH. fold (sumPoints rest). rewrite pt_add_assoc. reflexivity.
Qed.

Lemma pt_add_swap (A B C D : point) :
  pt_add (pt_add A B) (pt_add C D) = pt_add (pt_add A C) (pt_add B D).
Proof.
  rewrite <- (pt_add_assoc A B), (pt_add_assoc B C D), (pt_add_comm B C).
  rewrite <- (pt_add_assoc C B D), (pt_add_assoc A C). reflexivity.
Qed.

(** Multiplication by a scalar distributes over the sum of two points. *)
Lemma pt_mul_add_points (P Q : point) (k : Z) :
  0 <= k -> pt_mul (pt_add P Q) k = pt_add (pt_mul P k) (pt_mul Q k).
Proof.
  revert k. apply natlike_ind.
  - rewrite !pt_mul_0, pt_add_infinity_l. reflexivity.
  - intros k Hk IH. unfold Z.succ. rewrite !pt_mul_succ by exact Hk.
    rewrite IH. apply pt_add_swap.
Qed.

Lemma mapSet_fresh {V} (entries : list (Z * V)) (key : Z) (v : V) :
  key ∉ map fst entries -> mapSet entries key v = entries ++ [(key, v)].
Proof.
  induction entries as [|[k u] rest IH]; intros Hfresh; cbn [mapSet app]; [reflexivity|].
  cbn [map fst] in Hfresh. apply not_elem_of_cons in Hfresh as [Hne Hrest].
  destruct (Z.eqb_spec k key) as [->|_]; [congruence|].
  rewrite IH by exact Hrest. reflexivity.
Qed.

Lemma shareAt_insert_ne (w : World) (id id' : Z) (p : TSSParty) :
  id' <> id -> shareAt (set_parties <[id := p]> w) id' = shareAt w id'.
Proof.
  intros Hne. unfold shareAt. cbn [set_parties parties].
  rewrite lookup_insert_ne by congruence. reflexivity.
Qed.

Lemma commitAll_step (message : list byte) (id : Z) (rest : list Z) (p : TSSParty)
    (w : World) :
  parties w !! id = Some p ->
  set_parties (commitAll message rest) (set_parties <[id := committed message p]> w)
  = set_parties (commitAll message (id :: rest)) w.
Proof.
  intros Hp. destruct w as [ps mk cs sec ans req ent dr]. cbn [parties] in Hp.
  unfold set_parties.
  cbn [parties masterPublicKey commitments secrets answers requests entropy drawn].
  rewrite commitAll_cons, Hp. reflexivity.
Qed.

(** Round 1 up to the first party that was never initialised: the parties
    before it have committed, and the call throws. *)
Lemma round1_missing (message : list byte) (before : list Z) (id : Z) (rest : list Z) :
  forall cs w,
    (forall i, i ∈ before -> is_Some (parties w !! i)) ->
    parties w !! id = None ->
    foldEach (before ++ id :: rest) cs (round1_step message) w
    = (Throw (Error ("Party " +:+ JsNumber.toString id +:+ " not initialized")),
       set_parties (commitAll message before) w).
Proof.
  induction before as [|b before IH]; intros cs w Hall Hid.
  - cbn [app foldEach]. unfold bind. rewrite round1_step_run, Hid.
    change (commitAll message []) with (fun m : gmap Z TSSParty => m).
    rewrite set_parties_id. reflexivity.
  - cbn [app foldEach]. unfold bind. rewrite round1_step_run.
    destruct (Hall b (list_elem_of_here _ _)) as [p Hp]. rewrite Hp.
    rewrite IH.
    + rewrite (commitAll_step message b before p w Hp). reflexivity.
    + intros i Hi. cbn [set_parties parties].
      destruct (decide (i = b)) as [->|Hne].
      * rewrite lookup_insert_eq. eauto.
      * rewrite lookup_insert_ne by congruence. apply Hall. right. exact Hi.
    + cbn [set_parties parties]. rewrite lookup_insert_ne; [exact Hid|].
      intros ->. rewrite Hid in Hp. discriminate.
Qed.

(** Round 1 over distinct, initialised parties: the map it builds, in the
    order of the list. *)
Lemma round1_nodup (message : list byte) (ids : list Z) :
  NoDup ids ->
  forall cs w,
    (forall id, id ∈ ids -> is_Some (parties w !! id)) ->
    (forall id, id ∈ ids -> id ∉ map fst cs) ->
    foldEach ids cs (round1_step message) w
    = (Ok (cs ++ map (fun id => (id, commitmentOf message (newParty id (shareAt w id))))
                     ids),
       set_parties (commitAll message ids) w).
Proof.
  induction 1 as [|id rest Hnotin Hnodup IH]; intros cs w Hall Hfresh.
  - cbn [foldEach map]. rewrite app_nil_r.
    change (commitAll message []) with (fun m : gmap Z TSSParty => m).
    rewrite set_parties_id. reflexivity.
  - cbn [foldEach]. unfold bind. rewrite round1_step_run.
    destruct (Hall id (list_elem_of_here _ _)) as [p Hp]. rewrite Hp.
    rewrite mapSet_fresh by (apply Hfresh, list_elem_of_here).
    rewrite IH.
    + rewrite (commitAll_step message id rest p w Hp), <- app_assoc.
      cbn [app map].
      rewrite (commitmentOf_share message p (newParty id (shareAt w id)))
        by (unfold shareAt; rewrite Hp; reflexivity).
      assert (Hmap : map (fun id' =>
                            (id', commitmentOf message
                                    (newParty id'
                                       (shareAt (set_parties <[id := committed message p]> w)
                                                id')))) rest
                     = map (fun id' => (id', commitmentOf message
                                               (newParty id' (shareAt w id')))) rest).
      { apply map_ext_in. intros id' Hin. apply list_elem_of_In in Hin.
        rewrite shareAt_insert_ne; [reflexivity|]. intros ->. contradiction. }
      rewrite Hmap. reflexivity.
    + intros id' Hin. cbn [set_parties parties].
      rewrite lookup_insert_ne by (intros ->; contradiction).
      apply Hall. right. exact Hin.
    + intros id' Hin. rewrite map_app. cbn [map fst].
      intros Hmem. apply elem_of_app in Hmem as [Hmem|Hmem].
      * exact (Hfresh id' (list_elem_of_further _ _ _ Hin) Hmem).
      * apply list_elem_of_singleton in Hmem. subst id'. contradiction.
Qed.

(** Round 2 over such a map, every party having committed: the sum of the
    ephemeral points. *)
Lemma round2_loop_sum (message : list byte) (w w' : World) (ids : list Z) :
  (forall id, id ∈ ids ->
     exists p, parties w' !! id = Some (committed message p)
               /\ keyShare p = shareAt w id) ->
  forall acc,
    foldEach (map (fun id => (id, commitmentOf message (newParty id (shareAt w id)))) ids)
             acc round2_step w'
    = (Ok (fold_left pt_add
             (map (fun id => pt_mul ec_g (nonceOf (shareAt w id) message)) ids) acc),
       w').
Proof.
  induction ids as [|id rest IH]; intros Hall acc; [reflexivity|].
  cbn [map foldEach fold_left]. unfold bind at 1.
  destruct (Hall id (list_elem_of_here _ _)) as (p & Hp & Hshare).
  assert (Hstep : round2_step acc
                    (id, commitmentOf message (newParty id (shareAt w id))) w'
                  = (Ok (pt_add acc (pt_mul ec_g (nonceOf (shareAt w id) message))), w')).
  { destruct (own_commitment_verifies message p) as [Hverify Hdecode].
    rewrite (commitmentOf_share message (newParty id (shareAt w id)) p)
      by (symmetry; exact Hshare).
    destruct (commitmentOf message p) as [commitment publicEphemeral].
    cbn [snd] in Hverify, Hdecode.
    unfold round2_step. run_monad. rewrite Hp, Hverify, Hdecode, Hshare. reflexivity. }
  rewrite Hstep. apply IH. intros id' Hin. apply Hall. right. exact Hin.
Qed.

Lemma committed_lookup (message : list byte) (ids : list Z) (w : World) (id : Z) :
  id ∈ ids -> is_Some (parties w !! id) ->
  exists p, parties w !! id = Some p
            /\ parties (set_parties (commitAll message ids) w) !! id
               = Some (committed message p)
            /\ keyShare p = shareAt w id.
Proof.
  intros Hin [p Hp]. exists p. split; [exact Hp|]. split.
  - cbn [set_parties parties]. rewrite commitAll_lookup, decide_True, Hp by exact Hin.
    reflexivity.
  - unfold shareAt. rewrite Hp. reflexivity.
Qed.

(** The partial signature of a party that has committed. *)
Definition partialFor (message : list byte) (w : World) (id : Z) : Z :=
  (nonceOf (shareAt w id) message + (hashValue message mod n) * shareAt w id) mod n.

Lemma partialAt_committed (message : list byte) (ids : list Z) (w : World) (id : Z) :
  id ∈ ids -> is_Some (parties w !! id) -> 0 <= shareAt w id ->
  partialAt message (set_parties (commitAll message ids) w) id = partialFor message w id.
Proof.
  intros Hin Hsome Hshare.
  destruct (committed_lookup message ids w id Hin Hsome) as (p & Hp & Hcommitted & Hkey).
  unfold partialAt, partialFor. rewrite Hcommitted. unfold partialOf.
  destruct (committed_fields message p) as (_ & Hs & Hk & _). rewrite Hk, Hs, Hkey.
  pose proof n_positive as Hn. pose proof (hashValue_nonneg message) as Hh.
  pose proof (nonceOf_range (shareAt w id) message) as Hnonce.
  rewrite (Z.rem_mod_nonneg (hashValue message)) by lia.
  pose proof (Z.mod_pos_bound (hashValue message) n ltac:(lia)).
  apply Z.rem_mod_nonneg; nia.
Qed.

(** A session over distinct, initialised parties, in closed form. *)
Lemma signWithTSS_nodup_run (walletId : string) (message : list byte) (ids : list Z)
    (w : World) :
  NoDup ids -> ids <> [] ->
  (forall id, id ∈ ids -> is_Some (parties w !! id)) ->
  signWithTSS walletId message ids w
  = (match pt_getX (sumPoints
                      (map (fun id => pt_mul ec_g (nonceOf (shareAt w id) message)) ids)) with
     | Some x =>
         Ok (mkSignature
               (Hex.padStart 64 (Hex.ofBigInt x))
               (Hex.padStart 64
                  (Hex.ofBigInt
                     (aggregateS
                        (map (fun id =>
                                (id,
                                 partialAt message (set_parties (commitAll message ids) w) id,
                                 Hex.padStart 64 (Hex.ofBigInt x))) ids))))
               "Threshold Signatures (Feldman VSS DKG + Multi-round Protocol)")
     | None => Throw TypeError
     end,
     set_parties (commitAll message ids) w).
Proof.
  intros Hnodup Hne Hall.
  set (w1 := set_parties (commitAll message ids) w).
  set (R := sumPoints (map (fun id => pt_mul ec_g (nonceOf (shareAt w id) message)) ids)).
  assert (Hround1 : round1 message ids w
                    = (Ok (map (fun id => (id, commitmentOf message
                                                 (newParty id (shareAt w id)))) ids), w1)).
  { unfold round1. rewrite (round1_nodup message ids Hnodup [] w Hall).
    - reflexivity.
    - intros id _. apply not_elem_of_nil. }
  assert (Hround2 : round2 (map (fun id => (id, commitmentOf message
                                                  (newParty id (shareAt w id)))) ids) w1
                    = match pt_getX R with
                      | Some _ => (Ok R, w1)
                      | None => (Throw TypeError, w1)
                      end).
  { unfold round2. unfold bind at 1.
    rewrite (round2_loop_sum message w w1 ids).
    - rewrite fold_left_pt_add, pt_add_infinity_l. fold R. run_monad.
      destruct (pt_getX R); reflexivity.
    - intros id Hin.
      destruct (committed_lookup message ids w id Hin (Hall id Hin)) as (p & _ & Hc & Hk).
      eauto. }
  assert (Hround3 : forall x, pt_getX R = Some x ->
            round3 message ids R w1
            = (Ok (map (fun id => (id, partialAt message w1 id,
                                   Hex.padStart 64 (Hex.ofBigInt x))) ids), w1)).
  { intros x Hx. unfold round3.
    rewrite (round3_returns message R x w1 ids Hx); [reflexivity|].
    intros id Hin.
    destruct (committed_lookup message ids w id Hin (Hall id Hin)) as (p & _ & Hc & _).
    exists (committed message p), (nonceOf (keyShare p) message).
    destruct (committed_fields message p) as (_ & _ & Hk & _).
    split; [exact Hc|]. split; [exact Hk|].
    pose proof (nonceOf_range (keyShare p) message). lia. }
  unfold signWithTSS, bind. rewrite Hround1, Hround2.
  destruct (pt_getX R) as [x|] eqn:Hx; [|reflexivity].
  rewrite (Hround3 x eq_refl), round4_run.
  destruct ids as [|id rest]; [congruence|]. reflexivity.
Qed.

(** The sum of the partial signatures, seen in the group. *)
Lemma partial_sum_point (message : list byte) (w : World) (r : string) (ids : list Z) :
  (forall id, id ∈ ids -> 0 <= shareAt w id) ->
  0 <= sumPartials (map (fun id => (id, partialFor message w id, r)) ids)
  /\ pt_mul ec_g (sumPartials (map (fun id => (id, partialFor message w id, r)) ids))
     = pt_add
         (sumPoints (map (fun id => pt_mul ec_g (nonceOf (shareAt w id) message)) ids))
         (pt_mul (sumPoints (map (fun id => pt_mul ec_g (shareAt w id)) ids))
                 (hashValue message mod n)).
Proof.
  pose proof n_positive as Hn. pose proof (hashValue_nonneg message) as Hh.
  pose proof (Z.mod_pos_bound (hashValue message) n ltac:(lia)) as He.
  induction ids as [|id rest IH]; intros Hshares.
  - cbn. split; [lia|]. rewrite pt_mul_0, pt_add_infinity_l.
    rewrite pt_mul_infinity by lia. reflexivity.
  - destruct IH as [Hnonneg Hsum].
    { intros id' Hin. apply Hshares. right. exact Hin. }
    pose proof (Hshares id (list_elem_of_here _ _)) as Hshare.
    pose proof (nonceOf_range (shareAt w id) message) as Hnonce.
    assert (Hpartial : 0 <= partialFor message w id < n).
    { unfold partialFor. apply Z.mod_pos_bound. lia. }
    cbn [map sumPartials fold_right sumPoints fst snd].
    fold (sumPartials (map (fun id => (id, partialFor message w id, r)) rest)).
    fold (sumPoints (map (fun id => pt_mul ec_g (nonceOf (shareAt w id) message)) rest)).
    fold (sumPoints (map (fun id => pt_mul ec_g (shareAt w id)) rest)).
    split; [lia|].
    rewrite pt_mul_add by lia. rewrite Hsum.
    rewrite pt_mul_add_points by lia.
    unfold partialFor at 1. rewrite pt_mul_mod by nia.
    rewrite pt_mul_add by nia.
    rewrite (pt_mul_mul ec_g (shareAt w id) (hashValue message mod n)) by lia.
    rewrite (Z.mul_comm (shareAt w id)).
    apply pt_add_swap.
Qed.



(** A text that starts with the hexadecimal form of a buffer and goes on
    with a character that is no hexadecimal digit decodes to the buffer. *)
Lemma toBuffer_stops (buf : list byte) (c : ascii) (rest : string) :
  Hex.value c = None ->
  Hex.toBuffer (Hex.ofBuffer buf +:+ String c rest) = buf.
Proof.
  intros Hc. induction buf as [|b buf IH].
  - cbn [Hex.ofBuffer]. change ("" +:+ String c rest) with (String c rest).
    cbn [Hex.toBuffer]. rewrite Hc. destruct rest; reflexivity.
  - pose proof (HexFacts.toBuffer_ofBuffer [b]) as Hone.
    cbn [Hex.ofBuffer] in *.
    change (String ?x (String ?y (Hex.ofBuffer buf)) +:+ String c rest)
      with (String x (String y (Hex.ofBuffer buf +:+ String c rest))).
    cbn [Hex.toBuffer] in *.
    destruct (Hex.value (Hex.digit (Byte.to_N b / 16))) as [h|]; [|discriminate].
    destruct (Hex.value (Hex.digit (Byte.to_N b mod 16))) as [l|]; [|discriminate].
    destruct (Byte.of_N (16 * h + l)) as [x|]; [|discriminate].
    injection Hone as ->. rewrite IH. reflexivity.
Qed.

End SigningSessions.

Section SessionOutcomes.

Context `{!Sha256} `{!Curve}.

Lemma signWithTSS_empty (walletId : string) (message : list byte) (w : World) :
  signWithTSS walletId message [] w = (Throw TypeError, w).
Proof.
  assert (Hnone : pt_getX ec_infinity = None) by (apply pt_getX_None; reflexivity).
  unfold signWithTSS, round1, round2. cbn [foldEach]. run_monad. cbn [foldEach].
  run_monad. rewrite Hnone. reflexivity.
Qed.

(** The outcome of a session over distinct parties that hold non-negative
    shares: it fails on the point at infinity and on nothing else. *)
Lemma signWithTSS_nodup_outcome (walletId : string) (message : list byte)
    (ids : list Z) (w : World) :
  NoDup ids -> ids <> [] ->
  (forall id, id ∈ ids -> is_Some (parties w !! id)) ->
  (forall id, id ∈ ids -> 0 <= shareAt w id) ->
  let R := sumPoints (map (fun id => pt_mul ec_g (nonceOf (shareAt w id) message)) ids) in
  (pt_getX R = None /\ fst (signWithTSS walletId message ids w) = Throw TypeError)
  \/ exists x s,
       pt_getX R = Some x /\ 0 <= x /\ 0 <= s < n
       /\ s = sumPartials
                (map (fun id => (id, partialFor message w id,
                                 Hex.padStart 64 (Hex.ofBigInt x))) ids) mod n
       /\ fst (signWithTSS walletId message ids w)
          = Ok (mkSignature
                  (Hex.padStart 64 (Hex.ofBigInt x))
                  (Hex.padStart 64 (Hex.ofBigInt s))
                  "Threshold Signatures (Feldman VSS DKG + Multi-round Protocol)").
Proof.
  intros Hnodup Hne Hall Hshares. cbv zeta.
  rewrite (signWithTSS_nodup_run walletId message ids w Hnodup Hne Hall). cbn [fst].
  destruct (pt_getX (sumPoints _)) as [x|] eqn:Hx; [right | left; auto].
  assert (Hmap : map (fun id => (id, partialAt message
                                       (set_parties (commitAll message ids) w) id,
                                 Hex.padStart 64 (Hex.ofBigInt x))) ids
                 = map (fun id => (id, partialFor message w id,
                                   Hex.padStart 64 (Hex.ofBigInt x))) ids).
  { apply map_ext_in. intros id Hin. apply list_elem_of_In in Hin.
    rewrite (partialAt_committed message ids w id Hin (Hall id Hin) (Hshares id Hin)).
    reflexivity. }
  rewrite Hmap. rewrite aggregateS_sum.
  - eexists x, _. split; [reflexivity|].
    split; [exact (pt_getX_range _ _ Hx)|].
    split; [apply Z.mod_pos_bound; pose proof n_positive; lia|].
    split; reflexivity.
  - apply Forall_forall. intros entry Hin. apply list_elem_of_In, in_map_iff in Hin.
    destruct Hin as (id & <- & _). cbn [fst snd]. unfold partialFor.
    apply Z.mod_pos_bound. pose proof n_positive. lia.
Qed.

End SessionOutcomes.

(** A store that fails at its second request and answers every other
    one, in front of a fresh coordinator. *)
Definition flakyWorld : World :=
  mkWorld ∅ None [] ∅ (fun k => negb (Nat.eqb k 1)) 0
          (Model.entropyOf [5; 3; 7; 2]) 0.

(** The statement of X6 for the first wallet of a fresh coordinator. *)
Lemma generateMPCWallet_installs_dealt_shares_witness :
  let w := Model.fresh [5; 3] in
  let coefficients := coefficientsAt w (Z.to_nat (threshold defaultMpcConfig)) in
  let w' := snd (generateMPCWallet defaultMpcConfig "w2" w) in
  exists bytes,
    fst (generateMPCWallet defaultMpcConfig "w2" w)
    = Ok (mkMPCWallet "w2" ("0x" +:+ Hex.ofBuffer bytes) (seqZ 1 (nodes defaultMpcConfig)))
    /\ ec_decodePoint bytes = masterPublicKey w'
    /\ masterPublicKey w' = Some (pt_mul ec_g (scalarAt (entropy w) (drawn w)))
    /\ drawn w' = (drawn w + 32 * Z.to_nat (threshold defaultMpcConfig))%nat
    /\ forall i, 1 <= i <= nodes defaultMpcConfig ->
         parties w' !! i = Some (newParty i (evaluatePolynomial coefficients i))
         /\ secrets w' !! secretName "w2" i
            = Some (Hex.padStart 64 (Hex.ofBigInt (evaluatePolynomial coefficients i)))
         /\ verifyShare i (evaluatePolynomial coefficients i) (commitments w') = true.
Proof.
  apply (generateMPCWallet_installs_dealt_shares defaultMpcConfig "w2" (Model.fresh [5; 3])).
  - cbn. lia.
  - intros k. reflexivity.
  - vm_compute. discriminate.
  - intros i. apply lookup_empty.
Defined.

(** The statement of X7 for the wallet of the scenario, generated again:
    the store holds the shares [5 + 3 i]. *)
Lemma generateMPCWallet_on_existing_wallet_witness :
  let w' := snd (generateMPCWallet defaultMpcConfig "w2" Scenario.dealtWorld) in
  exists bytes,
    fst (generateMPCWallet defaultMpcConfig "w2" Scenario.dealtWorld)
    = Ok (mkMPCWallet "w2" ("0x" +:+ Hex.ofBuffer bytes) (seqZ 1 (nodes defaultMpcConfig)))
    /\ ec_decodePoint bytes
       = Some (pt_mul ec_g (scalarAt (entropy Scenario.dealtWorld)
                                     (drawn Scenario.dealtWorld)))
    /\ masterPublicKey w'
       = Some (pt_mul ec_g (scalarAt (entropy Scenario.dealtWorld)
                                     (drawn Scenario.dealtWorld)))
    /\ secrets w' = secrets Scenario.dealtWorld
    /\ forall i, 1 <= i <= nodes defaultMpcConfig ->
         parties w' !! i = Some (newParty i (5 + 3 * i)).
Proof.
  apply (generateMPCWallet_on_existing_wallet defaultMpcConfig "w2"
           (fun i => 5 + 3 * i) Scenario.dealtWorld).
  - cbn. lia.
  - intros k. vm_compute. reflexivity.
  - vm_compute. discriminate.
  - intros i Hi. cbn in Hi. split; [lia|].
    assert (Hcases : i = 1 \/ i = 2 \/ i = 3) by lia.
    destruct Hcases as [->|[->| ->]]; vm_compute; reflexivity.
Defined.

(** The statement of X8 for a 2-of-3 wallet and the store that fails at
    its second request. *)
Lemma performDKG_interrupted_by_outage_witness :
  let coefficients := coefficientsAt flakyWorld (Z.to_nat 2) in
  let w' := snd (performDKG "w2" 2 3 flakyWorld) in
  fst (performDKG "w2" 2 3 flakyWorld) = Throw ServiceUnavailable
  /\ masterPublicKey w'
     = Some (pt_mul ec_g (scalarAt (entropy flakyWorld) (drawn flakyWorld)))
  /\ parties w' = parties flakyWorld
  /\ forall i,
       secrets w' !! secretName "w2" i
       = if decide (1 <= i <= Z.of_nat 1)
         then Some (Hex.padStart 64 (Hex.ofBigInt (evaluatePolynomial coefficients i)))
         else None.
Proof.
  apply (performDKG_interrupted_by_outage "w2" 2 3 1 flakyWorld).
  - lia.
  - cbn. lia.
  - intros j Hj. assert (j = 0%nat) as -> by lia. reflexivity.
  - reflexivity.
  - intros i. apply lookup_empty.
Defined.

(** The statement of X9 for the same wallet and store. *)
Lemma performDKG_retry_mixes_shares_witness :
  let first := performDKG "w2" 2 3 flakyWorld in
  let second := performDKG "w2" 2 3 (snd first) in
  let old := coefficientsAt flakyWorld (Z.to_nat 2) in
  let new := coefficientsAt (snd first) (Z.to_nat 2) in
  fst first = Throw ServiceUnavailable
  /\ (exists publicKey, fst second = Ok (publicKey, seqZ 1 3))
  /\ masterPublicKey (snd second)
     = Some (pt_mul ec_g (scalarAt (entropy flakyWorld)
                                   (drawn flakyWorld + 32 * Z.to_nat 2)))
  /\ head new = Some (scalarAt (entropy flakyWorld) (drawn flakyWorld + 32 * Z.to_nat 2))
  /\ forall i, 1 <= i <= 3 ->
       secrets (snd second) !! secretName "w2" i
       = Some (Hex.padStart 64
                 (Hex.ofBigInt
                    (evaluatePolynomial (if decide (i <= Z.of_nat 1) then old else new) i))).
Proof.
  apply (performDKG_retry_mixes_shares "w2" 2 3 1 flakyWorld).
  - lia.
  - cbn. lia.
  - intros j Hj. cbn [flakyWorld answers requests]. cbn [Nat.add].
    destruct j as [|[|j]]; [reflexivity | congruence | reflexivity].
  - reflexivity.
  - intros i. apply lookup_empty.
  - vm_compute. discriminate.
Defined.

(** X10. [signWithTSS] fails at the first signing party that was never
    initialised, with the message that names it, the id being printed as
    JavaScript prints a number; by then Round 1 has run for the parties
    listed before it, which keep the ephemeral key and the commitment they
    derived, and no other party has changed. *)
Theorem signWithTSS_stops_at_missing_party `{!Sha256} `{!Curve}
    (walletId : string) (message : list byte) (before : list Z) (id : Z)
    (rest : list Z) (w : World) :
  (forall i, i ∈ before -> is_Some (parties w !! i)) ->
  parties w !! id = None ->
  let outcome := signWithTSS walletId message (before ++ id :: rest) w in
  fst outcome = Throw (Error ("Party " +:+ JsNumber.toString id +:+ " not initialized"))
  /\ forall i,
       parties (snd outcome) !! i
       = if decide (i ∈ before) then committed message <$> parties w !! i
         else parties w !! i.
Proof.
  intros Hall Hid. cbv zeta.
  assert (Hrun : signWithTSS walletId message (before ++ id :: rest) w
                 = (Throw (Error ("Party " +:+ JsNumber.toString id +:+ " not initialized")),
                    set_parties (commitAll message before) w)).
  { unfold signWithTSS, round1. unfold bind at 1.
    rewrite (round1_missing message before id rest [] w Hall Hid). reflexivity. }
  rewrite Hrun. cbn [fst snd].
  split; [reflexivity|]. intros i. cbn [set_parties parties]. apply commitAll_lookup.
Qed.

(** The statement of X10 on the coordinator of the scenario, whose parties
    are 1, 2 and 3, for the signing list [1; 2; 10^21]. *)
Lemma signWithTSS_stops_at_missing_party_witness :
  let outcome :=
    signWithTSS "w2" Scenario.message ([1; 2] ++ 10 ^ 21 :: []) Scenario.readyWorld in
  fst outcome = Throw (Error "Party 1e+21 not initialized")
  /\ forall i,
       parties (snd outcome) !! i
       = if decide (i ∈ [1; 2])
         then committed Scenario.message <$> parties Scenario.readyWorld !! i
         else parties Scenario.readyWorld !! i.
Proof.
  apply (signWithTSS_stops_at_missing_party "w2" Scenario.message [1; 2] (10 ^ 21) []
           Scenario.readyWorld).
  - intros i Hi. apply elem_of_cons in Hi as [->|Hi];
      [|apply list_elem_of_singleton in Hi as ->]; vm_compute; eauto.
  - vm_compute. reflexivity.
Defined.

(** X11. With an empty list of signing parties [signWithTSS] throws: the
    aggregated point is the point at infinity, whose x-coordinate cannot be
    read. No party and nothing else of the coordinator changes. *)
Theorem signWithTSS_rejects_empty_list `{!Sha256} `{!Curve}
    (walletId : string) (message : list byte) (w : World) :
  signWithTSS walletId message [] w = (Throw TypeError, w).
Proof. apply signWithTSS_empty. Qed.

(** X12. The signature of a session over distinct parties with
    non-negative shares satisfies, in the group, [s * G = R + e * Y]:
    [R] is the sum of the parties' ephemeral points, whose x-coordinate is
    [r]; [Y] is the sum of the points [x_i * G] of the shares that signed;
    [e] is the message hash modulo [n]; and [s], a number of [0, n), is
    written on 64 hexadecimal characters that read back as [s]. *)
Theorem signWithTSS_signature_equation `{!Sha256} `{!Curve}
    (walletId : string) (message : list byte) (ids : list Z) (w : World)
    (sig : Signature) :
  NoDup ids ->
  (forall id, id ∈ ids -> 0 <= shareAt w id) ->
  fst (signWithTSS walletId message ids w) = Ok sig ->
  let e := hashValue message mod n in
  let R := sumPoints (map (fun id => pt_mul ec_g (nonceOf (shareAt w id) message)) ids) in
  let Y := sumPoints (map (fun id => pt_mul ec_g (shareAt w id)) ids) in
  exists x s,
    pt_getX R = Some x
    /\ sig_r sig = Hex.padStart 64 (Hex.ofBigInt x)
    /\ 0 <= s < n
    /\ sig_s sig = Hex.padStart 64 (Hex.ofBigInt s)
    /\ String.length (sig_s sig) = 64%nat
    /\ Hex.toBigInt (sig_s sig) = Some s
    /\ pt_mul ec_g s = pt_add R (pt_mul Y e).
Proof.
  intros Hnodup Hshares Hok. cbv zeta.
  assert (Hne : ids <> []).
  { intros ->. rewrite signWithTSS_empty in Hok. discriminate. }
  assert (Hall : forall id, id ∈ ids -> is_Some (parties w !! id)).
  { destruct (signWithTSS_state walletId message ids w) as (done & res & Hrun & _ & Hres).
    rewrite Hrun in Hok. cbn [fst] in Hok. apply (Hres sig Hok). }
  destruct (signWithTSS_nodup_outcome walletId message ids w Hnodup Hne Hall Hshares)
    as [[_ Hthrow]|(x & s & Hx & _ & Hs & Hsum & Hsig)].
  { rewrite Hthrow in Hok. discriminate. }
  rewrite Hsig in Hok. injection Hok as <-. cbn [sig_r sig_s].
  exists x, s. split; [exact Hx|]. split; [reflexivity|]. split; [exact Hs|].
  split; [reflexivity|].
  split; [apply ShareText.padStart_length; pose proof n_below_2_256; lia|].
  split; [apply ShareText.toBigInt_padStart; lia|].
  destruct (partial_sum_point message w (Hex.padStart 64 (Hex.ofBigInt x)) ids Hshares)
    as [Hnonneg Hpoint].
  rewrite Hsum, pt_mul_mod by exact Hnonneg. exact Hpoint.
Qed.

(** The statement of X12 for the session of the scenario: the parties 1
    and 2, with the shares 8 and 11, sign the scenario's message. *)
Lemma signWithTSS_signature_equation_witness :
  let w := Scenario.readyWorld in
  let e := hashValue Scenario.message mod n in
  let R := sumPoints (map (fun id => pt_mul ec_g (nonceOf (shareAt w id) Scenario.message))
                          [1; 2]) in
  let Y := sumPoints (map (fun id => pt_mul ec_g (shareAt w id)) [1; 2]) in
  exists x s,
    pt_getX R = Some x
    /\ sig_r (mkSignature
                "000000000000000000000000000000000000000000000000000000000000000e"
                "0000000000000000000000000000000000000000000000000000000000000093"
                "Threshold Signatures (Feldman VSS DKG + Multi-round Protocol)")
       = Hex.padStart 64 (Hex.ofBigInt x)
    /\ 0 <= s < n
    /\ sig_s (mkSignature
                "000000000000000000000000000000000000000000000000000000000000000e"
                "0000000000000000000000000000000000000000000000000000000000000093"
                "Threshold Signatures (Feldman VSS DKG + Multi-round Protocol)")
       = Hex.padStart 64 (Hex.ofBigInt s)
    /\ String.length
         (sig_s (mkSignature
                   "000000000000000000000000000000000000000000000000000000000000000e"
                   "0000000000000000000000000000000000000000000000000000000000000093"
                   "Threshold Signatures (Feldman VSS DKG + Multi-round Protocol)"))
       = 64%nat
    /\ Hex.toBigInt
         (sig_s (mkSignature
                   "000000000000000000000000000000000000000000000000000000000000000e"
                   "0000000000000000000000000000000000000000000000000000000000000093"
                   "Threshold Signatures (Feldman VSS DKG + Multi-round Protocol)"))
       = Some s
    /\ pt_mul ec_g s = pt_add R (pt_mul Y e).
Proof.
  apply (signWithTSS_signature_equation "w2" Scenario.message [1; 2] Scenario.readyWorld).
  - apply NoDup_cons_2; [|apply NoDup_singleton].
    intros Hin. apply list_elem_of_singleton in Hin. discriminate.
  - intros id Hi. apply elem_of_cons in Hi as [->|Hi];
      [|apply list_elem_of_singleton in Hi as ->]; vm_compute; discriminate.
  - vm_compute. reflexivity.
Defined.

(** X13. [TSSParty.verifyCommitment] compares hashes and nothing else: a
    party on which Round 1 never ran rejects every text; a party that has
    committed accepts a text exactly when the bytes it decodes to have the
    hash of the party's own encoded point. It therefore accepts its own
    decommitment, and also that decommitment followed by anything that
    starts with a character that is not a hexadecimal digit, since decoding
    stops there. *)
Theorem verifyCommitment_compares_hashes `{!Sha256} `{!Curve}
    (message : list byte) (p : TSSParty) (decommitment : string) :
  let own := snd (commitmentOf message p) in
  (forall id share, verifyCommitment (newParty id share) decommitment = false)
  /\ (verifyCommitment (committed message p) decommitment = true
      <-> sha256 (Hex.toBuffer decommitment) = sha256 (Hex.toBuffer own))
  /\ verifyCommitment (committed message p) own = true
  /\ (forall c rest,
        Hex.value c = None ->
        verifyCommitment (committed message p) (own +:+ String c rest) = true).
Proof.
  cbv zeta.
  assert (Hiff : forall d,
            verifyCommitment (committed message p) d = true
            <-> sha256 (Hex.toBuffer d)
                = sha256 (Hex.toBuffer (snd (commitmentOf message p)))).
  { intros d. unfold committed, commitmentOf.
    destruct (generateCommitment_run message p) as (bytes & _ & ->). cbn [fst snd].
    unfold verifyCommitment. cbn [ephemeralCommitment].
    rewrite ofBuffer_sha256_nonempty, HexFacts.toBuffer_ofBuffer, String.eqb_eq.
    split; [|intros ->; reflexivity].
    intros Heq. apply (f_equal Hex.toBuffer) in Heq.
    rewrite !HexFacts.toBuffer_ofBuffer in Heq. exact Heq. }
  split; [reflexivity|]. split; [apply Hiff|].
  split; [apply Hiff; reflexivity|].
  intros c rest Hc. apply Hiff. f_equal.
  unfold commitmentOf.
  destruct (generateCommitment_run message p) as (bytes & _ & ->). cbn [fst snd].
  rewrite toBuffer_stops by exact Hc. rewrite HexFacts.toBuffer_ofBuffer. reflexivity.
Qed.



Section KeyGenerationOutcomes.

Context `{!Sha256} `{!Curve}.

(** A bounded sequence of answers either holds throughout or has a first
    failure. *)
Lemma first_failure (f : nat -> bool) (bound : nat) :
  (forall j, (j < bound)%nat -> f j = true)
  \/ exists k, (k < bound)%nat /\ f k = false /\ forall j, (j < k)%nat -> f j = true.
Proof.
  induction bound as [|bound IH].
  - left. intros j Hj. lia.
  - destruct IH as [Hall|(k & Hk & Hfalse & Hbefore)].
    + destruct (f bound) eqn:Hlast.
      * left. intros j Hj. destruct (decide (j = bound)) as [->|Hne]; [exact Hlast|].
        apply Hall. lia.
      * right. exists bound. split; [lia|]. split; [exact Hlast|]. exact Hall.
    + right. exists k. split; [lia|]. split; [exact Hfalse | exact Hbefore].
Qed.

Lemma performDKG_nonpositive_threshold (walletId : string) (threshold totalParties : Z)
    (w : World) :
  threshold <= 0 ->
  performDKG walletId threshold totalParties w = (Throw TypeError, w).
Proof.
  intros Ht. unfold performDKG. unfold bind at 1.
  rewrite (generateShares_throws threshold totalParties w Ht). reflexivity.
Qed.

(** With a master secret that is zero the master public key is the point
    at infinity, which has no encoding: the call cannot return. *)
Lemma performDKG_zero_master (walletId : string) (threshold totalParties : Z) (w : World) :
  1 <= threshold ->
  scalarAt (entropy w) (drawn w) = 0 ->
  performDKG walletId threshold totalParties w
  = match storeShares walletId (dealt w threshold totalParties)
            (keysInstalled w threshold totalParties) with
    | (Ok _, w') => (Throw TypeError, w')
    | (Throw e, w') => (Throw e, w')
    end
  /\ vss_masterPublicKey (dealt w threshold totalParties) = Some ec_infinity.
Proof.
  intros Ht Hzero.
  assert (Hmaster : vss_masterPublicKey (dealt w threshold totalParties)
                    = Some ec_infinity).
  { rewrite dealt_masterPublicKey by exact Ht. rewrite Hzero, pt_mul_0. reflexivity. }
  split; [|exact Hmaster].
  rewrite performDKG_run by exact Ht. cbv zeta.
  fold (keysInstalled w threshold totalParties).
  destruct (storeShares walletId _ _) as [[[]|e] w']; [|reflexivity].
  rewrite Hmaster. cbn [mbind option_bind].
  assert (Hnone : pt_encode true ec_infinity = None) by (apply pt_encode_None; reflexivity).
  rewrite Hnone. reflexivity.
Qed.

End KeyGenerationOutcomes.

(** X15. With a threshold that is not positive no coefficient is drawn,
    the master secret is undefined and [performDKG] throws a [TypeError]
    before anything is drawn, installed or stored; so does
    [generateMPCWallet] under a configuration with such a threshold. *)
Theorem performDKG_rejects_nonpositive_threshold `{!Sha256} `{!Curve}
    (config : MpcConfig) (walletId : string) (w : World) :
  threshold config <= 0 ->
  performDKG walletId (threshold config) (nodes config) w = (Throw TypeError, w)
  /\ generateMPCWallet config walletId w = (Throw TypeError, w).
Proof.
  intros Ht.
  pose proof (performDKG_nonpositive_threshold walletId _ (nodes config) w Ht) as Hrun.
  split; [exact Hrun|].
  unfold generateMPCWallet. unfold bind at 1. rewrite Hrun. reflexivity.
Qed.

(** The statement of X15 for three nodes with threshold zero. *)
Lemma performDKG_rejects_nonpositive_threshold_witness :
  threshold (mkMpcConfig 3 0) <= 0
  /\ performDKG "w2" (threshold (mkMpcConfig 3 0)) (nodes (mkMpcConfig 3 0))
                (Model.fresh [5; 3])
     = (Throw TypeError, Model.fresh [5; 3])
  /\ generateMPCWallet (mkMpcConfig 3 0) "w2" (Model.fresh [5; 3])
     = (Throw TypeError, Model.fresh [5; 3]).
Proof.
  split; [cbn; lia|].
  apply (performDKG_rejects_nonpositive_threshold (mkMpcConfig 3 0) "w2"
           (Model.fresh [5; 3])).
  cbn. lia.
Defined.

(** X16. When the first coefficient drawn is zero, [performDKG] stores
    the shares of the new wallet and installs the point at infinity as
    master public key, then throws a [TypeError] where it encodes that key:
    the caller gets no public key although the shares are in the store. *)
Theorem performDKG_with_zero_master_secret `{!Sha256} `{!Curve}
    (walletId : string) (threshold totalParties : Z) (w : World) :
  1 <= threshold ->
  (forall k, answers w k = true) ->
  scalarAt (entropy w) (drawn w) = 0 ->
  (forall i, secrets w !! secretName walletId i = None) ->
  let coefficients := coefficientsAt w (Z.to_nat threshold) in
  let w' := snd (performDKG walletId threshold totalParties w) in
  fst (performDKG walletId threshold totalParties w) = Throw TypeError
  /\ masterPublicKey w' = Some ec_infinity
  /\ forall i, 1 <= i <= totalParties ->
       secrets w' !! secretName walletId i
       = Some (Hex.padStart 64 (Hex.ofBigInt (evaluatePolynomial coefficients i))).
Proof.
  intros Ht Hup Hzero Hfree. cbv zeta.
  destruct (performDKG_zero_master walletId threshold totalParties w Ht Hzero)
    as [Hrun Hmaster].
  assert (Hstore : storeShares walletId (dealt w threshold totalParties)
                     (keysInstalled w threshold totalParties)
                   = (Ok tt,
                      set_secrets
                        (storeAll walletId (vss_shares (dealt w threshold totalParties)))
                        (count_requests
                           (length (vss_shares (dealt w threshold totalParties)))
                           (keysInstalled w threshold totalParties)))).
  { rewrite (dealt_eta w threshold totalParties) at 1.
    apply storeShares_reachable; [apply dealt_verify | intros j _; apply Hup]. }
  rewrite Hrun, Hstore. cbn [fst snd]. split; [reflexivity|].
  cbn [set_parties count_requests set_secrets keysInstalled set_keys advance_entropy
       masterPublicKey drawn parties secrets commitments].
  split; [exact Hmaster|].
  intros i Hi. rewrite dealt_shares, storeAll_lookup, Hfree.
  rewrite decide_True by (apply elem_of_seqZ; lia). reflexivity.
Qed.

(** The statement of X16 for a 2-of-3 wallet, the random source yielding
    the coefficients 0 and 3. *)
Lemma performDKG_with_zero_master_secret_witness :
  let w := Model.fresh [0; 3] in
  let coefficients := coefficientsAt w (Z.to_nat 2) in
  let w' := snd (performDKG "w2" 2 3 w) in
  fst (performDKG "w2" 2 3 w) = Throw TypeError
  /\ masterPublicKey w' = Some ec_infinity
  /\ forall i, 1 <= i <= 3 ->
       secrets w' !! secretName "w2" i
       = Some (Hex.padStart 64 (Hex.ofBigInt (evaluatePolynomial coefficients i))).
Proof.
  apply (performDKG_with_zero_master_secret "w2" 2 3 (Model.fresh [0; 3])).
  - lia.
  - intros k. reflexivity.
  - vm_compute. reflexivity.
  - intros i. apply lookup_empty.
Defined.

(** X17. [performDKG] returns exactly when the threshold is positive, the
    first coefficient drawn (the master secret) is not zero and the store
    answers the [totalParties] requests of the call; it then returns the
    party ids [1 .. totalParties]. Neither the wallet id nor what the store
    already holds plays a part. *)
Theorem performDKG_returns_exactly_when `{!Sha256} `{!Curve}
    (walletId : string) (threshold totalParties : Z) (w : World) :
  ((exists result, fst (performDKG walletId threshold totalParties w) = Ok result)
   <-> 1 <= threshold
       /\ scalarAt (entropy w) (drawn w) <> 0
       /\ forall j, (j < Z.to_nat totalParties)%nat -> answers w (requests w + j) = true)
  /\ (forall result,
        fst (performDKG walletId threshold totalParties w) = Ok result ->
        snd result = seqZ 1 totalParties)
  /\ forall e,
       fst (performDKG walletId threshold totalParties w) = Throw e ->
       e = TypeError \/ e = ServiceUnavailable.
Proof.
  assert (Hforward : forall result,
            fst (performDKG walletId threshold totalParties w) = Ok result ->
            1 <= threshold
            /\ scalarAt (entropy w) (drawn w) <> 0
            /\ forall j, (j < Z.to_nat totalParties)%nat ->
                 answers w (requests w + j) = true).
  { intros result Hok.
    destruct (Z_lt_le_dec 0 threshold) as [Ht|Ht];
      [|rewrite performDKG_nonpositive_threshold in Hok by exact Ht; discriminate].
    split; [lia|]. split.
    - intros Hzero.
      destruct (performDKG_zero_master walletId threshold totalParties w
                  ltac:(lia) Hzero) as [Hrun _].
      rewrite Hrun in Hok. destruct (storeShares _ _ _) as [[[]|e] w']; discriminate.
    - destruct (first_failure (fun j => answers w (requests w + j))
                  (Z.to_nat totalParties)) as [Hall|(k & Hk & Hfalse & Hbefore)];
        [exact Hall|].
      rewrite (performDKG_outage walletId threshold totalParties k w
                 ltac:(lia) Hk Hbefore Hfalse) in Hok.
      discriminate. }
  split; [split|split].
  - intros [result Hok]. exact (Hforward result Hok).
  - intros (Ht & Hmaster & Hup).
    destruct (performDKG_reachable walletId threshold totalParties w Ht Hup Hmaster)
      as (bytes & _ & _ & Hrun).
    rewrite Hrun. eauto.
  - intros result Hok. destruct (Hforward result Hok) as (Ht & Hmaster & Hup).
    destruct (performDKG_reachable walletId threshold totalParties w Ht Hup Hmaster)
      as (bytes & _ & _ & Hrun).
    rewrite Hrun in Hok. injection Hok as <-. reflexivity.
  - intros e Hthrow.
    destruct (Z_lt_le_dec 0 threshold) as [Ht|Ht];
      [|rewrite performDKG_nonpositive_threshold in Hthrow by exact Ht;
        injection Hthrow as <-; auto].
    destruct (first_failure (fun j => answers w (requests w + j))
                (Z.to_nat totalParties)) as [Hall|(k & Hk & Hfalse & Hbefore)].
    + destruct (Z.eq_dec (scalarAt (entropy w) (drawn w)) 0) as [Hzero|Hmaster].
      * destruct (performDKG_zero_master walletId threshold totalParties w
                    ltac:(lia) Hzero) as [Hrun _].
        rewrite Hrun in Hthrow.
        rewrite (dealt_eta w threshold totalParties) in Hthrow at 1.
        rewrite storeShares_reachable in Hthrow.
        -- injection Hthrow as <-. auto.
        -- apply dealt_verify.
        -- intros j Hj. rewrite dealt_length in Hj. apply Hall. exact Hj.
      * destruct (performDKG_reachable walletId threshold totalParties w
                    ltac:(lia) Hall Hmaster) as (bytes & _ & _ & Hrun).
        rewrite Hrun in Hthrow. discriminate.
    + rewrite (performDKG_outage walletId threshold totalParties k w
                 ltac:(lia) Hk Hbefore Hfalse) in Hthrow.
      injection Hthrow as <-. auto.
Qed.

Section SessionFailures.

Context `{!Sha256} `{!Curve}.

(** A list of signing parties either names initialised parties only or
    has a first one that is not. *)
Lemma first_missing (w : World) (ids : list Z) :
  (forall id, id ∈ ids -> is_Some (parties w !! id))
  \/ exists before id rest,
       ids = before ++ id :: rest
       /\ (forall i, i ∈ before -> is_Some (parties w !! i))
       /\ parties w !! id = None.
Proof.
  induction ids as [|x ids IH].
  - left. intros id Hin. apply elem_of_nil in Hin. contradiction.
  - destruct (parties w !! x) as [p|] eqn:Hx.
    + destruct IH as [Hall|(before & id & rest & -> & Hbefore & Hid)].
      * left. intros id Hin. apply elem_of_cons in Hin as [->|Hin]; [eauto | auto].
      * right. exists (x :: before), id, rest. split; [reflexivity|].
        split; [|exact Hid].
        intros i Hin. apply elem_of_cons in Hin as [->|Hin]; [eauto | auto].
    + right. exists [], x, ids. split; [reflexivity|]. split; [|exact Hx].
      intros i Hin. apply elem_of_nil in Hin. contradiction.
Qed.

End SessionFailures.

(** X18. [signWithTSS] ends in one of three ways: it returns a signature;
    it throws a [TypeError], the aggregated point being the point at
    infinity; or it throws 'Party i not initialized' for a signing party
    [i] the coordinator does not hold, [i] being printed as JavaScript
    prints a number. The other failures written in its rounds, a commitment
    that does not verify, a point that does not decode, an ephemeral key
    that is missing, never occur. *)
Theorem signWithTSS_failure_modes `{!Sha256} `{!Curve}
    (walletId : string) (message : list byte) (ids : list Z) (w : World) :
  (exists sig, fst (signWithTSS walletId message ids w) = Ok sig)
  \/ fst (signWithTSS walletId message ids w) = Throw TypeError
  \/ exists id,
       id ∈ ids /\ parties w !! id = None
       /\ fst (signWithTSS walletId message ids w)
          = Throw (Error ("Party " +:+ JsNumber.toString id +:+ " not initialized")).
Proof.
  destruct (first_missing w ids) as [Hall|(before & id & rest & -> & Hbefore & Hid)].
  - destruct ids as [|x ids].
    + right. left. rewrite signWithTSS_empty. reflexivity.
    + destruct (signWithTSS_completes walletId message (x :: ids) w
                  ltac:(discriminate) Hall) as [Hthrow|[r Hok]]; [auto | eauto].
  - right. right. exists id. split; [|split; [exact Hid|]].
    + apply elem_of_app. right. apply list_elem_of_here.
    + unfold signWithTSS, round1. unfold bind at 1.
      rewrite (round1_missing message before id rest [] w Hbefore Hid). reflexivity.
Qed.

(* ================================================================== *)
(** ** Sessions of the earlier coordinator *)

Section LegacySessions.

Context `{!Sha256} `{!Curve}.

(** The loop bodies of the earlier [signWithTSS], by name. *)
Definition legacy_round1_step (message : list byte)
    (commitments : list (Z * (string * string))) (partyId : Z)
    : M LegacyWorld (list (Z * (string * string))) :=
  let* w := get in
  let* party :=
    orThrow (Error ("Party " +:+ JsNumber.toString partyId +:+ " not initialized"))
            (legacy_parties w !! partyId) in
  let* commit := legacy_generateCommitment message in
  ret (mapSet commitments partyId commit).

Definition legacy_round2_step (aggregatedR : point) (entry : Z * (string * string))
    : M LegacyWorld point :=
  let '(partyId, (_, decommitment)) := entry in
  let* rPoint :=
    orThrow (Error "Unknown point format")
            (ec_decodePoint (Hex.toBuffer decommitment)) in
  ret (pt_add aggregatedR rPoint).

Definition legacy_round3_step (message : list byte) (aggregatedR : point)
    (partialSignatures : list (Z * string)) (partyId : Z)
    : M LegacyWorld (list (Z * string)) :=
  let* w := get in
  match legacy_parties w !! partyId with
  | None => ret partialSignatures
  | Some party =>
      let* bytes := legacy_randomBytes 32 in
      let ephemeralKey := Hex.ofBuffer bytes in
      let* (partialSig, _) :=
        legacy_createPartialSignature party message ephemeralKey aggregatedR in
      ret (partialSignatures ++ [(partyId, partialSig)])
  end.

Definition legacy_round4_step (aggregatedS : Z) (entry : Z * string) : M LegacyWorld Z :=
  let '(_, sig) := entry in
  let* sBN := orThrow SyntaxError (Hex.toBigInt sig) in
  ret (Z.rem (aggregatedS + sBN) n).

Lemma legacy_rounds_steps (message : list byte) (signingParties : list Z) :
  legacy_rounds message signingParties
  = (let* commitments := foldEach signingParties [] (legacy_round1_step message) in
     let* aggregatedR := foldEach commitments ec_infinity legacy_round2_step in
     let* x := orThrow TypeError (pt_getX aggregatedR) in
     let rX := Hex.padStart 64 (Hex.ofBigInt x) in
     let* partialSignatures :=
       foldEach signingParties [] (legacy_round3_step message aggregatedR) in
     let* aggregatedS := foldEach partialSignatures 0 legacy_round4_step in
     let finalS := Hex.padStart 64 (Hex.ofBigInt aggregatedS) in
     ret (mkSignature rX finalS "TSS Multi-Party ECDSA (GG20-inspired)")).
Proof. reflexivity. Qed.

(** The state after [k] more random bytes. *)
Definition legacy_advance (k : nat) (w : LegacyWorld) : LegacyWorld :=
  mkLegacyWorld (legacy_parties w) (legacy_entropy w) (legacy_drawn w + k).

(** The number that the 32 random bytes from position [pos] denote; the
    earlier coordinator does not reduce it. *)
Definition legacy_scalar (source : nat -> byte) (pos : nat) : Z :=
  Z.of_N (Hex.beValue 0 (map source (seq pos 32))).

(** The points of [count] successive draws from position [pos]. *)
Fixpoint legacy_points (source : nat -> byte) (pos count : nat) : list point :=
  match count with
  | O => []
  | S rest => pt_mul ec_g (legacy_scalar source pos) :: legacy_points source (pos + 32) rest
  end.

(** The number a party's share text denotes. *)
Definition legacy_shareAt (w : LegacyWorld) (id : Z) : Z :=
  match legacy_parties w !! id with
  | Some p => default 0 (Hex.toBigInt (legacy_keyShare p))
  | None => 0
  end.

(** What Round 1 hands over for the draw at [pos]. *)
Definition legacy_commitAt (source : nat -> byte) (pos : nat) : string * string :=
  let bytes := default [] (pt_encode false (pt_mul ec_g (legacy_scalar source pos))) in
  (Hex.ofBuffer (sha256 bytes), Hex.ofBuffer bytes).

Fixpoint legacy_commitments (source : nat -> byte) (pos : nat) (ids : list Z)
    : list (Z * (string * string)) :=
  match ids with
  | [] => []
  | id :: rest => (id, legacy_commitAt source pos) :: legacy_commitments source (pos + 32) rest
  end.

(** The partial signature of a party for the draw at [pos]. *)
Definition legacy_partialAt (message : list byte) (w : LegacyWorld) (pos : nat) (id : Z)
    : Z :=
  (legacy_scalar (legacy_entropy w) pos + hashValue message * legacy_shareAt w id) mod n.

Fixpoint legacy_partials (message : list byte) (w : LegacyWorld) (pos : nat)
    (ids : list Z) : list (Z * string) :=
  match ids with
  | [] => []
  | id :: rest =>
      (id, Hex.padStart 64 (Hex.ofBigInt (legacy_partialAt message w pos id)))
        :: legacy_partials message w (pos + 32) rest
  end.

Fixpoint legacy_partialSum (message : list byte) (w : LegacyWorld) (pos : nat)
    (ids : list Z) : Z :=
  match ids with
  | [] => 0
  | id :: rest => legacy_partialAt message w pos id + legacy_partialSum message w (pos + 32) rest
  end.

Lemma legacy_advance_twice (a b : nat) (w : LegacyWorld) :
  legacy_advance b (legacy_advance a w) = legacy_advance (a + b) w.
Proof. unfold legacy_advance. cbn. f_equal. lia. Qed.

Lemma legacy_advance_0 (w : LegacyWorld) : legacy_advance 0 w = w.
Proof. destruct w. unfold legacy_advance. cbn. f_equal. lia. Qed.

Lemma legacy_scalar_nonneg (source : nat -> byte) (pos : nat) :
  0 <= legacy_scalar source pos.
Proof. unfold legacy_scalar. lia. Qed.

Lemma bufferToBigInt_legacy (source : nat -> byte) (pos : nat) :
  bufferToBigInt (map source (seq pos 32)) = Some (legacy_scalar source pos).
Proof. exact (bufferToBigInt_entropy source pos). Qed.

Lemma legacy_randomBytes_run (w : LegacyWorld) :
  legacy_randomBytes 32 w
  = (Ok (map (legacy_entropy w) (seq (legacy_drawn w) 32)), legacy_advance 32 w).
Proof. reflexivity. Qed.

Lemma point_encodes (compact : bool) (P : point) :
  P <> ec_infinity ->
  exists bytes, pt_encode compact P = Some bytes /\ ec_decodePoint bytes = Some P.
Proof.
  intros HP. destruct (pt_encode compact P) as [bytes|] eqn:Henc.
  - exists bytes. split; [reflexivity|]. eapply ec_decode_encode. exact Henc.
  - apply pt_encode_None in Henc. contradiction.
Qed.

Lemma legacy_generateCommitment_run (message : list byte) (w : LegacyWorld) :
  pt_mul ec_g (legacy_scalar (legacy_entropy w) (legacy_drawn w)) <> ec_infinity ->
  legacy_generateCommitment message w
  = (Ok (legacy_commitAt (legacy_entropy w) (legacy_drawn w)), legacy_advance 32 w).
Proof.
  intros HP. destruct (point_encodes false _ HP) as (bytes & Henc & _).
  unfold legacy_generateCommitment, legacy_commitAt. unfold bind at 1.
  rewrite legacy_randomBytes_run. unfold bind at 1.
  rewrite bufferToBigInt_legacy. cbn [orThrow ret].
  unfold encodeHex, bind. rewrite Henc.
  cbn [fmap option_fmap option_map orThrow ret default from_option].
  unfold Datatypes.id. rewrite HexFacts.toBuffer_ofBuffer. reflexivity.
Qed.

(** Round 1 over distinct, initialised parties. *)
Lemma legacy_round1_run (message : list byte) (ids : list Z) :
  NoDup ids ->
  forall cs w,
    (forall id, id ∈ ids -> is_Some (legacy_parties w !! id)) ->
    (forall id, id ∈ ids -> id ∉ map fst cs) ->
    (forall j, (j < length ids)%nat ->
       pt_mul ec_g (legacy_scalar (legacy_entropy w) (legacy_drawn w + 32 * j))
       <> ec_infinity) ->
    foldEach ids cs (legacy_round1_step message) w
    = (Ok (cs ++ legacy_commitments (legacy_entropy w) (legacy_drawn w) ids),
       legacy_advance (32 * length ids) w).
Proof.
  induction 1 as [|id rest Hnotin Hnodup IH]; intros cs w Hall Hfresh Hdraws.
  - cbn [foldEach legacy_commitments length]. rewrite app_nil_r, legacy_advance_0.
    reflexivity.
  - cbn [foldEach]. unfold bind at 1.
    assert (Hstep : legacy_round1_step message cs id w
                    = (Ok (cs ++ [(id, legacy_commitAt (legacy_entropy w) (legacy_drawn w))]),
                       legacy_advance 32 w)).
    { unfold legacy_round1_step. unfold bind at 1. cbn [get]. unfold bind at 1.
      destruct (Hall id (list_elem_of_here _ _)) as [p Hp]. rewrite Hp. cbn [orThrow ret].
      unfold bind at 1. rewrite legacy_generateCommitment_run.
      - cbn [ret]. rewrite mapSet_fresh by (apply Hfresh, list_elem_of_here). reflexivity.
      - specialize (Hdraws 0%nat ltac:(cbn; lia)).
        rewrite Nat.mul_0_r, Nat.add_0_r in Hdraws. exact Hdraws. }
    rewrite Hstep, IH.
    + rewrite legacy_advance_twice, <- app_assoc.
      cbn [legacy_advance legacy_entropy legacy_drawn app legacy_commitments length].
      replace (32 + 32 * length rest)%nat with (32 * S (length rest))%nat by lia.
      reflexivity.
    + intros id' Hin. cbn [legacy_advance legacy_parties]. apply Hall. right. exact Hin.
    + intros id' Hin. rewrite map_app. cbn [map fst].
      intros Hmem. apply elem_of_app in Hmem as [Hmem|Hmem].
      * exact (Hfresh id' (list_elem_of_further _ _ _ Hin) Hmem).
      * apply list_elem_of_singleton in Hmem. subst id'. contradiction.
    + intros j Hj. cbn [legacy_advance legacy_entropy legacy_drawn].
      replace (legacy_drawn w + 32 + 32 * j)%nat with (legacy_drawn w + 32 * S j)%nat by lia.
      apply Hdraws. cbn. lia.
Qed.

(** Round 2 over the map of Round 1: the sum of the points drawn. *)
Lemma legacy_round2_run (source : nat -> byte) (w : LegacyWorld) (ids : list Z) :
  forall pos acc,
    (forall j, (j < length ids)%nat ->
       pt_mul ec_g (legacy_scalar source (pos + 32 * j)) <> ec_infinity) ->
    foldEach (legacy_commitments source pos ids) acc legacy_round2_step w
    = (Ok (fold_left pt_add (legacy_points source pos (length ids)) acc), w).
Proof.
  induction ids as [|id rest IH]; intros pos acc Hdraws; [reflexivity|].
  cbn [legacy_commitments foldEach length legacy_points fold_left]. unfold bind at 1.
  assert (HP : pt_mul ec_g (legacy_scalar source pos) <> ec_infinity).
  { specialize (Hdraws 0%nat ltac:(cbn; lia)).
    rewrite Nat.mul_0_r, Nat.add_0_r in Hdraws. exact Hdraws. }
  destruct (point_encodes false _ HP) as (bytes & Henc & Hdec).
  assert (Hstep : legacy_round2_step acc (id, legacy_commitAt source pos) w
                  = (Ok (pt_add acc (pt_mul ec_g (legacy_scalar source pos))), w)).
  { unfold legacy_round2_step, legacy_commitAt. rewrite Henc. cbn [default from_option].
    unfold Datatypes.id. cbv beta iota zeta. unfold bind.
    rewrite HexFacts.toBuffer_ofBuffer, Hdec. reflexivity. }
  rewrite Hstep. apply IH. intros j Hj.
  replace (pos + 32 + 32 * j)%nat with (pos + 32 * S j)%nat by lia.
  apply Hdraws. cbn. lia.
Qed.

Lemma legacy_createPartialSignature_run (p : LegacyParty) (message : list byte)
    (bytes : list byte) (R : point) (k x : Z) :
  bufferToBigInt bytes = Some k ->
  Hex.toBigInt (legacy_keyShare p) = Some x ->
  pt_mul ec_g k <> ec_infinity ->
  forall w,
    exists partialR,
      legacy_createPartialSignature p message (Hex.ofBuffer bytes) R w
      = (Ok (Hex.padStart 64 (Hex.ofBigInt (Z.rem (k + hashValue message * x) n)),
             partialR), w).
Proof.
  intros Hk Hshare HP w. destruct (point_encodes true _ HP) as (encoded & Henc & _).
  exists (Hex.ofBuffer encoded).
  unfold legacy_createPartialSignature. unfold bind at 1.
  rewrite bufferToBigInt_sha256. cbn [orThrow ret]. unfold bind at 1.
  rewrite Hshare. cbn [orThrow ret]. unfold bind at 1.
  unfold bufferToBigInt in Hk. rewrite Hk. cbn [orThrow ret].
  unfold encodeHex, bind. rewrite Henc. cbn [fmap option_fmap option_map orThrow ret].
  rewrite HexFacts.toBuffer_ofBuffer. reflexivity.
Qed.

Lemma legacy_partialAt_rem (message : list byte) (w : LegacyWorld) (pos : nat) (id : Z)
    (p : LegacyParty) (x : Z) :
  legacy_parties w !! id = Some p ->
  Hex.toBigInt (legacy_keyShare p) = Some x ->
  Z.rem (legacy_scalar (legacy_entropy w) pos + hashValue message * x) n
  = legacy_partialAt message w pos id
  /\ 0 <= x.
Proof.
  intros Hp Hx.
  assert (Hshare : legacy_shareAt w id = x).
  { unfold legacy_shareAt. rewrite Hp, Hx. reflexivity. }
  unfold legacy_partialAt. rewrite Hshare.
  assert (Hnonneg : 0 <= x).
  { exact (HexFacts.toBigInt_nonneg _ _ Hx). }
  split; [|exact Hnonneg].
  pose proof (legacy_scalar_nonneg (legacy_entropy w) pos).
  pose proof (hashValue_nonneg message). pose proof n_positive.
  apply Z.rem_mod_nonneg; nia.
Qed.

Lemma legacy_partials_advance (message : list byte) (k : nat) (w : LegacyWorld)
    (ids : list Z) :
  forall pos,
    legacy_partials message (legacy_advance k w) pos ids = legacy_partials message w pos ids.
Proof.
  induction ids as [|id rest IH]; intros pos; [reflexivity|].
  cbn [legacy_partials]. rewrite IH.
  unfold legacy_partialAt, legacy_shareAt.
  cbn [legacy_advance legacy_entropy legacy_parties]. reflexivity.
Qed.

(** Round 3 over initialised parties whose share text is a number. *)
Lemma legacy_round3_run (message : list byte) (R : point) (ids : list Z) :
  forall acc w,
    (forall id, id ∈ ids ->
       exists p x, legacy_parties w !! id = Some p
                   /\ Hex.toBigInt (legacy_keyShare p) = Some x) ->
    (forall j, (j < length ids)%nat ->
       pt_mul ec_g (legacy_scalar (legacy_entropy w) (legacy_drawn w + 32 * j))
       <> ec_infinity) ->
    foldEach ids acc (legacy_round3_step message R) w
    = (Ok (acc ++ legacy_partials message w (legacy_drawn w) ids),
       legacy_advance (32 * length ids) w).
Proof.
  induction ids as [|id rest IH]; intros acc w Hall Hdraws.
  - cbn [foldEach legacy_partials length]. rewrite app_nil_r, legacy_advance_0.
    reflexivity.
  - cbn [foldEach]. unfold bind at 1.
    destruct (Hall id (list_elem_of_here _ _)) as (p & x & Hp & Hx).
    assert (HP : pt_mul ec_g (legacy_scalar (legacy_entropy w) (legacy_drawn w))
                 <> ec_infinity).
    { specialize (Hdraws 0%nat ltac:(cbn; lia)).
      rewrite Nat.mul_0_r, Nat.add_0_r in Hdraws. exact Hdraws. }
    assert (Hstep : legacy_round3_step message R acc id w
                    = (Ok (acc ++ [(id, Hex.padStart 64
                                          (Hex.ofBigInt
                                             (legacy_partialAt message w (legacy_drawn w) id)))]),
                       legacy_advance 32 w)).
    { unfold legacy_round3_step. unfold bind at 1. cbn [get]. rewrite Hp.
      unfold bind at 1. rewrite legacy_randomBytes_run. cbv zeta.
      destruct (legacy_createPartialSignature_run p message
                  (map (legacy_entropy w) (seq (legacy_drawn w) 32)) R
                  (legacy_scalar (legacy_entropy w) (legacy_drawn w)) x
                  (bufferToBigInt_legacy _ _) Hx HP
                  (legacy_advance 32 w)) as (partialR & Hrun).
      unfold bind. rewrite Hrun.
      rewrite (proj1 (legacy_partialAt_rem message w (legacy_drawn w) id p x Hp Hx)).
      reflexivity. }
    rewrite Hstep, IH.
    + rewrite legacy_advance_twice, <- app_assoc, legacy_partials_advance.
      cbn [legacy_advance legacy_entropy legacy_drawn app legacy_partials length].
      replace (32 + 32 * length rest)%nat with (32 * S (length rest))%nat by lia.
      reflexivity.
    + intros id' Hin. cbn [legacy_advance legacy_parties]. apply Hall. right. exact Hin.
    + intros j Hj. cbn [legacy_advance legacy_entropy legacy_drawn].
      replace (legacy_drawn w + 32 + 32 * j)%nat with (legacy_drawn w + 32 * S j)%nat by lia.
      apply Hdraws. cbn. lia.
Qed.

Lemma legacy_partialAt_range (message : list byte) (w : LegacyWorld) (pos : nat) (id : Z) :
  0 <= legacy_partialAt message w pos id < n.
Proof. unfold legacy_partialAt. apply Z.mod_pos_bound. pose proof n_positive. lia. Qed.

Lemma legacy_partialSum_nonneg (message : list byte) (w : LegacyWorld) (ids : list Z) :
  forall pos, 0 <= legacy_partialSum message w pos ids.
Proof.
  induction ids as [|id rest IH]; intros pos; cbn [legacy_partialSum]; [lia|].
  pose proof (legacy_partialAt_range message w pos id). specialize (IH (pos + 32)%nat). lia.
Qed.

(** Round 4 reads the partial signatures back and adds them modulo [n]. *)
Lemma legacy_round4_run (message : list byte) (w w' : LegacyWorld) (ids : list Z) :
  forall pos acc,
    0 <= acc < n ->
    foldEach (legacy_partials message w pos ids) acc legacy_round4_step w'
    = (Ok ((acc + legacy_partialSum message w pos ids) mod n), w').
Proof.
  pose proof n_positive as Hn.
  induction ids as [|id rest IH]; intros pos acc Hacc.
  - cbn [legacy_partials legacy_partialSum foldEach ret].
    rewrite Z.add_0_r, Z.mod_small by lia. reflexivity.
  - cbn [legacy_partials legacy_partialSum foldEach]. unfold bind at 1.
    pose proof (legacy_partialAt_range message w pos id) as Hrange.
    assert (Hstep : legacy_round4_step acc
                      (id, Hex.padStart 64
                             (Hex.ofBigInt (legacy_partialAt message w pos id))) w'
                    = (Ok ((acc + legacy_partialAt message w pos id) mod n), w')).
    { unfold legacy_round4_step, bind.
      rewrite ShareText.toBigInt_padStart by lia. cbn [orThrow ret].
      rewrite Z.rem_mod_nonneg by lia. reflexivity. }
    rewrite Hstep, IH by (apply Z.mod_pos_bound; lia).
    rewrite Z.add_mod_idemp_l by lia. rewrite Z.add_assoc. reflexivity.
Qed.

(** The sum of the partial signatures, seen in the group. *)
Lemma legacy_partialSum_point (message : list byte) (w : LegacyWorld) (ids : list Z) :
  forall pos,
    pt_mul ec_g (legacy_partialSum message w pos ids)
    = pt_add (sumPoints (legacy_points (legacy_entropy w) pos (length ids)))
             (pt_mul (sumPoints (map (fun id => pt_mul ec_g (legacy_shareAt w id)) ids))
                     (hashValue message)).
Proof.
  pose proof (hashValue_nonneg message) as Hh.
  assert (Hshare : forall id, 0 <= legacy_shareAt w id).
  { intros id. unfold legacy_shareAt. destruct (legacy_parties w !! id) as [p|]; [|lia].
    destruct (Hex.toBigInt (legacy_keyShare p)) as [v|] eqn:Hv; [|cbn; lia].
    cbn. exact (HexFacts.toBigInt_nonneg _ _ Hv). }
  induction ids as [|id rest IH]; intros pos.
  - cbn. rewrite pt_mul_0, pt_add_infinity_l, pt_mul_infinity by lia. reflexivity.
  - cbn [legacy_partialSum length legacy_points map sumPoints fold_right].
    fold (sumPoints (legacy_points (legacy_entropy w) (pos + 32) (length rest))).
    fold (sumPoints (map (fun id => pt_mul ec_g (legacy_shareAt w id)) rest)).
    pose proof (legacy_partialAt_range message w pos id) as Hrange.
    pose proof (legacy_partialSum_nonneg message w rest (pos + 32)) as Hsum.
    pose proof (legacy_scalar_nonneg (legacy_entropy w) pos) as Hk.
    specialize (Hshare id).
    rewrite pt_mul_add by lia. rewrite IH.
    rewrite pt_mul_add_points by lia.
    unfold legacy_partialAt. rewrite pt_mul_mod by nia.
    rewrite pt_mul_add by nia.
    rewrite (pt_mul_mul ec_g (legacy_shareAt w id) (hashValue message)) by lia.
    rewrite (Z.mul_comm (legacy_shareAt w id)).
    apply pt_add_swap.
Qed.

End LegacySessions.

(** X19. In the earlier coordinator the two halves of a signature come
    from different ephemeral keys. For distinct initialised parties, at
    least [mpcConfig.threshold] of them, whose share texts are numbers, and
    draws whose points are not the point at infinity, Round 1 of the
    earlier [signWithTSS] draws 32 random bytes for each party. When the
    sum [R] of the points of these draws is the point at infinity, the call
    throws there, a [TypeError]: [R] has no x-coordinate. Otherwise it
    returns, having drawn 32 more bytes for each party in Round 3: [r] is
    the x-coordinate of [R], while [s], a number of [0, n), satisfies
    [s * G = R' + e * Y], where [R'] is the sum of the points of the draws
    of Round 3, [Y] the sum of the points of the shares and [e] the message
    hash, not reduced. *)
Theorem legacy_signWithTSS_draws_nonces_twice `{!Sha256} `{!Curve}
    (config : MpcConfig) (walletId : string) (message : list byte) (ids : list Z)
    (w : LegacyWorld) :
  threshold config <= Z.of_nat (length ids) ->
  NoDup ids ->
  (forall id, id ∈ ids ->
     exists p v, legacy_parties w !! id = Some p
                 /\ Hex.toBigInt (legacy_keyShare p) = Some v) ->
  (forall j, (j < 2 * length ids)%nat ->
     pt_mul ec_g (legacy_scalar (legacy_entropy w) (legacy_drawn w + 32 * j))
     <> ec_infinity) ->
  let m := length ids in
  let R := sumPoints (legacy_points (legacy_entropy w) (legacy_drawn w) m) in
  let R' := sumPoints (legacy_points (legacy_entropy w) (legacy_drawn w + 32 * m) m) in
  let Y := sumPoints (map (fun id => pt_mul ec_g (legacy_shareAt w id)) ids) in
  match pt_getX R with
  | None =>
      R = ec_infinity
      /\ legacy_signWithTSS config walletId message ids w
         = (Throw TypeError, legacy_advance (32 * m) w)
  | Some x =>
      exists s,
        0 <= s < n
        /\ legacy_signWithTSS config walletId message ids w
           = (Ok (mkSignature (Hex.padStart 64 (Hex.ofBigInt x))
                              (Hex.padStart 64 (Hex.ofBigInt s))
                              "TSS Multi-Party ECDSA (GG20-inspired)"),
              legacy_advance (64 * m) w)
        /\ pt_mul ec_g s = pt_add R' (pt_mul Y (hashValue message))
  end.
Proof.
  intros Hquorum Hnodup Hall Hdraws. cbv zeta.
  pose proof n_positive as Hn.
  set (w1 := legacy_advance (32 * length ids) w).
  assert (Hround1 : foldEach ids [] (legacy_round1_step message) w
                    = (Ok (legacy_commitments (legacy_entropy w) (legacy_drawn w) ids), w1)).
  { rewrite (legacy_round1_run message ids Hnodup [] w); [reflexivity| | |].
    - intros id Hin. destruct (Hall id Hin) as (p & v & -> & _). eauto.
    - intros id _. apply not_elem_of_nil.
    - intros j Hj. apply Hdraws. lia. }
  assert (Hround2 : foldEach (legacy_commitments (legacy_entropy w) (legacy_drawn w) ids)
                             ec_infinity legacy_round2_step w1
                    = (Ok (sumPoints (legacy_points (legacy_entropy w) (legacy_drawn w)
                                                    (length ids))), w1)).
  { rewrite legacy_round2_run by (intros j Hj; apply Hdraws; lia).
    rewrite fold_left_pt_add, pt_add_infinity_l. reflexivity. }
  assert (Hround3 : forall R0,
            foldEach ids [] (legacy_round3_step message R0) w1
            = (Ok (legacy_partials message w1 (legacy_drawn w1) ids),
               legacy_advance (32 * length ids) w1)).
  { intros R0. rewrite (legacy_round3_run message R0 ids [] w1); [reflexivity| |].
    - intros id Hin. exact (Hall id Hin).
    - intros j Hj. unfold w1. cbn [legacy_advance legacy_entropy legacy_drawn].
      replace (legacy_drawn w + 32 * length ids + 32 * j)%nat
        with (legacy_drawn w + 32 * (length ids + j))%nat by lia.
      apply Hdraws. lia. }
  assert (Hguard : legacy_signWithTSS config walletId message ids w
                   = legacy_rounds message ids w).
  { unfold legacy_signWithTSS.
    destruct (Z.ltb_spec (Z.of_nat (length ids)) (threshold config)) as [Hlt|_];
      [lia | reflexivity]. }
  rewrite Hguard, legacy_rounds_steps.
  destruct (pt_getX (sumPoints (legacy_points (legacy_entropy w) (legacy_drawn w)
                                              (length ids)))) as [x|] eqn:Hx.
  - exists (legacy_partialSum message w1 (legacy_drawn w1) ids mod n).
    split; [apply Z.mod_pos_bound; lia|]. split.
    + unfold bind at 1. rewrite Hround1.
      unfold bind at 1. rewrite Hround2.
      unfold bind at 1. rewrite Hx. cbn [orThrow ret]. cbv zeta.
      unfold bind at 1. rewrite Hround3.
      unfold bind at 1. rewrite legacy_round4_run by lia.
      cbn [ret]. rewrite Z.add_0_l. unfold w1. rewrite legacy_advance_twice.
      replace (32 * length ids + 32 * length ids)%nat with (64 * length ids)%nat by lia.
      reflexivity.
    + rewrite pt_mul_mod by apply legacy_partialSum_nonneg.
      rewrite legacy_partialSum_point. reflexivity.
  - split; [apply pt_getX_None; exact Hx|].
    unfold bind at 1. rewrite Hround1.
    unfold bind at 1. rewrite Hround2.
    unfold bind at 1. rewrite Hx. reflexivity.
Qed.

(** The statement of X19 for the parties 1 and 2 with the share texts
    ["08"] and ["0b"]: the random source yielding 3, 4, 5 and 6, the call
    returns; the random source yielding 3 and [n - 3], whose points add up
    to the point at infinity, it throws. *)
Lemma legacy_signWithTSS_draws_nonces_twice_witness :
  let held := <[1 := mkLegacyParty 1 "08"]> (<[2 := mkLegacyParty 2 "0b"]> ∅) in
  let w := mkLegacyWorld held (Model.entropyOf [3; 4; 5; 6]) 0 in
  let v := mkLegacyWorld held (Model.entropyOf [3; n - 3; 5; 6]) 0 in
  let m := length [1; 2] in
  let R' := sumPoints (legacy_points (legacy_entropy w) (legacy_drawn w + 32 * m) m) in
  let Y := sumPoints (map (fun id => pt_mul ec_g (legacy_shareAt w id)) [1; 2]) in
  (exists s,
     0 <= s < n
     /\ legacy_signWithTSS defaultMpcConfig "w2" Scenario.message [1; 2] w
        = (Ok (mkSignature (Hex.padStart 64 (Hex.ofBigInt 7))
                           (Hex.padStart 64 (Hex.ofBigInt s))
                           "TSS Multi-Party ECDSA (GG20-inspired)"),
           legacy_advance (64 * m) w)
     /\ pt_mul ec_g s = pt_add R' (pt_mul Y (hashValue Scenario.message)))
  /\ legacy_signWithTSS defaultMpcConfig "w2" Scenario.message [1; 2] v
     = (Throw TypeError, legacy_advance (32 * m) v).
Proof.
  cbv zeta.
  assert (Hnodup : NoDup [1; 2]).
  { apply NoDup_cons_2; [|apply NoDup_singleton].
    intros Hin. apply list_elem_of_singleton in Hin. discriminate. }
  assert (Hcases : forall j, (j < 2 * length [1; 2])%nat ->
            (j = 0 \/ j = 1 \/ j = 2 \/ j = 3)%nat) by (cbn [length]; lia).
  split.
  - pose proof (legacy_signWithTSS_draws_nonces_twice defaultMpcConfig "w2"
                  Scenario.message [1; 2]
                  (mkLegacyWorld
                     (<[1 := mkLegacyParty 1 "08"]> (<[2 := mkLegacyParty 2 "0b"]> ∅))
                     (Model.entropyOf [3; 4; 5; 6]) 0)) as Hreturns.
    cbv zeta in Hreturns.
    assert (Hx : pt_getX (sumPoints (legacy_points (Model.entropyOf [3; 4; 5; 6]) 0 2))
                 = Some 7) by (vm_compute; reflexivity).
    cbn [legacy_entropy legacy_drawn length] in Hreturns. rewrite Hx in Hreturns.
    apply Hreturns.
    + cbn. lia.
    + exact Hnodup.
    + intros id Hi. apply elem_of_cons in Hi as [->|Hi];
        [|apply list_elem_of_singleton in Hi as ->]; vm_compute; eauto.
    + intros j Hj. destruct (Hcases j Hj) as [->|[->|[->| ->]]]; vm_compute; discriminate.
  - pose proof (legacy_signWithTSS_draws_nonces_twice defaultMpcConfig "w2"
                  Scenario.message [1; 2]
                  (mkLegacyWorld
                     (<[1 := mkLegacyParty 1 "08"]> (<[2 := mkLegacyParty 2 "0b"]> ∅))
                     (Model.entropyOf [3; n - 3; 5; 6]) 0)) as Hthrows.
    cbv zeta in Hthrows.
    assert (Hx : pt_getX (sumPoints (legacy_points (Model.entropyOf [3; n - 3; 5; 6]) 0 2))
                 = None) by (vm_compute; reflexivity).
    cbn [legacy_entropy legacy_drawn length] in Hthrows. rewrite Hx in Hthrows.
    apply Hthrows.
    + cbn. lia.
    + exact Hnodup.
    + intros id Hi. apply elem_of_cons in Hi as [->|Hi];
        [|apply list_elem_of_singleton in Hi as ->]; vm_compute; eauto.
    + intros j Hj. destruct (Hcases j Hj) as [->|[->|[->| ->]]]; vm_compute; discriminate.
Defined.

(* ================================================================== *)
(** ** What a share and a signature are checked against *)

Section Binding.

Context `{!Sha256} `{!Curve}.

(** The generator has order [n]: below [n], a scalar is determined by its
    multiple of the generator. *)
Lemma pt_mul_g_le (a b : Z) :
  0 <= a <= b -> b < n -> pt_mul ec_g a = pt_mul ec_g b -> a = b.
Proof.
  intros Hab Hb Heq. destruct (Z.eq_dec a b) as [|Hne]; [assumption|]. exfalso.
  apply (ec_g_order_min (b - a)); [lia|].
  assert (Hsplit : pt_mul ec_g b = pt_add (pt_mul ec_g a) (pt_mul ec_g (b - a))).
  { rewrite <- pt_mul_add by lia. f_equal. lia. }
  assert (Hcancel : pt_add (pt_mul ec_g a) (pt_mul ec_g (n - a)) = ec_infinity).
  { rewrite <- pt_mul_add by lia. replace (a + (n - a)) with n by lia. apply pt_order. }
  rewrite <- Heq in Hsplit.
  apply (f_equal (fun P => pt_add P (pt_mul ec_g (n - a)))) in Hsplit.
  rewrite Hcancel in Hsplit.
  rewrite (pt_add_comm (pt_mul ec_g a) (pt_mul ec_g (b - a))) in Hsplit.
  rewrite <- pt_add_assoc, Hcancel, pt_add_infinity_r in Hsplit.
  symmetry. exact Hsplit.
Qed.

Lemma pt_mul_g_inj (a b : Z) :
  0 <= a < n -> 0 <= b < n -> pt_mul ec_g a = pt_mul ec_g b -> a = b.
Proof.
  intros Ha Hb Heq. destruct (Z_le_gt_dec a b) as [Hle|Hgt].
  - apply pt_mul_g_le; [lia | lia | exact Heq].
  - symmetry. apply pt_mul_g_le; [lia | lia | symmetry; exact Heq].
Qed.

End Binding.

(** X20. Against the commitments that [generateShares] returns,
    [verifyShare] accepts for a party [p] the numbers that are the share
    [f(p)] modulo [n], and no other: a share that was changed by anything
    but a multiple of [n] is rejected. For the parties [1 .. totalParties],
    [f(p)] is the share that was dealt. *)
Theorem verifyShare_accepts_only_the_dealt_share `{!Sha256} `{!Curve}
    (threshold totalParties p s : Z) (w : World) :
  1 <= threshold -> 0 <= p -> 0 <= s ->
  let share := evaluatePolynomial (coefficientsAt w (Z.to_nat threshold)) p in
  exists vss w',
    generateShares threshold totalParties w = (Ok vss, w')
    /\ (verifyShare p s (vss_commitments vss) = true <-> s mod n = share)
    /\ (1 <= p <= totalParties -> In (p, share) (vss_shares vss)).
Proof.
  intros Ht Hp Hs. cbv zeta. pose proof n_positive as Hn.
  rewrite generateShares_run by exact Ht. eexists _, _. split; [reflexivity|].
  cbn [vss_commitments vss_shares].
  pose proof (evaluation_satisfies_feldman (coefficientsAt w (Z.to_nat threshold)) p
                (coefficientsAt_range _ _) Hp) as Hdealt.
  pose proof (evaluatePolynomial_nonneg w (Z.to_nat threshold) p Hp) as Hnonneg.
  assert (Hrange : 0 <= evaluatePolynomial (coefficientsAt w (Z.to_nat threshold)) p < n).
  { rewrite evaluatePolynomial_spec;
      [|apply Forall_range_nonneg, coefficientsAt_range | exact Hp].
    apply Z.mod_pos_bound. lia. }
  split.
  - rewrite verifyShare_iff by exact Hp. rewrite <- Hdealt.
    rewrite <- (pt_mul_mod ec_g s) by exact Hs. split.
    + apply pt_mul_g_inj; [apply Z.mod_pos_bound; lia | exact Hrange].
    + intros ->. reflexivity.
  - intros Hparty.
    apply (in_map (fun x => (x, evaluatePolynomial
                                  (coefficientsAt w (Z.to_nat threshold)) x))).
    apply list_elem_of_In, elem_of_seqZ. lia.
Qed.

(** The statement of X20 for the share 8 of party 1, the polynomial being
    [5 + 3 x]. *)
Lemma verifyShare_accepts_only_the_dealt_share_witness :
  let w := Model.fresh [5; 3] in
  let share := evaluatePolynomial (coefficientsAt w (Z.to_nat 2)) 1 in
  exists vss w',
    generateShares 2 3 w = (Ok vss, w')
    /\ (verifyShare 1 8 (vss_commitments vss) = true <-> 8 mod n = share)
    /\ (1 <= 1 <= 3 -> In (1, share) (vss_shares vss)).
Proof.
  apply (verifyShare_accepts_only_the_dealt_share 2 3 1 8 (Model.fresh [5; 3])); lia.
Defined.

(** X21. End to end: after [generateMPCWallet] has dealt a new wallet
    under a configuration with at least two nodes, a signature that
    [signWithMPC] returns is ["0x"], the x-coordinate of [R] and [s], with
    [s * G = R + e * Y]: [R] is the sum of the ephemeral points of the
    parties 1 and 2, and [Y] is the point [F(1) + F(2)] that anyone can
    compute from the coordinator's commitments, [F(i)] being the sum of
    the [C_j * i^j]. *)
Theorem wallet_signature_equation `{!Sha256} `{!Curve}
    (config : MpcConfig) (walletId : string) (message : list byte) (w : World)
    (signature : MPCSignature) :
  isMPCEnabled config = true ->
  1 <= threshold config ->
  (forall k, answers w k = true) ->
  scalarAt (entropy w) (drawn w) <> 0 ->
  (forall i, secrets w !! secretName walletId i = None) ->
  fst (signWithMPC walletId message (snd (generateMPCWallet config walletId w)))
  = Ok signature ->
  let w1 := snd (generateMPCWallet config walletId w) in
  let share := evaluatePolynomial (coefficientsAt w (Z.to_nat (threshold config))) in
  let R := pt_add (pt_mul ec_g (nonceOf (share 1) message))
                  (pt_mul ec_g (nonceOf (share 2) message)) in
  let Y := pt_add (feldmanSum 1 (commitments w1) 0) (feldmanSum 2 (commitments w1) 0) in
  exists x s,
    pt_getX R = Some x /\ 0 <= s < n
    /\ mpc_signature signature
       = "0x" +:+ Hex.padStart 64 (Hex.ofBigInt x) +:+ Hex.padStart 64 (Hex.ofBigInt s)
    /\ pt_mul ec_g s = pt_add R (pt_mul Y (hashValue message mod n)).
Proof.
  intros Henabled Ht Hup Hmaster Hfree Hok. cbv zeta.
  unfold isMPCEnabled in Henabled. apply Z.leb_le in Henabled.
  set (share := evaluatePolynomial (coefficientsAt w (Z.to_nat (threshold config)))).
  destruct (generateMPCWallet_run config walletId w share Ht Hup Hmaster)
    as (bytes & _ & Hrun).
  { intros i Hi. eexists. split.
    - rewrite dealt_shares, storeAll_lookup, Hfree.
      rewrite decide_True by (apply elem_of_seqZ; lia). reflexivity.
    - apply share_text_valid, evaluatePolynomial_nonneg. lia. }
  rewrite Hrun in Hok |- *. cbn [snd] in Hok |- *.
  set (w1 := set_parties _ _) in *.
  assert (Hparty : forall i, i = 1 \/ i = 2 ->
            parties w1 !! i = Some (newParty i (share i))).
  { intros i Hi. unfold w1. cbn [set_parties parties].
    rewrite installAll_lookup, decide_True by (apply elem_of_seqZ; lia). reflexivity. }
  assert (HshareAt : forall i, i = 1 \/ i = 2 -> shareAt w1 i = share i).
  { intros i Hi. unfold shareAt. rewrite (Hparty i Hi). reflexivity. }
  assert (Hcommitments : commitments w1
                         = vss_commitments (dealt w (threshold config) (nodes config))).
  { reflexivity. }
  assert (Hpoint : forall i, i = 1 \/ i = 2 ->
            pt_mul ec_g (share i) = feldmanSum i (commitments w1) 0).
  { intros i Hi. rewrite Hcommitments.
    apply (evaluation_satisfies_feldman _ i (coefficientsAt_range _ _)). lia. }
  assert (Hnodup : NoDup [1; 2]).
  { apply NoDup_cons_2; [|apply NoDup_singleton].
    intros Hin. apply list_elem_of_singleton in Hin. discriminate. }
  assert (Hin : forall id, id ∈ [1; 2] -> id = 1 \/ id = 2).
  { intros id Hid. apply elem_of_cons in Hid as [->|Hid]; [auto|].
    apply list_elem_of_singleton in Hid. auto. }
  assert (Hshares : forall id, id ∈ [1; 2] -> 0 <= shareAt w1 id).
  { intros id Hid. rewrite (HshareAt id (Hin id Hid)).
    apply evaluatePolynomial_nonneg.
    destruct (Hin id Hid) as [-> | ->]; lia. }
  destruct (signWithTSS_nodup_outcome walletId message [1; 2] w1 Hnodup)
    as [[_ Hthrow]|(x & s & Hx & _ & Hs & Hsum & Hsig)].
  - discriminate.
  - intros id Hid. rewrite (Hparty id (Hin id Hid)). eauto.
  - exact Hshares.
  - unfold signWithMPC, bind in Hok. cbv zeta in Hok.
    destruct (signWithTSS walletId message [1; 2] w1) as [[sig|e] w2];
      cbn [fst] in *; congruence.
  - cbn [map sumPoints fold_right] in Hx.
    rewrite !HshareAt, pt_add_infinity_r in Hx by auto.
    exists x, s. split; [exact Hx|]. split; [exact Hs|]. split.
    + unfold signWithMPC, bind in Hok. cbv zeta in Hok.
      destruct (signWithTSS walletId message [1; 2] w1) as [[sig|e] w2];
        cbn [fst] in *; [|discriminate].
      injection Hsig as ->. injection Hok as <-. reflexivity.
    + destruct (partial_sum_point message w1 (Hex.padStart 64 (Hex.ofBigInt x))
                  [1; 2] Hshares) as [Hnonneg Hequation].
      rewrite Hsum, pt_mul_mod by exact Hnonneg. rewrite Hequation.
      cbn [map sumPoints fold_right].
      rewrite !HshareAt, !pt_add_infinity_r, !Hpoint by auto. reflexivity.
Qed.

(** The statement of X21 for the first wallet of a fresh coordinator under
    the default configuration and the scenario's message. *)
Lemma wallet_signature_equation_witness :
  let w := Model.fresh [5; 3] in
  let w1 := snd (generateMPCWallet defaultMpcConfig "w2" w) in
  let share :=
    evaluatePolynomial (coefficientsAt w (Z.to_nat (threshold defaultMpcConfig))) in
  let R := pt_add (pt_mul ec_g (nonceOf (share 1) Scenario.message))
                  (pt_mul ec_g (nonceOf (share 2) Scenario.message)) in
  let Y := pt_add (feldmanSum 1 (commitments w1) 0) (feldmanSum 2 (commitments w1) 0) in
  exists x s,
    pt_getX R = Some x /\ 0 <= s < n
    /\ mpc_signature
         (mkMPCSignature
            ("0x" +:+ "000000000000000000000000000000000000000000000000000000000000000e"
                  +:+ "0000000000000000000000000000000000000000000000000000000000000093")
            "Threshold Signatures (Feldman VSS DKG + Multi-round Protocol)")
       = "0x" +:+ Hex.padStart 64 (Hex.ofBigInt x) +:+ Hex.padStart 64 (Hex.ofBigInt s)
    /\ pt_mul ec_g s = pt_add R (pt_mul Y (hashValue Scenario.message mod n)).
Proof.
  apply (wallet_signature_equation defaultMpcConfig "w2" Scenario.message
           (Model.fresh [5; 3])).
  - reflexivity.
  - cbn. lia.
  - intros k. reflexivity.
  - vm_compute. discriminate.
  - intros i. apply lookup_empty.
  - vm_compute. reflexivity.
Defined.

(** X22. A session returns a signature exactly when its first three
    rounds complete, in the state Round 1 left: the coordinator then
    outputs, as [r], the x-coordinate of the aggregated point as it is, not
    reduced modulo [n] (Round 2 fails only on the point at infinity, which
    has none) and, as [s], the partial signatures added up modulo [n]. The
    signature is returned whatever the values of [r] and [s]: no test on
    them stands between Round 3 and the [return]. *)
Theorem signWithTSS_output `{!Sha256} `{!Curve}
    (walletId : string) (message : list byte) (ids : list Z) (w w' : World)
    (sig : Signature) :
  signWithTSS walletId message ids w = (Ok sig, w')
  <-> exists commitments R partials x,
        round1 message ids w = (Ok commitments, w')
        /\ round2 commitments w' = (Ok R, w')
        /\ round3 message ids R w' = (Ok partials, w')
        /\ partials <> []
        /\ pt_getX R = Some x
        /\ (Forall (fun entry => 0 <= entry.1.2) partials ->
            aggregateS partials = sumPartials partials mod n)
        /\ sig = mkSignature
                   (Hex.padStart 64 (Hex.ofBigInt x))
                   (Hex.padStart 64 (Hex.ofBigInt (aggregateS partials)))
                   "Threshold Signatures (Feldman VSS DKG + Multi-round Protocol)".
Proof.
  unfold signWithTSS. split.
  - unfold bind at 1.
    destruct (round1 message ids w) as [[cs|e] w1] eqn:H1; [|discriminate].
    unfold bind at 1. pose proof (round2_state cs w1) as Hs2.
    destruct (round2 cs w1) as [[R|e] w2] eqn:H2; [|discriminate].
    cbn [snd] in Hs2. subst w2.
    unfold bind at 1. pose proof (round3_state message ids R w1) as Hs3.
    destruct (round3 message ids R w1) as [[ps|e] w3] eqn:H3; [|discriminate].
    cbn [snd] in Hs3. subst w3.
    rewrite round4_run. destruct ps as [|[[id s] r] rest] eqn:Hps; [discriminate|].
    intros [= <- <-].
    destruct (round2_getX cs w1 w1 R H2) as [x Hx].
    pose proof (round3_entries message ids R w1 w1 _ H3) as Hentries.
    apply Forall_cons in Hentries as [(p & x' & _ & Hx' & _ & Hr) _]. cbn in Hr.
    rewrite Hx in Hx'. injection Hx' as <-. subst r.
    exists cs, R, ((id, s, Hex.padStart 64 (Hex.ofBigInt x)) :: rest), x.
    repeat split; auto using aggregateS_sum; discriminate.
  - intros (cs & R & ps & x & H1 & H2 & H3 & Hne & Hx & _ & ->).
    unfold bind at 1. rewrite H1. unfold bind at 1. rewrite H2.
    unfold bind at 1. rewrite H3. rewrite round4_run.
    destruct ps as [|[[id s] r] rest] eqn:Hps; [congruence|].
    pose proof (round3_entries message ids R w' w' _ H3) as Hentries.
    apply Forall_cons in Hentries as [(p & x' & _ & Hx' & _ & Hr) _]. cbn in Hr.
    rewrite Hx in Hx'. injection Hx' as <-. subst r. reflexivity.
Qed.
